(** * pyJac kernel generator: argument resolution, memory placement,
      working-buffer packing, barrier insertion and specialization

    A shallow embedding of the parts of [pyjac/kernel_utils/kernel_gen.py]
    that decide how kernel arguments are merged, how constant arrays are
    promoted to global memory, how the working buffer is packed, where
    barriers are inserted and when the vectorization fix-up runs.

    Python values are modelled structurally: lists as [list], [set] of
    names as [gset string], objects as records, exceptions as values of
    [exn] carried by the [result] monad. *)

From Stdlib Require Import ZArith String Ascii List Bool Lia.
From Stdlib Require Import Sorting.Sorted Structures.OrderedTypeEx.
From stdpp Require Import base decidable option numbers list strings gmap sorting.

Local Open Scope string_scope.
Local Open Scope list_scope.
Local Open Scope Z_scope.

(** ** Python lists, strings and sorting *)

Module Py.

(** Python indexing [l[i]]: negative indices count from the end. *)
Definition getitem {A} (l : list A) (i : Z) : option A :=
  if decide (0 <= i) then l !! Z.to_nat i
  else if decide (0 <= Z.of_nat (length l) + i)
       then l !! Z.to_nat (Z.of_nat (length l) + i)
       else None.

(** [list(enumerate(l))]. *)
Fixpoint enumerate_from {A} (i : Z) (l : list A) : list (Z * A) :=
  match l with
  | [] => []
  | x :: l' => (i, x) :: enumerate_from (i + 1) l'
  end.

Definition enumerate {A} (l : list A) : list (Z * A) := enumerate_from 0 l.

(** [list.insert(i, x)] for [0 <= i]. *)
Definition insert_at {A} (i : nat) (x : A) (l : list A) : list A :=
  take i l ++ x :: drop i l.

(** [needle in hay] on strings. *)
Fixpoint contains (needle hay : string) : bool :=
  String.prefix needle hay
  || match hay with
     | EmptyString => false
     | String _ hay' => contains needle hay'
     end.

(** [sorted(l)] with the order given as a boolean "goes first" test:
    a stable insertion sort, like Python's stable sort. *)
Fixpoint insert_sorted {A} (le : A -> A -> bool) (x : A) (l : list A) : list A :=
  match l with
  | [] => [x]
  | y :: l' => if le x y then x :: l else y :: insert_sorted le x l'
  end.

Definition sorted {A} (le : A -> A -> bool) (l : list A) : list A :=
  foldr (insert_sorted le) [] l.

(** [sorted(set(names))] on strings: code-point order. *)
Definition sorted_set (names : list string) : list string :=
  sorted String.leb (elements (list_to_set (C := gset string) names)).

(** [sorted(l, key=key, reverse=True)] for integer keys. *)
Definition sorted_by_key_desc {A} (key : A -> Z) (l : list A) : list A :=
  sorted (fun x y => bool_decide (key y <= key x)) l.

End Py.

(** ** Data model *)

Inductive numpy_dtype := float32 | float64 | int32 | int64.

(** loopy's [NumpyType] and [AtomicNumpyType]. *)
Inductive loopy_type :=
| NumpyType (d : numpy_dtype)
| AtomicNumpyType (d : numpy_dtype).

Definition numpy_of (t : loopy_type) : numpy_dtype :=
  match t with NumpyType d | AtomicNumpyType d => d end.

Definition is_atomic (t : loopy_type) : bool :=
  match t with AtomicNumpyType _ => true | NumpyType _ => false end.

Definition is_integral (t : loopy_type) : bool :=
  match numpy_of t with int32 | int64 => true | _ => false end.

(** Modelled from the spec: loopy's [to_loopy_type(t, for_atomic=True)],
    which is not part of this repository; the spec describes it as "the
    atomic-typed variant" of a numeric type. *)
Definition to_loopy_type_atomic (t : loopy_type) : loopy_type :=
  AtomicNumpyType (numpy_of t).

(** A dimension of a shape: an integer or a symbolic size. *)
Inductive dim :=
| DInt (n : Z)
| DSym (s : string).

Inductive arg_class := ValueArg | GlobalArg | LocalArrayArg.

Record KernelArgument := mkArg {
  arg_class_of : arg_class;
  arg_name : string;
  arg_dtype : loopy_type;
  arg_shape : list dim
}.

Inductive address_space := PRIVATE | LOCAL | GLOBAL | auto.

Record TemporaryVariable := mkTemp {
  tv_name : string;
  tv_dtype : loopy_type;
  tv_shape : list Z;
  tv_scope : address_space;
  tv_read_only : bool
}.

(** An entry of [extra_kernel_data]. *)
Inductive kernel_data :=
| KArg (a : KernelArgument)
| KTemp (t : TemporaryVariable).

Record LoopKernel := mkKernel {
  knl_name : string;
  knl_args : list KernelArgument;
  (** [temporary_variables], a dict in insertion order *)
  knl_temporary_variables : list (string * TemporaryVariable);
  (** [get_written_variables()] *)
  knl_written_variables : list string
}.

#[global] Instance numpy_dtype_eq_dec : EqDecision numpy_dtype.
Proof. solve_decision. Defined.
#[global] Instance loopy_type_eq_dec : EqDecision loopy_type.
Proof. solve_decision. Defined.
#[global] Instance dim_eq_dec : EqDecision dim.
Proof. solve_decision. Defined.
#[global] Instance arg_class_eq_dec : EqDecision arg_class.
Proof. solve_decision. Defined.
#[global] Instance KernelArgument_eq_dec : EqDecision KernelArgument.
Proof. solve_decision. Defined.
#[global] Instance address_space_eq_dec : EqDecision address_space.
Proof. solve_decision. Defined.
#[global] Instance TemporaryVariable_eq_dec : EqDecision TemporaryVariable.
Proof. solve_decision. Defined.
#[global] Instance kernel_data_eq_dec : EqDecision kernel_data.
Proof. solve_decision. Defined.
#[global] Instance LoopKernel_eq_dec : EqDecision LoopKernel.
Proof. solve_decision. Defined.

(** ** Exceptions and results

    The exceptions the modelled code can raise. *)
Inductive exn :=
| TypeError
| IndexError
| KeyError
| AssertionError
| StopIteration
| RecursionError
(** [Exception('Cannot resolve different arguements of same name: ...')]
    with the arguments the message lists *)
| ConflictingArguments (same_name : list KernelArgument)
(** the same message, raised for temporaries *)
| ConflictingTemporaries (same_names : list TemporaryVariable)
(** [logger.exception('Cannot fit kernel {} in memory')] followed by
    [raise Exception()] *)
| CannotFitInMemory (kernel : string).

Inductive result (A : Type) :=
| Ok (a : A)
| Raise (e : exn).
Arguments Ok {A} a.
Arguments Raise {A} e.

#[global] Instance result_ret : MRet result := fun A a => Ok a.
#[global] Instance result_bind : MBind result := fun A B k r =>
  match r with
  | Ok a => k a
  | Raise e => Raise e
  end.

Definition is_ok {A} (r : result A) : bool :=
  match r with Ok _ => true | Raise _ => false end.

(** [utils.partition(l, pred)]: the elements that satisfy [pred], then the
    others, each in their order in [l].

    Modelled from the spec: [utils.partition] is defined in [pyjac/utils.py];
    the spec uses it to "split" and to "partition" lists by a predicate. *)
Definition partition {A} (l : list A) (pred : A -> bool) : list A * list A :=
  (List.filter pred l, List.filter (fun x => negb (pred x)) l).

(** The value a 64-bit integer holds after an operation that went out of
    its range: numpy's integer arithmetic wraps around. *)
Definition wrap_int64 (z : Z) : Z := (z + 2 ^ 63) mod 2 ^ 64 - 2 ^ 63.

(** Modelled from the spec: [np.prod] of a tuple of integer dimensions, the
    "element count" of a shape (1 for the empty shape).  numpy multiplies
    the dimensions as 64-bit integers, so that the product wraps around
    when it leaves their range; wrapping after every multiplication or
    once at the end gives the same value.  The dimensions themselves are
    taken to fit 64 bits. *)
Definition np_prod (shape : list Z) : Z := wrap_int64 (foldr Z.mul 1 shape).

(** ** The kernel generator *)

Inductive generator_class :=
| c_kernel_generator
| autodiff_kernel_generator
| ispc_kernel_generator
| opencl_kernel_generator.

(** [KernelType]: [dummy], or a member whose [utils.enum_to_string] is the
    given string. *)
Inductive KernelType :=
| dummy
| kernel_type (s : string).

Record loopy_options := mkOpts {
  opt_depth : option Z;
  opt_width : option Z;
  opt_is_simd : bool;
  opt_unr : option Z;
  opt_ilp : bool;
  opt_work_size : option Z;
  opt_lang : string
}.

Record kernel_generator := mkGen {
  gen_class : generator_class;
  gen_kernel_type : KernelType;
  gen_loopy_opts : loopy_options;
  (** [self.kernels] *)
  gen_kernels : list LoopKernel;
  (** [dep.kernels] for each [dep] of [self.depends_on] *)
  gen_depends_on : list (list LoopKernel);
  gen_extra_kernel_data : list kernel_data;
  (** [(knl1, knl2, barrier_type)] *)
  gen_barriers : list (Z * Z * string)
}.

(** The [name] property: for a [dummy] kernel type the getter returns
    [self.name], that is, calls itself. *)
Definition name (self : kernel_generator) : result string :=
  match gen_kernel_type self with
  | dummy => Raise RecursionError
  | kernel_type s => Ok s
  end.

(** The [hoist_locals] property: [True] only in the OpenCL generator. *)
Definition hoist_locals (self : kernel_generator) : bool :=
  match gen_class self with
  | opencl_kernel_generator => true
  | _ => false
  end.

(** ** Argument resolution: [_compare_args], [_process_args] *)

Definition atomify (arg : KernelArgument) : KernelArgument :=
  mkArg (arg_class_of arg) (arg_name arg)
        (to_loopy_type_atomic (arg_dtype arg)) (arg_shape arg).

Definition _compare_args (arg1 arg2 : KernelArgument) : bool :=
  bool_decide (arg1 = arg2) || bool_decide (atomify arg1 = atomify arg2).

(** The object bound to the parameter [kernels]: the list object
    [self.kernels] itself (as [_merge_kernels] passes it on when it is
    called with [self.kernels]), or another list object. *)
Inductive kernels_ref :=
| SelfKernels
| ListObject (l : list LoopKernel).

(** [l[i] = x] *)
Definition setitem {A} (l : list A) (i : nat) (x : A) : result (list A) :=
  if decide (i < length l)%nat then Ok (<[i := x]> l) else Raise IndexError.

(** [l.pop()] *)
Definition pop {A} (l : list A) : result A :=
  match last l with
  | Some x => Ok x
  | None => Raise IndexError
  end.

(** [l.remove(x)]: drops the first element equal to [x]. *)
Fixpoint remove_first `{EqDecision A} (x : A) (l : list A) : list A :=
  match l with
  | [] => []
  | y :: l' => if decide (y = x) then l' else y :: remove_first x l'
  end.

(** Lines 1196-1198: the loop over [args], from the list [same_name]
    collected so far. *)
Definition collect (name : string) (same_name : list KernelArgument)
    (args : list KernelArgument) : list KernelArgument :=
  foldl (fun same_name x =>
           if bool_decide (arg_name x = name)
              && negb (existsb (fun y => bool_decide (x = y)) same_name)
           then same_name ++ [x] else same_name) same_name args.

(** Lines 1195-1198: the distinct arguments called [name], in order of
    first appearance. *)
Definition same_name_of (name : string) (args : list KernelArgument)
  : list KernelArgument :=
  collect name [] args.

(** [knl.copy(args=[x if x != other else atomic for x in knl.args])] *)
Definition replace_arg (other atomic : KernelArgument) (knl : LoopKernel)
  : LoopKernel :=
  mkKernel (knl_name knl)
           ((fun x => if decide (x <> other) then x else atomic) <$> knl_args knl)
           (knl_temporary_variables knl) (knl_written_variables knl).

(** Lines 1225-1228: [for i, knl in enumerate(self.kernels)], writing to
    [kernels[i]].  [todo] is what is left of [enumerate(self.kernels)]. *)
Fixpoint rewrite_kernels (todo : list (nat * LoopKernel))
    (kernels : list LoopKernel) (other atomic : KernelArgument)
  : result (list LoopKernel) :=
  match todo with
  | [] => Ok kernels
  | (i, knl) :: todo' =>
      if bool_decide (other ∈ knl_args knl)
      then kernels' ← setitem kernels i (replace_arg other atomic knl);
           rewrite_kernels todo' kernels' other atomic
      else rewrite_kernels todo' kernels other atomic
  end.

Definition nat_enumerate {A} (l : list A) : list (nat * A) :=
  zip (seq 0 (length l)) l.

(** Lines 1199-1230: the body of [if len(same_name) != 1].  [self_kernels]
    is the current content of [self.kernels]. *)
Definition resolve_same_name (self_kernels kernels : list LoopKernel)
    (same_name : list KernelArgument)
  : result (list LoopKernel * list KernelArgument) :=
  match List.find (fun x => is_atomic (arg_dtype x)) same_name with
  | None => Raise (ConflictingArguments same_name)
  | Some atomic =>
      if decide (2 < length same_name)%nat
      then Raise (ConflictingArguments same_name)
      else
        match List.find (fun x => bool_decide (x <> atomic)) same_name with
        | None => Raise StopIteration
        | Some other =>
            if negb (_compare_args other atomic)
            then Raise (ConflictingArguments same_name)
            else
              kernels' ← rewrite_kernels (nat_enumerate self_kernels)
                                         kernels other atomic;
              Ok (kernels', remove_first other same_name)
        end
  end.

(** Lines 1194-1233: the loop over [nameset].  When [alias] holds, the
    objects [self.kernels] and [kernels] are one list, so that the rewrite
    loop enumerates the list it writes to: it reads position [i] before it
    writes position [i], and it writes nothing else, so enumerating the
    content at the start of the loop gives the same result. *)
Fixpoint resolve_names (alias : bool) (self_kernels : list LoopKernel)
    (args : list KernelArgument) (nameset : list string)
    (kernels : list LoopKernel) (kernel_data : list KernelArgument)
  : result (list LoopKernel * list KernelArgument) :=
  match nameset with
  | [] => Ok (kernels, kernel_data)
  | name :: nameset' =>
      let same_name := same_name_of name args in
      '(kernels', same_name') ←
        (if decide (length same_name <> 1)%nat
         then resolve_same_name (if alias then kernels else self_kernels)
                                kernels same_name
         else Ok (kernels, same_name));
      x ← pop same_name';
      resolve_names alias self_kernels args nameset' kernels' (kernel_data ++ [x])
  end.

Definition is_value_arg (x : KernelArgument) : bool :=
  bool_decide (arg_class_of x = ValueArg).

(** [[x for x in self.extra_kernel_data if isinstance(x, lp.KernelArgument)]] *)
Definition extra_arguments (self : kernel_generator) : list KernelArgument :=
  omap (fun x => match x with KArg a => Some a | KTemp _ => None end)
       (gen_extra_kernel_data self).

(** [arg.scope != scopes.PRIVATE and arg.scope != lp.auto] *)
Definition shared_scope (t : TemporaryVariable) : bool :=
  bool_decide (tv_scope t <> PRIVATE) && bool_decide (tv_scope t <> auto).

Definition extra_temporaries (self : kernel_generator) : list TemporaryVariable :=
  omap (fun x => match x with
                 | KTemp t => if shared_scope t then Some t else None
                 | KArg _ => None
                 end)
       (gen_extra_kernel_data self).

(** [knl.temporary_variables.values()] *)
Definition temporaries (knl : LoopKernel) : list TemporaryVariable :=
  snd <$> knl_temporary_variables knl.

(** Lines 1259-1266: one temporary per name, all of a name being equal. *)
Fixpoint resolve_temps (copy : list TemporaryVariable) (names : list string)
    (temps : list TemporaryVariable) : result (list TemporaryVariable) :=
  match names with
  | [] => Ok temps
  | name :: names' =>
      let same_names := List.filter (fun x => bool_decide (tv_name x = name)) copy in
      match same_names with
      | [] => Raise IndexError
      | first :: others =>
          if bool_decide (1 < length same_names)%nat
             && negb (forallb (fun x => bool_decide (x = first)) others)
          then Raise (ConflictingTemporaries same_names)
          else resolve_temps copy names' (temps ++ [first])
      end
  end.

Definition __argify (temp : TemporaryVariable) : KernelArgument :=
  mkArg LocalArrayArg (tv_name temp) (tv_dtype temp) (DInt <$> tv_shape temp).

Definition __migrate_locals (kernel : LoopKernel) (ldecls : list TemporaryVariable)
  : result LoopKernel :=
  if forallb (fun x => bool_decide (tv_scope x = LOCAL)) ldecls
  then
    let names := tv_name <$> ldecls in
    Ok (mkKernel (knl_name kernel)
                 (knl_args kernel ++ (__argify <$> ldecls))
                 (List.filter (fun kv => negb (bool_decide (fst kv ∈ names)))
                              (knl_temporary_variables kernel))
                 (knl_written_variables kernel))
  else Raise AssertionError.

(** Lines 1272-1281: hoisting of local temporaries.  The loop enumerates
    [kernels] and writes [kernels[i]] at the index it is at. *)
Fixpoint hoist (todo : list LoopKernel)
    (local temps : list TemporaryVariable)
  : result (list LoopKernel * list TemporaryVariable * list TemporaryVariable) :=
  match todo with
  | [] => Ok ([], local, temps)
  | knl :: todo' =>
      let local_temps :=
        List.filter (fun x => bool_decide (tv_scope x = LOCAL)) (temporaries knl) in
      match local_temps with
      | [] =>
          '(kernels', local', temps') ← hoist todo' local temps;
          Ok (knl :: kernels', local', temps')
      | _ :: _ =>
          knl' ← __migrate_locals knl local_temps;
          '(kernels', local', temps') ←
            hoist todo' (local ++ local_temps)
                  (List.filter (fun x => negb (bool_decide (x ∈ local_temps))) temps);
          Ok (knl' :: kernels', local', temps')
      end
  end.

(** What [_process_args] returns, and the lists it leaves behind. *)
Record resolved := mkResolved {
  (** the content of [self.kernels] after the call *)
  r_self_kernels : list LoopKernel;
  (** the content of the list bound to [kernels] when the call returns *)
  r_kernels : list LoopKernel;
  r_args : list KernelArgument;
  r_local : list TemporaryVariable;
  r_readonly : gset string;
  r_constants : list TemporaryVariable;
  r_valueargs : list KernelArgument
}.

(** Lines 1185-1189: the complete list of kernel data. *)
Definition gather_args (self : kernel_generator) (kernels : list LoopKernel)
  : list KernelArgument :=
  (kernels ≫= knl_args) ++ extra_arguments self.

(** Lines 1177-1182: the list the function works on. *)
Definition working_kernels (self : kernel_generator) (kernels : kernels_ref)
    (use_subkernels : bool) : list LoopKernel :=
  let given := match kernels with
               | SelfKernels => gen_kernels self
               | ListObject l => l
               end in
  let kernels := match given with [] => gen_kernels self | _ => given end in
  if use_subkernels then kernels ++ concat (gen_depends_on self) else kernels.

(** Whether the list the function works on is the object [self.kernels]:
    an empty list is replaced by the copy [self.kernels[:]]. *)
Definition aliases_self (self : kernel_generator) (kernels : kernels_ref) : bool :=
  match kernels with
  | SelfKernels => bool_decide (gen_kernels self <> [])
  | ListObject _ => false
  end.

(** Lines 1240-1244: the names of the arguments no kernel writes to. *)
Definition readonly_names (kernels : list LoopKernel) : gset string :=
  list_to_set
    (arg_name <$>
       List.filter
         (fun arg =>
            negb (existsb (fun d => bool_decide (arg_name arg ∈ knl_written_variables d))
                          kernels)
            && negb (is_value_arg arg))
         (kernels ≫= knl_args)).

(** Lines 1247-1256: the temporaries that are neither private nor auto. *)
Definition shared_temporaries (self : kernel_generator) (kernels : list LoopKernel)
  : list TemporaryVariable :=
  List.filter shared_scope (kernels ≫= temporaries) ++ extra_temporaries self.

Definition _process_args (self : kernel_generator) (kernels : kernels_ref)
    (use_subkernels : bool) : result resolved :=
  let alias := aliases_self self kernels in
  let kernels := working_kernels self kernels use_subkernels in
  let args := gather_args self kernels in
  let nameset := Py.sorted_set (arg_name <$> args) in
  '(kernels, kernel_data) ←
    resolve_names alias (gen_kernels self) args nameset kernels [];
  let '(valueargs, args) := partition kernel_data is_value_arg in
  let readonly := readonly_names kernels in
  let temps := shared_temporaries self kernels in
  temps ← resolve_temps temps (Py.sorted_set (tv_name <$> temps)) [];
  '(kernels, local, temps) ←
    (if hoist_locals self then hoist kernels [] temps else Ok (kernels, [], temps));
  let '(constants, temps) := partition temps tv_read_only in
  Ok (mkResolved (if alias then kernels else gen_kernels self) kernels
                 args local readonly constants valueargs).

(** ** Memory placement: [_process_memory] *)

(** An entry of a memory class: arguments and, once promoted, temporaries. *)
Inductive mem_item :=
| MemArg (a : KernelArgument)
| MemTemp (t : TemporaryVariable).

#[global] Instance mem_item_eq_dec : EqDecision mem_item.
Proof. solve_decision. Defined.

(** [mem_types], the dict from [memory_type] to a list of arrays. *)
Record mem_types := mkMemTypes {
  m_global : list mem_item;
  m_local : list TemporaryVariable;
  m_constant : list TemporaryVariable
}.

(** Modelled from the spec: the [memory_limits] object of
    [pyjac/kernel_utils/memory_manager.py].  The spec gives it
    "[can_fit(with_hypothetical_promotions) -> bool-per-class]"; the
    argument is [type_changes[memory_type.m_global]], the only key the
    generator fills, [can_fit()] is [can_fit] of no promotion, and the
    result holds the truth values that [all(...)] tests. *)
Record memory_limits := mkLimits {
  can_fit : list TemporaryVariable -> list bool
}.

(** [all(l)] *)
Definition py_all (l : list bool) : bool := forallb id l.

(** Line 1350: ['sparse_jac' not in x.name]. *)
Definition promotable (x : TemporaryVariable) : bool :=
  negb (Py.contains "sparse_jac" (tv_name x)).

(** Lines 1350-1352: [gtemps] after the sort by largest size. *)
Definition promotion_candidates (constants : list TemporaryVariable)
  : list TemporaryVariable :=
  Py.sorted_by_key_desc (fun x => np_prod (tv_shape x))
                        (List.filter promotable constants).

(** Lines 1355-1364: the [while] loop, on [type_changes[m_global]] and
    [gtemps]. *)
Fixpoint promote (self : kernel_generator) (mem_limits : memory_limits)
    (type_changes gtemps : list TemporaryVariable)
  : result (list TemporaryVariable) :=
  if py_all (can_fit mem_limits type_changes) then Ok type_changes
  else match gtemps with
       | [] => n ← name self; Raise (CannotFitInMemory n)
       | g :: gtemps' => promote self mem_limits (type_changes ++ [g]) gtemps'
       end.

(** Lines 1347-1364: greedy promotion; [gtemps[0]] is taken before the
    loop is entered. *)
Definition greedy_promotion (self : kernel_generator) (mem_limits : memory_limits)
    (constants : list TemporaryVariable) : result (list TemporaryVariable) :=
  match promotion_candidates constants with
  | [] => Raise IndexError
  | g :: gtemps => promote self mem_limits [g] gtemps
  end.

(** [s[i]] on a set: a set supports no indexing, whatever it holds.  The
    result type is what the caller goes on to use the value as. *)
Definition set_getitem {A} (s : gset string) (i : Z) : result A :=
  Raise TypeError.

(** The state of the loop of lines 1367-1375. *)
Record placement := mkPlacement {
  p_args : list KernelArgument;
  p_readonly : gset string;
  p_host_constants : list TemporaryVariable;
  p_mem_types : mem_types
}.

(** Lines 1367-1375: change the types of the arrays of [type_changes]. *)
Fixpoint change_types (todo : list TemporaryVariable) (st : placement)
  : result placement :=
  match todo with
  | [] => Ok st
  | x :: todo' =>
      let args :=
        p_args st ++ [mkArg GlobalArg (tv_name x) (tv_dtype x) (DInt <$> tv_shape x)] in
      last_readonly ← set_getitem (A := KernelArgument) (p_readonly st) (-1);
      let readonly := {[ arg_name last_readonly ]} ∪ p_readonly st in
      let host_constants := p_host_constants st ++ [x] in
      let mt := p_mem_types st in
      let mt := mkMemTypes (m_global mt ++ [MemTemp x]) (m_local mt)
                           (remove_first x (m_constant mt)) in
      change_types todo' (mkPlacement args readonly host_constants mt)
  end.

(** Lines 1324-1334: globals, locals and constants by memory type. *)
Definition classify (args : list KernelArgument)
    (local constants : list TemporaryVariable) : mem_types :=
  mkMemTypes (MemArg <$> List.filter (fun x => negb (is_value_arg x)) args)
             local constants.

Section ProcessMemory.

(** [memory_limits.get_limits], for the options, strides and limits file
    of the generator. *)
Variable get_limits : kernel_generator -> mem_types -> memory_limits.

Definition _process_memory (self : kernel_generator)
    (args : list KernelArgument) (readonly : gset string)
    (local constants : list TemporaryVariable)
  : result (list KernelArgument * list TemporaryVariable * gset string
            * list TemporaryVariable * memory_limits) :=
  let mt := classify args local constants in
  let mem_limits := get_limits self mt in
  if negb (py_all (can_fit mem_limits []))
  then
    type_changes ← greedy_promotion self mem_limits constants;
    st ← change_types type_changes (mkPlacement args readonly [] mt);
    Ok (p_args st, constants, p_readonly st, p_host_constants st,
        get_limits self (p_mem_types st))
  else Ok (args, constants, readonly, [], mem_limits).

End ProcessMemory.

(** ** Working-buffer packing: [_get_working_buffer] *)

(** [self.work_size]: the integer the user gave, or the name of the
    work-size variable. *)
Inductive work_size_t :=
| WorkSizeInt (n : Z)
| WorkSizeName (s : string).

(** [w_size.name] *)
Definition w_size_name : string := "work_size".

Definition user_specified_work_size (self : kernel_generator) : bool :=
  bool_decide (is_Some (opt_work_size (gen_loopy_opts self))).

Definition work_size (self : kernel_generator) : work_size_t :=
  match opt_work_size (gen_loopy_opts self) with
  | Some n => WorkSizeInt n
  | None => WorkSizeName w_size_name
  end.

(** The text ['{} * {}'.format(size_per_work_item, work_size)], kept as
    its two operands. *)
Record offset := mkOffset {
  off_size : Z;
  off_work_size : work_size_t
}.

#[global] Instance work_size_t_eq_dec : EqDecision work_size_t.
Proof. solve_decision. Defined.
#[global] Instance offset_eq_dec : EqDecision offset.
Proof. solve_decision. Defined.

Definition is_int (d : dim) : bool :=
  match d with DInt _ => true | DSym _ => false end.

Definition ints (l : list dim) : list Z :=
  omap (fun d => match d with DInt n => Some n | DSym _ => None end) l.

(** [str(d)] for a symbolic dimension. *)
Definition dim_str (d : dim) : string :=
  match d with DSym s => s | DInt _ => "" end.

(** Lines 1498-1508: the loop over [args]. *)
Fixpoint working_buffer_loop (self : kernel_generator) (args : list KernelArgument)
    (size_per_work_item : Z) (offsets : gmap string offset)
  : result (Z * gmap string offset) :=
  match args with
  | [] => Ok (size_per_work_item, offsets)
  | arg :: args' =>
      if is_integral (arg_dtype arg) then Raise AssertionError
      else
        let '(isizes, ssizes) := partition (arg_shape arg) is_int in
        let offsets :=
          <[arg_name arg := mkOffset size_per_work_item (work_size self)]> offsets in
        let size_per_work_item := size_per_work_item + np_prod (ints isizes) in
        if user_specified_work_size self
        then working_buffer_loop self args' size_per_work_item offsets
        else if bool_decide (length ssizes <= 1)%nat
             then match ssizes with
                  | [] => Raise IndexError
                  | s :: _ =>
                      if bool_decide (dim_str s = w_size_name)
                      then working_buffer_loop self args' size_per_work_item offsets
                      else Raise AssertionError
                  end
             else Raise AssertionError
  end.

Definition _get_working_buffer (self : kernel_generator) (args : list KernelArgument)
  : result (Z * gmap string offset) :=
  working_buffer_loop self args 0 ∅.

(** ** Barrier insertion: [apply_barriers] *)

(** [self.barrier_templates] of the OpenCL generator. *)
Definition barrier_templates (kind : string) : option string :=
  if decide (kind = "global") then Some "barrier(CLK_GLOBAL_MEM_FENCE)"
  else if decide (kind = "local") then Some "barrier(CLK_LOCAL_MEM_FENCE)"
  else None.

Section Barriers.

(** [utils.line_end[self.lang]] *)
Variable line_end : string.

(** Lines 2668-2676: the loop over the barriers, on the enumerated
    instructions. *)
Fixpoint insert_barriers (barriers : list (Z * Z * string))
    (instructions : list (Z * string)) : result (list (Z * string)) :=
  match barriers with
  | [] => Ok instructions
  | barrier :: barriers' =>
      let '(b0, b1, b2) := barrier in
      match list_find (fun inst => fst inst = b1) instructions with
      | None => Raise StopIteration
      | Some (index, _) =>
          match Py.getitem instructions (Z.of_nat index - 1) with
          | None => Raise IndexError
          | Some before =>
              if bool_decide (b0 = fst before)
              then match barrier_templates b2 with
                   | None => Raise KeyError
                   | Some template =>
                       insert_barriers barriers'
                         (Py.insert_at index (-1, template +:+ line_end) instructions)
                   end
              else Raise AssertionError
          end
      end
  end.

(** [apply_barriers]: the OpenCL generator overrides the method stub of
    the base class, which returns the instructions it is given. *)
Definition apply_barriers (self : kernel_generator) (instructions : list string)
  : result (list string) :=
  match gen_class self with
  | opencl_kernel_generator =>
      tagged ← insert_barriers (gen_barriers self) (Py.enumerate instructions);
      Ok (snd <$> (tagged : list (Z * string)))
  | _ => Ok instructions
  end.

End Barriers.

(** ** Vectorization: [apply_specialization] *)

(** Truth value of an option that holds [None] or an integer. *)
Definition truthy (o : option Z) : bool :=
  match o with
  | Some n => bool_decide (n <> 0)
  | None => false
  end.

Section Specialization.

(** The kernels of loopy and the transformations the method calls; none
    is part of this repository. *)
Variable Knl : Type.
(** [lp.tag_inames(knl, [(iname, tag)])] *)
Variable tag_inames : Knl -> string -> string -> Knl.
(** [lp.split_iname(knl, iname, length, inner_tag=tag)] *)
Variable split_iname : Knl -> string -> option Z -> string -> Knl.
(** [knl.copy(overridden_get_grid_sizes_for_insn_ids=
                vecwith_fixer(knl.copy(), vec_width))] *)
Variable fix_vec_width : Knl -> option Z -> Knl.
(** [utils.can_vectorize_lang] *)
Variable can_vectorize_lang : string -> bool.
(** [global_ind] of [pyjac.core.array_creator] *)
Variable global_ind : string.

(** The kernel, or the dict from inames to tags. *)
Inductive specialized :=
| Kernel (knl : Knl)
| Specialization (tags : gmap string string).

Definition apply_specialization (loopy_opts : loopy_options) (inner_ind : string)
    (knl : Knl) (for_testing : bool) (vecspec : option (Knl -> Knl))
    (can_vectorize get_specialization : bool) : result specialized :=
  let depth := opt_depth loopy_opts in
  let width := opt_width loopy_opts in
  let '(to_split, vec_width, i_tag, j_tag) :=
    if truthy depth
    then (Some inner_ind, depth, inner_ind +:+ "_outer", global_ind)
    else if truthy width
         then (Some global_ind, width, inner_ind, global_ind +:+ "_outer")
         else (None, None, inner_ind, global_ind) in
  if negb can_vectorize && negb (bool_decide (is_Some vecspec))
  then Raise AssertionError
  else
    let specialization : gmap string string := ∅ in
    (* if to_split and can_vectorize *)
    let '(knl, specialization) :=
      match to_split with
      | Some split =>
          if bool_decide (split <> "") && can_vectorize
          then
            let tag := if opt_is_simd loopy_opts then "vec" else "l.0" in
            if get_specialization
            then (knl, <[split +:+ "_inner" := tag]> specialization)
            else if truthy width && negb for_testing
                 then (tag_inames knl (split +:+ "_inner") tag, specialization)
                 else (split_iname knl split vec_width tag, specialization)
          else (knl, specialization)
      | None => (knl, specialization)
      end in
    let '(knl, specialization) :=
      if can_vectorize_lang (opt_lang loopy_opts)
      then if get_specialization
           then (knl, <[j_tag := "g.0"]> specialization)
           else (tag_inames knl j_tag "g.0", specialization)
      else (knl, specialization) in
    (* if vecspec and not get_specialization *)
    let knl :=
      match vecspec with
      | Some f => if negb get_specialization then f knl else knl
      | None => knl
      end in
    let knl :=
      if truthy vec_width && negb (opt_is_simd loopy_opts) && negb get_specialization
      then fix_vec_width knl vec_width
      else knl in
    let '(knl, specialization) :=
      match opt_unr loopy_opts with
      | Some unr =>
          if get_specialization
          then (knl, <[i_tag +:+ "_inner" := "unr"]> specialization)
          else (split_iname knl i_tag (Some unr) "unr", specialization)
      | None =>
          if opt_ilp loopy_opts
          then if get_specialization
               then (knl, <[i_tag := "ilp"]> specialization)
               else (tag_inames knl i_tag "ilp", specialization)
          else (knl, specialization)
      end in
    Ok (if negb get_specialization then Kernel knl else Specialization specialization).

End Specialization.

Arguments Kernel {Knl} knl.
Arguments Specialization {Knl} tags.

(** ** Notions used in the statements *)

(** Alphabetical (code-point) order on names, strict. *)
Definition name_lt (a b : string) : Prop := String.ltb a b = true.

(** The generator with another content of [self.kernels]. *)
Definition with_kernels (self : kernel_generator) (kernels : list LoopKernel)
  : kernel_generator :=
  mkGen (gen_class self) (gen_kernel_type self) (gen_loopy_opts self) kernels
        (gen_depends_on self) (gen_extra_kernel_data self) (gen_barriers self).

(** The generator and the [kernels] argument as a second call of
    [_process_args] finds them, after a call that returned [r]: an empty
    list was copied and is as it was; any other list holds what the call
    left in it. *)
Definition after_call (self : kernel_generator) (kernels : kernels_ref)
    (r : resolved) : kernel_generator * kernels_ref :=
  match kernels with
  | SelfKernels => (with_kernels self (r_self_kernels r), SelfKernels)
  | ListObject [] => (self, ListObject [])
  | ListObject (_ :: _) => (self, ListObject (r_kernels r))
  end.

(** A list of kernels followed by kernels it already holds: what
    [kernels += ...] makes of a list that the dependencies were added to
    before. *)
Definition repeats (kernels kernels2 : list LoopKernel) : Prop :=
  exists again,
    kernels2 = kernels ++ again /\ forall knl, knl ∈ again -> knl ∈ kernels.

(** The five results of [_process_args]. *)
Definition same_partition (r1 r2 : resolved) : Prop :=
  r_args r1 = r_args r2
  /\ r_local r1 = r_local r2
  /\ r_readonly r1 = r_readonly r2
  /\ r_constants r1 = r_constants r2
  /\ r_valueargs r1 = r_valueargs r2.

(** Arguments that are already resolved: no name has two variants. *)
Definition already_resolved (args : list KernelArgument) : Prop :=
  forall name, (length (same_name_of name args) <= 1)%nat.

(** Variants that differ in atomicity alone: an argument and its atomic
    variant, in either order. *)
Definition atomic_pair (same_name : list KernelArgument) : Prop :=
  exists arg,
    is_atomic (arg_dtype arg) = false
    /\ (same_name = [arg; atomify arg] \/ same_name = [atomify arg; arg]).

(** Variants that cannot be resolved: several, and not such a pair. *)
Definition unresolvable (same_name : list KernelArgument) : Prop :=
  (2 <= length same_name)%nat /\ ~ atomic_pair same_name.

(** The argument [x] stands for the name among [args]: it is one of the
    arguments of that name, and every argument of that name is [x] or has
    [x] as its atomic variant. *)
Definition canonical (name : string) (args : list KernelArgument)
    (x : KernelArgument) : Prop :=
  x ∈ args /\ arg_name x = name
  /\ forall y, y ∈ args -> arg_name y = name -> y = x \/ x = atomify y.

(** A list of names in strictly increasing alphabetical order. *)
Definition alphabetical (names : list string) : Prop :=
  StronglySorted name_lt names.

(** The sort key of line 1352: [np.prod(x.shape)]. *)
Definition array_size (x : TemporaryVariable) : Z := np_prod (tv_shape x).

(** The element count of a shape: the product of its dimensions. *)
Definition element_count (shape : list Z) : Z := foldr Z.mul 1 shape.

(** A shape whose element count a 64-bit integer holds: its dimensions are
    not negative and their product is below [2 ^ 63]. *)
Definition countable (shape : list Z) : Prop :=
  Forall (fun d => 0 <= d) shape /\ element_count shape < 2 ^ 63.

(** The steps of [apply_specialization] that do not depend on the kernel
    being vectorizable. *)
Section SpecializationSteps.

Variable Knl : Type.
Variable tag_inames : Knl -> string -> string -> Knl.
Variable split_iname : Knl -> string -> option Z -> string -> Knl.
Variable fix_vec_width : Knl -> option Z -> Knl.
Variable can_vectorize_lang : string -> bool.
Variable global_ind : string.

(** [vec_width], [i_tag] and [j_tag] after lines 2165-2178. *)
Definition vec_width_of (loopy_opts : loopy_options) : option Z :=
  if truthy (opt_depth loopy_opts) then opt_depth loopy_opts
  else if truthy (opt_width loopy_opts) then opt_width loopy_opts
       else None.

Definition i_tag_of (loopy_opts : loopy_options) (inner_ind : string) : string :=
  if truthy (opt_depth loopy_opts) then inner_ind +:+ "_outer" else inner_ind.

Definition j_tag_of (loopy_opts : loopy_options) : string :=
  if truthy (opt_depth loopy_opts) then global_ind
  else if truthy (opt_width loopy_opts) then global_ind +:+ "_outer"
       else global_ind.

(** Lines 2199-2204, applied: the batch loop is tagged [g.0]. *)
Definition tag_global (loopy_opts : loopy_options) (knl : Knl) : Knl :=
  if can_vectorize_lang (opt_lang loopy_opts)
  then tag_inames knl (j_tag_of loopy_opts) "g.0"
  else knl.

(** Lines 2210-2225, applied: the vector width fix, then unrolling or
    ILP. *)
Definition finish (loopy_opts : loopy_options) (inner_ind : string) (knl : Knl)
  : Knl :=
  let knl :=
    if truthy (vec_width_of loopy_opts) && negb (opt_is_simd loopy_opts)
    then fix_vec_width knl (vec_width_of loopy_opts)
    else knl in
  match opt_unr loopy_opts with
  | Some unr => split_iname knl (i_tag_of loopy_opts inner_ind) (Some unr) "unr"
  | None =>
      if opt_ilp loopy_opts
      then tag_inames knl (i_tag_of loopy_opts inner_ind) "ilp"
      else knl
  end.

(** The tags a dry run records when the vectorization split is skipped. *)
Definition dry_tags (loopy_opts : loopy_options) (inner_ind : string)
  : gmap string string :=
  let tags : gmap string string :=
    if can_vectorize_lang (opt_lang loopy_opts)
    then {[ j_tag_of loopy_opts := "g.0" ]}
    else ∅ in
  match opt_unr loopy_opts with
  | Some unr => <[i_tag_of loopy_opts inner_ind +:+ "_inner" := "unr"]> tags
  | None =>
      if opt_ilp loopy_opts
      then <[i_tag_of loopy_opts inner_ind := "ilp"]> tags
      else tags
  end.

End SpecializationSteps.



(** The checks of lines 1500 and 1507-1508: a floating-point array whose
    only symbolic dimension is the work size, or any floating-point array
    when the user gave the work size. *)
Definition packable (self : kernel_generator) (arg : KernelArgument) : bool :=
  negb (is_integral (arg_dtype arg))
  && (user_specified_work_size self
      || bool_decide (List.filter (fun d => negb (is_int d)) (arg_shape arg)
                      = [DSym w_size_name])).


(** ** Concrete generators, kernels and arrays *)

Module Samples.

Definition opts : loopy_options :=
  mkOpts None None false None false None "opencl".

Definition generator (cls : generator_class) (kernels : list LoopKernel)
    (depends_on : list (list LoopKernel)) : kernel_generator :=
  mkGen cls (kernel_type "jacobian") opts kernels depends_on [] [].

(** Two constant arrays of 4 and 6 elements, and a sparse index array. *)
Definition c4 : TemporaryVariable :=
  mkTemp "a" (NumpyType float64) [4] GLOBAL true.
Definition c6 : TemporaryVariable :=
  mkTemp "b" (NumpyType float64) [2; 3] GLOBAL true.
Definition sparse : TemporaryVariable :=
  mkTemp "sparse_jac_row_inds" (NumpyType int32) [100] GLOBAL true.

Definition total (l : list TemporaryVariable) : Z :=
  foldr Z.add 0 (array_size <$> l).

(** A limit on the constant class alone: the constants less the
    promoted arrays may hold [budget] elements. *)
Definition constant_budget (budget : Z) (self : kernel_generator)
    (mt : mem_types) : memory_limits :=
  mkLimits (fun type_changes =>
              [true; true;
               bool_decide (total (m_constant mt) - total type_changes <= budget)]).

(** Two floating-point arrays over the work size. *)
Definition x : KernelArgument :=
  mkArg GlobalArg "x" (NumpyType float64) [DSym "work_size"; DInt 4; DInt 2].
Definition y : KernelArgument :=
  mkArg GlobalArg "y" (NumpyType float64) [DSym "work_size"; DInt 3].

(** An argument, its atomic variant, and two arguments of one name and
    different shapes. *)
Definition k : KernelArgument :=
  mkArg GlobalArg "k" (NumpyType float64) [DSym "work_size"; DInt 4].
Definition k_atomic : KernelArgument := atomify k.
Definition phi : KernelArgument :=
  mkArg GlobalArg "phi" (NumpyType float64) [DSym "work_size"; DInt 9].
Definition phi_short : KernelArgument :=
  mkArg GlobalArg "phi" (NumpyType float64) [DSym "work_size"; DInt 8].

Definition reads_k : LoopKernel := mkKernel "reads_k" [k] [] [].
Definition updates_k : LoopKernel := mkKernel "updates_k" [k_atomic] [] ["k"].
Definition own : LoopKernel := mkKernel "own" [phi] [] ["phi"].
Definition reads_k_phi : LoopKernel := mkKernel "reads_k_phi" [phi; k] [] [].
Definition updates_k_phi : LoopKernel :=
  mkKernel "updates_k_phi" [k_atomic; phi_short] [] ["k"].

(** A kernel with a local temporary. *)
Definition scratch : TemporaryVariable :=
  mkTemp "scratch" (NumpyType float64) [8] LOCAL false.
Definition uses_scratch : LoopKernel :=
  mkKernel "uses_scratch" [phi] [("scratch", scratch)] ["phi"; "scratch"].

(** A generator with barriers. *)
Definition with_barriers (barriers : list (Z * Z * string)) : kernel_generator :=
  mkGen opencl_kernel_generator (kernel_type "jacobian") opts [] [] [] barriers.

(** Kernels as the list of the transformations applied to them. *)
Inductive transformation :=
| TagInames (iname tag : string)
| SplitIname (iname : string) (length : option Z) (tag : string)
| FixVecWidth (vec_width : option Z)
| Fixup.

Definition traced : Type := list transformation.

Definition tag_inames (knl : traced) (iname tag : string) : traced :=
  knl ++ [TagInames iname tag].
Definition split_iname (knl : traced) (iname : string) (length : option Z)
    (tag : string) : traced :=
  knl ++ [SplitIname iname length tag].
Definition fix_vec_width (knl : traced) (vec_width : option Z) : traced :=
  knl ++ [FixVecWidth vec_width].
Definition fixup (knl : traced) : traced := knl ++ [Fixup].

(** Deep vectorization of width 4. *)
Definition deep : loopy_options :=
  mkOpts (Some 4) None false None false None "opencl".

(** [apply_specialization] on traced kernels, with [global_ind = 'j'] and
    a language that can be vectorized. *)
Definition specialize :=
  apply_specialization traced tag_inames split_iname fix_vec_width
                       (fun _ => true) "j".

End Samples.

(** ** Host constants: [_migrate_host_constants] *)

(** Lines 1457-1458: the names of the host constants that the kernel holds
    as temporaries. *)
Definition transferred (kernel : LoopKernel) (host_constants : list TemporaryVariable)
  : gset string :=
  list_to_set
    (List.filter (fun n => bool_decide (n ∈ fst <$> knl_temporary_variables kernel))
                 (tv_name <$> host_constants)).

(** [lp.GlobalArg(t, shape=v.shape, dtype=v.dtype, ...)] *)
Definition global_arg_of (item : string * TemporaryVariable) : KernelArgument :=
  mkArg GlobalArg (fst item) (tv_dtype (snd item)) (DInt <$> tv_shape (snd item)).

Definition _migrate_host_constants (kernel : LoopKernel)
    (host_constants : list TemporaryVariable) : LoopKernel :=
  let transferred := transferred kernel host_constants in
  if bool_decide (transferred <> ∅)
  then
    let new_temps :=
      List.filter (fun item => negb (bool_decide (fst item ∈ transferred)))
                  (knl_temporary_variables kernel) in
    let new_args :=
      global_arg_of
        <$> List.filter (fun item => bool_decide (fst item ∈ transferred))
                        (knl_temporary_variables kernel) in
    mkKernel (knl_name kernel) (knl_args kernel ++ new_args) new_temps
             (knl_written_variables kernel)
  else kernel.

(** ** Vector width: the [vec_width] property and [_merge_kernels] *)

(** Lines 445-453. *)
Definition vec_width (self : kernel_generator) : Z :=
  if truthy (opt_depth (gen_loopy_opts self))
  then default 0 (opt_depth (gen_loopy_opts self))
  else if truthy (opt_width (gen_loopy_opts self))
       then default 0 (opt_width (gen_loopy_opts self))
       else 0.

(** Lines 1727-1732 of [_merge_kernels]: the vector width handed to the
    wrapper kernel. *)
Definition merged_vec_width (self : kernel_generator) : option Z :=
  let vec_width0 := opt_depth (gen_loopy_opts self) in
  let vec_width1 :=
    if negb (truthy vec_width0) then opt_width (gen_loopy_opts self) else vec_width0 in
  if negb (bool_decide (vec_width self <> 0)) then Some 0 else vec_width1.

(** ** Loop domains: [get_inames] *)

(** [test_size]: the integer size of the test data, or the name of a
    size variable. *)
Inductive test_size_t :=
| SizeInt (n : Z)
| SizeName (s : string).

(** The text ['0 <= {} < {}'.format(iname, size)], kept as its two
    operands. *)
Record iname_domain := mkDomain {
  dom_iname : string;
  dom_size : test_size_t
}.

(** Lines 544-564.  [for_testing] is the attribute [self.for_testing] and
    [global_ind] the name imported from [pyjac.core.array_creator]. *)
Definition get_inames (self : kernel_generator) (for_testing : bool)
    (global_ind : string) (test_size : test_size_t)
  : list string * list iname_domain :=
  let fake_split :=
    negb for_testing && bool_decide (vec_width self <> 0)
    && truthy (opt_width (gen_loopy_opts self)) in
  let gind := global_ind in
  let test_size := if negb for_testing then SizeName w_size_name else test_size in
  let gind := if fake_split then gind +:+ "_outer" else gind in
  let inames := [gind] in
  let domains := [mkDomain gind test_size] in
  if fake_split
  then
    let inames := inames ++ [global_ind +:+ "_inner"] in
    (inames,
     domains ++ [mkDomain (default "" (last inames)) (SizeInt (vec_width self))])
  else (inames, domains).

(** ** Lists without repetition: [make_kernel] and [_set_sort] *)

(** Lines 2084-2087 of [make_kernel]: each entry once, where it is first
    met. *)
Definition dedup_kernel_data `{EqDecision A} (data : list A) : list A :=
  foldl (fun kernel_data k =>
           if bool_decide (k ∈ kernel_data) then kernel_data else kernel_data ++ [k])
        [] data.

(** [arr.index(x)], for an [x] of [arr]. *)
Definition index_of (x : string) (arr : list string) : nat :=
  default 0%nat (fst <$> list_find (fun y => y = x) arr).

(** Line 831: [sorted(set(arr), key=lambda x: arr.index(x))]. *)
Definition _set_sort (arr : list string) : list string :=
  Py.sorted (fun x y => bool_decide (index_of x arr <= index_of y arr)%nat)
            (elements (list_to_set (C := gset string) arr)).

(** ** Fake calls: [FakeCall.match] *)

(** Lines 74-81, on the name of the kernel to replace in, the name of the
    kernel at hand and the instructions. *)
Definition FakeCall_match (replace_in_name kernel_name insns : string)
    (for_driver : bool) : bool :=
  if for_driver
  then Py.contains kernel_name insns && Py.contains replace_in_name insns
  else Py.contains kernel_name replace_in_name.

(** ** The working buffer of a driver: [_merge_kernels] *)

(** [s.endswith(suffix)] *)
Definition endswith (s suffix : string) : bool :=
  String.prefix (String.rev suffix) (String.rev s).

(** Lines 1627-1631: the arguments of the driver kernel, with the entries
    of [kernel_data] it does not have yet. *)
Definition with_kernel_data (kernel_data : list KernelArgument) (kernel : LoopKernel)
  : LoopKernel :=
  mkKernel (knl_name kernel)
           (foldl (fun kargs arg =>
                     if bool_decide (arg ∈ kargs) then kargs else kargs ++ [arg])
                  (knl_args kernel) kernel_data)
           (knl_temporary_variables kernel) (knl_written_variables kernel).

(** Lines 1625-1632: the first kernel whose name ends in [driver] gets the
    working buffer; the loop stops there. *)
Fixpoint add_working_buffer (kernel_data : list KernelArgument)
    (kernels : list LoopKernel) : list LoopKernel :=
  match kernels with
  | [] => []
  | kernel :: kernels' =>
      if endswith (knl_name kernel) "driver"
      then with_kernel_data kernel_data kernel :: kernels'
      else kernel :: add_working_buffer kernel_data kernels'
  end.

(** ** Notions used in the statements, continued *)

(** The temporaries of a kernel are kept under their own names. *)
Definition well_keyed (knl : LoopKernel) : Prop :=
  Forall (fun item => fst item = tv_name (snd item)) (knl_temporary_variables knl).

(** The kernel has no temporary in local memory. *)
Definition no_local_temporaries (knl : LoopKernel) : Prop :=
  Forall (fun t => tv_scope t <> LOCAL) (temporaries knl).

(** The local temporaries of a kernel, as line 1273 collects them. *)
Definition local_temporaries (knl : LoopKernel) : list TemporaryVariable :=
  List.filter (fun x => bool_decide (tv_scope x = LOCAL)) (temporaries knl).

(** The kernel as lines 1274-1277 leave it: its local temporaries, if it
    has any, are migrated to its arguments. *)
Definition hoisted (knl : LoopKernel) : LoopKernel :=
  match local_temporaries knl with
  | [] => knl
  | ldecls =>
      mkKernel (knl_name knl) (knl_args knl ++ (__argify <$> ldecls))
               (List.filter
                  (fun kv => negb (bool_decide (fst kv ∈ tv_name <$> ldecls)))
                  (knl_temporary_variables knl))
               (knl_written_variables knl)
  end.

(** The barrier statements to put before instruction [i]. *)
Definition barriers_before (line_end : string) (barriers : list (Z * Z * string))
    (i : Z) : list string :=
  barriers ≫= fun barrier =>
    if decide (snd (fst barrier) = i)
    then match barrier_templates (snd barrier) with
         | Some template => [template +:+ line_end]
         | None => []
         end
    else [].

(** The instructions with the barrier statements in front of the
    instructions they name. *)
Definition with_barriers_before (line_end : string) (barriers : list (Z * Z * string))
    (instructions : list string) : list string :=
  Py.enumerate instructions ≫= fun inst =>
    barriers_before line_end barriers (fst inst) ++ [snd inst].

(** An enumerated instruction with the barrier statements of [done] in
    front of it, as the loop of lines 2668-2676 holds them: a barrier
    statement has the index [-1]. *)
Definition tagged_barriers_before (line_end : string)
    (done : list (Z * Z * string)) (inst : Z * string) : list (Z * string) :=
  ((fun text => (-1, text)) <$> barriers_before line_end done (fst inst)) ++ [inst].

(** A barrier between two instructions that follow each other, of a known
    kind. *)
Definition well_placed (n : nat) (barrier : Z * Z * string) : Prop :=
  1 <= snd (fst barrier) < Z.of_nat n
  /\ fst (fst barrier) = snd (fst barrier) - 1
  /\ is_Some (barrier_templates (snd barrier)).

(** Whether every transformation of a traced kernel is on an iname that
    exists: one of [inames], or the outer or inner part of an earlier
    split. *)
Fixpoint well_scoped (inames : list string) (knl : Samples.traced) : bool :=
  match knl with
  | [] => true
  | Samples.TagInames iname _ :: knl' =>
      bool_decide (iname ∈ inames) && well_scoped inames knl'
  | Samples.SplitIname iname _ _ :: knl' =>
      bool_decide (iname ∈ inames)
      && well_scoped (inames ++ [iname +:+ "_outer"; iname +:+ "_inner"]) knl'
  | _ :: knl' => well_scoped inames knl'
  end.

(** The iname tags a traced kernel carries: a tag set by [tag_inames], or
    the tag of the inner iname of a split. *)
Definition tags_of (knl : Samples.traced) : gmap string string :=
  foldl (fun tags step =>
           match step with
           | Samples.TagInames iname tag => <[iname := tag]> tags
           | Samples.SplitIname iname _ tag => <[iname +:+ "_inner" := tag]> tags
           | _ => tags
           end) ∅ knl.

(** ** More generators, kernels and arrays *)

(** The call works on the kernels of the generator: [kernels] is the list
    [self.kernels], or an empty list, which line 1177 replaces by the copy
    [self.kernels[:]]. *)
Definition own_kernels (kernels : kernels_ref) : Prop :=
  kernels = SelfKernels \/ kernels = ListObject [].

Module MoreSamples.

(** The local temporary of [Samples.uses_scratch] with another size, and
    a kernel that holds it. *)
Definition scratch16 : TemporaryVariable :=
  mkTemp "scratch" (NumpyType float64) [16] LOCAL false.
Definition resizes_scratch : LoopKernel :=
  mkKernel "resizes_scratch" [Samples.phi] [("scratch", scratch16)] ["phi"].

(** A generator of kernels that disagree on a local temporary. *)
Definition two_scratches : kernel_generator :=
  Samples.generator opencl_kernel_generator [Samples.uses_scratch; resizes_scratch] [].

(** Wide vectorization of width 8 with unrolling, and a generator with
    these options. *)
Definition wide : loopy_options :=
  mkOpts None (Some 8) false (Some 2) false None "opencl".
Definition wide_generator : kernel_generator :=
  mkGen opencl_kernel_generator (kernel_type "jacobian") wide [] [] [] [].

(** Depth and width both set. *)
Definition both : loopy_options :=
  mkOpts (Some 4) (Some 8) false None false None "opencl".
Definition both_generator : kernel_generator :=
  mkGen opencl_kernel_generator (kernel_type "jacobian") both [] [] [] [].

(** Two driver kernels. *)
Definition jacobian_driver : LoopKernel :=
  mkKernel "jacobian_driver" [Samples.phi] [] [].
Definition species_rates_driver : LoopKernel :=
  mkKernel "species_rates_driver" [] [] [].

(** A kernel of the generator that reads [k] and [x]. *)
Definition reads_k_x : LoopKernel :=
  mkKernel "reads_k_x" [Samples.k; Samples.x] [] [].

(** A constant array of [2 ^ 32] by [2 ^ 32] elements, and limits that are
    met as soon as one array is promoted. *)
Definition big : TemporaryVariable :=
  mkTemp "big" (NumpyType float64) [4294967296; 4294967296] GLOBAL true.
Definition one_promotion : memory_limits :=
  mkLimits (fun type_changes => [bool_decide (type_changes <> [])]).


(** A value argument, and two kernels that declare the same arguments and
    the same constant arrays in different orders. *)
Definition problem_size : KernelArgument :=
  mkArg ValueArg "problem_size" (NumpyType int32) [].
Definition tabulated : LoopKernel :=
  mkKernel "tabulated" [Samples.phi; problem_size; Samples.k]
           [("b", Samples.c6); ("a", Samples.c4)] ["phi"].
Definition tabulated_reordered : LoopKernel :=
  mkKernel "tabulated" [Samples.k; problem_size; Samples.phi]
           [("a", Samples.c4); ("b", Samples.c6)] ["phi"].

End MoreSamples.

(** * Properties *)

(** ** Sorting *)

Section Sorting.

Context {A : Type} (le : A -> A -> bool).

Lemma insert_sorted_perm x l : Py.insert_sorted le x l ≡ₚ x :: l.
Proof.
  induction l as [|y l IH]; simpl; [done|].
  destruct (le x y); [done|].
  rewrite IH. apply Permutation_swap.
Qed.

Lemma sorted_perm l : Py.sorted le l ≡ₚ l.
Proof.
  induction l as [|x l IH]; simpl; [done|].
  unfold Py.sorted in IH. rewrite insert_sorted_perm. by rewrite IH.
Qed.

Lemma elem_of_sorted x l : x ∈ Py.sorted le l ↔ x ∈ l.
Proof. by rewrite sorted_perm. Qed.

Hypothesis le_total : forall x y, le x y = true \/ le y x = true.
Hypothesis le_trans : forall x y z, le x y = true -> le y z = true -> le x z = true.

Lemma insert_sorted_StronglySorted x l :
  StronglySorted (fun a b => le a b = true) l ->
  StronglySorted (fun a b => le a b = true) (Py.insert_sorted le x l).
Proof.
  induction 1 as [|y l Hl IH Hy]; simpl.
  - repeat constructor.
  - destruct (le x y) eqn:Hxy.
    + constructor; [by constructor|].
      constructor; [done|].
      eapply Forall_impl; [exact Hy|]. intros z Hz. by eapply le_trans.
    + constructor; [done|].
      rewrite insert_sorted_perm. constructor; [|done].
      destruct (le_total x y) as [H|H]; congruence.
Qed.

Lemma sorted_StronglySorted l :
  StronglySorted (fun a b => le a b = true) (Py.sorted le l).
Proof.
  induction l as [|x l IH]; simpl; [constructor|].
  by apply insert_sorted_StronglySorted.
Qed.

End Sorting.

Lemma StronglySorted_impl {A} (R1 R2 : A -> A -> Prop) (l : list A) :
  (forall x y, R1 x y -> R2 x y) -> StronglySorted R1 l -> StronglySorted R2 l.
Proof.
  intros HR. induction 1 as [|x l Hl IH Hx]; constructor; [done|].
  eapply Forall_impl; [exact Hx|]. intros y. apply HR.
Qed.

Lemma leb_trans (a b c : string) :
  String.leb a b = true -> String.leb b c = true -> String.leb a c = true.
Proof.
  unfold String.leb.
  destruct (String.compare a b) eqn:Hab; destruct (String.compare b c) eqn:Hbc;
    try discriminate; intros _ _.
  - apply String_as_OT.cmp_eq in Hab, Hbc. subst.
    assert (String.compare c c = Eq) as -> by (now apply String_as_OT.cmp_eq). done.
  - apply String_as_OT.cmp_eq in Hab. subst. now rewrite Hbc.
  - apply String_as_OT.cmp_eq in Hbc. subst. now rewrite Hab.
  - apply String_as_OT.cmp_lt in Hab, Hbc.
    pose proof (String_as_OT.lt_trans _ _ _ Hab Hbc) as H.
    apply String_as_OT.cmp_lt in H. unfold String_as_OT.cmp in H. now rewrite H.
Qed.

Lemma leb_neq_ltb (a b : string) :
  String.leb a b = true -> a <> b -> String.ltb a b = true.
Proof.
  unfold String.leb, String.ltb. intros Hle Hne.
  destruct (String.compare a b) eqn:E; try done.
  apply String_as_OT.cmp_eq in E. done.
Qed.

Lemma name_lt_irrefl a : ~ name_lt a a.
Proof.
  unfold name_lt, String.ltb.
  assert (String.compare a a = Eq) as -> by (now apply String_as_OT.cmp_eq). done.
Qed.

Lemma StronglySorted_strict (l : list string) :
  StronglySorted (fun a b => String.leb a b = true) l -> NoDup l ->
  StronglySorted name_lt l.
Proof.
  induction 1 as [|x l Hl IH Hx]; intros Hnd; [constructor|].
  apply NoDup_cons in Hnd as [Hx' Hnd].
  constructor; [auto|].
  apply Forall_forall. intros y Hy.
  apply leb_neq_ltb.
  - rewrite Forall_forall in Hx. by apply Hx.
  - intros ->. done.
Qed.

Lemma sorted_set_sorted names : StronglySorted name_lt (Py.sorted_set names).
Proof.
  apply StronglySorted_strict.
  - apply sorted_StronglySorted; [apply String.leb_total|apply leb_trans].
  - unfold Py.sorted_set. rewrite sorted_perm. apply NoDup_elements.
Qed.

Lemma elem_of_sorted_set x names : x ∈ Py.sorted_set names ↔ x ∈ names.
Proof.
  unfold Py.sorted_set. rewrite elem_of_sorted, elem_of_elements.
  by rewrite elem_of_list_to_set.
Qed.

Lemma sorted_set_ext names1 names2 :
  (forall x, x ∈ names1 ↔ x ∈ names2) -> Py.sorted_set names1 = Py.sorted_set names2.
Proof.
  intros H. unfold Py.sorted_set. f_equal. f_equal.
  apply set_eq. intros x. rewrite !elem_of_list_to_set. apply H.
Qed.

(** ** Greedy promotion *)

Lemma promotion_candidates_sorted constants :
  StronglySorted (fun x y => array_size y <= array_size x)
                 (promotion_candidates constants).
Proof.
  unfold promotion_candidates, Py.sorted_by_key_desc.
  eapply StronglySorted_impl;
    [|apply sorted_StronglySorted
        with (le := fun x y => bool_decide (np_prod (tv_shape y) <= np_prod (tv_shape x)))].
  - intros x y H. apply bool_decide_eq_true in H. exact H.
  - intros x y. rewrite !bool_decide_eq_true. lia.
  - intros x y z. rewrite !bool_decide_eq_true. lia.
Qed.

Lemma elem_of_promotion_candidates x constants :
  x ∈ promotion_candidates constants ↔ x ∈ constants /\ promotable x = true.
Proof.
  unfold promotion_candidates, Py.sorted_by_key_desc.
  rewrite elem_of_sorted, list_elem_of_In, filter_In, <- list_elem_of_In. tauto.
Qed.

(** The loop takes candidates from the front of [gtemps], in order. *)
Lemma promote_prefix self mem_limits gtemps : forall type_changes out,
  promote self mem_limits type_changes gtemps = Ok out ->
  exists taken rest, out = type_changes ++ taken /\ gtemps = taken ++ rest.
Proof.
  induction gtemps as [|g gtemps IH]; intros tc out; simpl.
  - destruct (py_all _).
    + intros [= <-]. exists [], []. by rewrite app_nil_r.
    + destruct (name self); discriminate.
  - destruct (py_all _).
    + intros [= <-]. exists [], (g :: gtemps). by rewrite app_nil_r.
    + intros H. apply IH in H as (taken & rest & -> & ->).
      exists (g :: taken), rest. by rewrite <- app_assoc.
Qed.

(** The loop stops at the first state that fits. *)
Lemma promote_fits self mem_limits gtemps : forall type_changes out,
  promote self mem_limits type_changes gtemps = Ok out ->
  py_all (can_fit mem_limits out) = true.
Proof.
  induction gtemps as [|g gtemps IH]; intros tc out; simpl.
  - destruct (py_all _) eqn:E.
    + by intros [= <-].
    + destruct (name self); discriminate.
  - destruct (py_all _) eqn:E.
    + by intros [= <-].
    + apply IH.
Qed.

(** When the loop raises, the pool is used up and nothing fitted. *)
Lemma promote_raises self mem_limits gtemps : forall type_changes e,
  promote self mem_limits type_changes gtemps = Raise e ->
  py_all (can_fit mem_limits (type_changes ++ gtemps)) = false
  /\ match gen_kernel_type self with
     | dummy => e = RecursionError
     | kernel_type n => e = CannotFitInMemory n
     end.
Proof.
  induction gtemps as [|g gtemps IH]; intros tc e; simpl.
  - rewrite app_nil_r. destruct (py_all _) eqn:E; [discriminate|].
    unfold name. destruct (gen_kernel_type self); simpl; intros [= <-]; done.
  - destruct (py_all _) eqn:E; [discriminate|].
    intros H. apply IH in H. by rewrite <- app_assoc in H.
Qed.

Lemma greedy_promotion_prefix self mem_limits constants type_changes :
  greedy_promotion self mem_limits constants = Ok type_changes ->
  exists first taken rest,
    type_changes = first :: taken
    /\ promotion_candidates constants = type_changes ++ rest.
Proof.
  unfold greedy_promotion.
  destruct (promotion_candidates constants) as [|g gtemps] eqn:E; [discriminate|].
  intros H. apply promote_prefix in H as (taken & rest & -> & ->).
  by exists g, taken, rest.
Qed.

Lemma StronglySorted_impl_in {A} (R1 R2 : A -> A -> Prop) (l : list A) :
  (forall x y, x ∈ l -> y ∈ l -> R1 x y -> R2 x y) ->
  StronglySorted R1 l -> StronglySorted R2 l.
Proof.
  intros Himpl Hs. induction Hs as [|x l _ IH Hall]; constructor.
  - apply IH. intros a b Ha Hb. apply Himpl; by right.
  - rewrite Forall_forall in Hall. apply Forall_forall. intros y Hy.
    apply Himpl; [by left|by right|by apply Hall].
Qed.

(** A product that a 64-bit integer holds is not changed by numpy. *)
Lemma element_count_nonneg shape : Forall (fun d => 0 <= d) shape -> 0 <= element_count shape.
Proof.
  induction 1 as [|d shape Hd _ IH]; simpl; [lia|]. by apply Z.mul_nonneg_nonneg.
Qed.

Lemma np_prod_countable shape : countable shape -> np_prod shape = element_count shape.
Proof.
  intros [Hdims Hcount]. pose proof (element_count_nonneg shape Hdims) as Hpos.
  unfold np_prod, wrap_int64. fold (element_count shape).
  rewrite Z.mod_small by lia. lia.
Qed.

(** C4: whenever greedy promotion selects arrays, they are the first
    candidates of the list sorted by descending element count: the
    candidates and the selection are in descending order of element count,
    the first array promoted is at least as large as every eligible
    constant, and no selected array has [sparse_jac] in its name, whatever
    its size.  The element counts of the eligible constants are such that
    a 64-bit integer holds them, so that [np.prod] gives them. *)
Theorem promotion_prefers_largest self mem_limits constants type_changes :
  Forall (fun c => promotable c = true -> countable (tv_shape c)) constants ->
  greedy_promotion self mem_limits constants = Ok type_changes ->
  (exists rest, promotion_candidates constants = type_changes ++ rest)
  /\ StronglySorted
       (fun x y => element_count (tv_shape y) <= element_count (tv_shape x))
       (promotion_candidates constants)
  /\ StronglySorted
       (fun x y => element_count (tv_shape y) <= element_count (tv_shape x))
       type_changes
  /\ (exists first, head type_changes = Some first
        /\ forall c, c ∈ constants -> promotable c = true ->
                     element_count (tv_shape c) <= element_count (tv_shape first))
  /\ Forall (fun x => x ∈ constants
                      /\ Py.contains "sparse_jac" (tv_name x) = false) type_changes.
Proof.
  intros Hcount H.
  destruct (greedy_promotion_prefix _ _ _ _ H) as (first & taken & rest & Htc & Hcand).
  assert (forall c, c ∈ promotion_candidates constants ->
                    array_size c = element_count (tv_shape c)) as Hsize.
  { intros c Hc. apply elem_of_promotion_candidates in Hc as [Hc Hp].
    rewrite Forall_forall in Hcount. by apply np_prod_countable, Hcount. }
  assert (StronglySorted
            (fun x y => element_count (tv_shape y) <= element_count (tv_shape x))
            (promotion_candidates constants)) as Hsorted.
  { eapply StronglySorted_impl_in; [|apply promotion_candidates_sorted].
    intros x y Hx Hy Hxy. simpl. by rewrite <- (Hsize x Hx), <- (Hsize y Hy). }
  split; [by exists rest|]. split; [done|].
  rewrite Hcand in Hsorted.
  split; [by apply StronglySorted_app_1_l in Hsorted|].
  split.
  - exists first. rewrite Htc. split; [done|].
    intros c Hc Hp.
    assert (c ∈ promotion_candidates constants) as Hin
        by (by apply elem_of_promotion_candidates).
    rewrite Hcand in Hin. rewrite Htc in Hin, Hsorted. simpl in Hin, Hsorted.
    apply elem_of_cons in Hin as [->|Hin]; [lia|].
    apply StronglySorted_inv in Hsorted as [_ Hall].
    rewrite Forall_forall in Hall. by apply Hall.
  - apply Forall_forall. intros x Hx.
    assert (x ∈ promotion_candidates constants) as Hin.
    { rewrite Hcand. apply elem_of_app. by left. }
    apply elem_of_promotion_candidates in Hin as [Hin Hp].
    split; [done|]. unfold promotable in Hp. by apply negb_true_iff in Hp.
Qed.

Lemma promotion_prefers_largest_witness :
  greedy_promotion
    (Samples.generator opencl_kernel_generator [] [])
    (Samples.constant_budget 104 (Samples.generator opencl_kernel_generator [] [])
       (classify [] [] [Samples.c4; Samples.sparse; Samples.c6]))
    [Samples.c4; Samples.sparse; Samples.c6] = Ok [Samples.c6]
  /\ (exists rest,
        promotion_candidates [Samples.c4; Samples.sparse; Samples.c6]
        = [Samples.c6] ++ rest)
  /\ StronglySorted
       (fun x y => element_count (tv_shape y) <= element_count (tv_shape x))
       (promotion_candidates [Samples.c4; Samples.sparse; Samples.c6])
  /\ StronglySorted
       (fun x y => element_count (tv_shape y) <= element_count (tv_shape x))
       [Samples.c6]
  /\ (exists first, head [Samples.c6] = Some first
        /\ forall c, c ∈ [Samples.c4; Samples.sparse; Samples.c6] ->
                     promotable c = true ->
                     element_count (tv_shape c) <= element_count (tv_shape first))
  /\ Forall (fun x => x ∈ [Samples.c4; Samples.sparse; Samples.c6]
                      /\ Py.contains "sparse_jac" (tv_name x) = false) [Samples.c6].
Proof.
  split; [vm_compute; reflexivity|].
  apply (promotion_prefers_largest
           (Samples.generator opencl_kernel_generator [] [])
           (Samples.constant_budget 104 (Samples.generator opencl_kernel_generator [] [])
              (classify [] [] [Samples.c4; Samples.sparse; Samples.c6]))
           [Samples.c4; Samples.sparse; Samples.c6] [Samples.c6]).
  - repeat constructor; try (intros H; vm_compute in H; discriminate H);
      vm_compute; congruence.
  - vm_compute; reflexivity.
Defined.

(** The product of the shape wraps around for an array of [2 ^ 64]
    elements: [np.prod] gives 0 for it, the array sorts last, and the
    array of 4 elements is promoted in its place. *)
Lemma promotion_order_wraps_around :
  greedy_promotion (Samples.generator opencl_kernel_generator [] [])
                   MoreSamples.one_promotion [Samples.c4; MoreSamples.big]
  = Ok [Samples.c4]
  /\ promotion_candidates [Samples.c4; MoreSamples.big] = [Samples.c4; MoreSamples.big]
  /\ promotable MoreSamples.big = true
  /\ array_size MoreSamples.big = 0
  /\ element_count (tv_shape Samples.c4) < element_count (tv_shape MoreSamples.big).
Proof. repeat split; vm_compute; reflexivity. Qed.

(** ** [_process_memory] *)

Lemma change_types_raises todo st :
  todo <> [] -> change_types todo st = Raise TypeError.
Proof. destruct todo; [done|]. reflexivity. Qed.

(** C1: when the initial check fails and greedy promotion selects arrays,
    [_process_memory] returns nothing: updating the read-only names
    subscripts the set [readonly], which raises [TypeError] for the first
    promoted array. *)
Theorem promotion_raises_type_error get_limits self args readonly local constants
    type_changes :
  py_all (can_fit (get_limits self (classify args local constants)) []) = false ->
  greedy_promotion self (get_limits self (classify args local constants)) constants
    = Ok type_changes ->
  _process_memory get_limits self args readonly local constants = Raise TypeError.
Proof.
  intros Hfit Hpromote. unfold _process_memory.
  rewrite Hfit. simpl. rewrite Hpromote. simpl.
  destruct (greedy_promotion_prefix _ _ _ _ Hpromote) as (first & taken & rest & -> & _).
  reflexivity.
Qed.

Lemma promotion_raises_type_error_witness :
  _process_memory (Samples.constant_budget 6)
    (Samples.generator opencl_kernel_generator [] []) [] ∅ []
    [Samples.c4; Samples.c6] = Raise TypeError.
Proof.
  apply (promotion_raises_type_error (Samples.constant_budget 6)
           (Samples.generator opencl_kernel_generator [] []) [] ∅ []
           [Samples.c4; Samples.c6] [Samples.c6]).
  - vm_compute; reflexivity.
  - vm_compute; reflexivity.
Defined.

(** C5: with no eligible candidate, a kernel that does not fit makes
    [_process_memory] raise [IndexError] at [gtemps[0]], before the loop that
    reports the kernel that cannot fit. *)
Theorem empty_pool_raises_index_error get_limits self args readonly local constants :
  py_all (can_fit (get_limits self (classify args local constants)) []) = false ->
  promotion_candidates constants = [] ->
  _process_memory get_limits self args readonly local constants = Raise IndexError.
Proof.
  intros Hfit Hpool. unfold _process_memory, greedy_promotion.
  rewrite Hfit, Hpool. reflexivity.
Qed.

Lemma empty_pool_raises_index_error_witness :
  _process_memory (Samples.constant_budget 6)
    (Samples.generator opencl_kernel_generator [] []) [] ∅ []
    [Samples.sparse] = Raise IndexError.
Proof.
  apply (empty_pool_raises_index_error (Samples.constant_budget 6)
           (Samples.generator opencl_kernel_generator [] []) [] ∅ []
           [Samples.sparse]).
  - vm_compute; reflexivity.
  - vm_compute; reflexivity.
Defined.

(** With at least one candidate, the number of promotions is bounded by the
    number of candidates; when the pool runs out, the error names the
    kernel. *)
Lemma greedy_promotion_bounded self mem_limits constants type_changes :
  greedy_promotion self mem_limits constants = Ok type_changes ->
  (length type_changes <= length (promotion_candidates constants))%nat
  /\ py_all (can_fit mem_limits type_changes) = true.
Proof.
  intros H. split.
  - destruct (greedy_promotion_prefix _ _ _ _ H) as (first & taken & rest & _ & ->).
    rewrite length_app. lia.
  - unfold greedy_promotion in H.
    destruct (promotion_candidates constants); [discriminate|].
    by eapply promote_fits.
Qed.

Lemma greedy_promotion_exhausted self mem_limits constants n e :
  gen_kernel_type self = kernel_type n ->
  promotion_candidates constants <> [] ->
  greedy_promotion self mem_limits constants = Raise e ->
  e = CannotFitInMemory n
  /\ py_all (can_fit mem_limits (promotion_candidates constants)) = false.
Proof.
  intros Hn Hne. unfold greedy_promotion.
  destruct (promotion_candidates constants) as [|g gtemps]; [done|].
  intros H. apply promote_raises in H as [Hfit He].
  rewrite Hn in He. done.
Qed.

(** Constants of 4 and 6 elements against a budget of 6: the array of 6
    elements is selected first, and alone. *)
Example largest_candidate_first :
  greedy_promotion (Samples.generator opencl_kernel_generator [] [])
    (Samples.constant_budget 6 (Samples.generator opencl_kernel_generator [] [])
       (classify [] [] [Samples.c4; Samples.c6]))
    [Samples.c4; Samples.c6] = Ok [Samples.c6].
Proof. vm_compute. reflexivity. Qed.

(** A pool that runs out names the kernel; a generator of kernel type
    [dummy] fails in its [name] property instead. *)
Example pool_runs_out :
  greedy_promotion (Samples.generator opencl_kernel_generator [] [])
    (Samples.constant_budget 0 (Samples.generator opencl_kernel_generator [] [])
       (classify [] [] [Samples.c4; Samples.sparse]))
    [Samples.c4; Samples.sparse] = Raise (CannotFitInMemory "jacobian").
Proof. vm_compute. reflexivity. Qed.

Example pool_runs_out_dummy :
  greedy_promotion
    (mkGen opencl_kernel_generator dummy Samples.opts [] [] [] [])
    (mkLimits (fun _ => [false])) [Samples.c4] = Raise RecursionError.
Proof. vm_compute. reflexivity. Qed.

(** ** Working buffer *)







(** ** Barriers *)

Lemma filter_Forall {A} (P : A -> Prop) `{forall x, Decision (P x)} (l : list A) :
  Forall P l -> filter P l = l.
Proof.
  induction 1 as [|x l Hx Hl IH]; [done|].
  by rewrite filter_cons_True, IH.
Qed.

(** An entry [(i, text)] of the enumerated instructions with [i <> -1] is
    an instruction, not an inserted barrier. *)
Lemma filter_insert_barrier (index : nat) (text : string) (l : list (Z * string)) :
  filter (fun inst : Z * string => fst inst <> -1) (Py.insert_at index (-1, text) l) = filter (fun inst : Z * string => fst inst <> -1) l.
Proof.
  unfold Py.insert_at. rewrite filter_app, filter_cons_False by (simpl; auto).
  by rewrite <- filter_app, take_drop.
Qed.

Lemma length_insert_at {A} (i : nat) (x : A) (l : list A) :
  length (Py.insert_at i x l) = S (length l).
Proof.
  unfold Py.insert_at. rewrite length_app. simpl.
  rewrite Nat.add_succ_r, <- length_app, take_drop. done.
Qed.

(** Every insertion adds one barrier entry and moves no instruction. *)
Lemma insert_barriers_keeps line_end barriers : forall instructions out,
  insert_barriers line_end barriers instructions = Ok out ->
  filter (fun inst : Z * string => fst inst <> -1) out = filter (fun inst : Z * string => fst inst <> -1) instructions
  /\ length out = (length instructions + length barriers)%nat.
Proof.
  induction barriers as [|[[b0 b1] b2] barriers IH]; intros instructions out; simpl.
  - intros [= <-]. split; [done|lia].
  - destruct (list_find _ instructions) as [[index inst]|]; [|discriminate].
    destruct (Py.getitem _ _) as [before|]; [|discriminate].
    destruct (bool_decide _); [|discriminate].
    destruct (barrier_templates b2) as [template|]; [|discriminate].
    intros H. apply IH in H as [Hfilter Hlen].
    rewrite filter_insert_barrier in Hfilter. rewrite length_insert_at in Hlen.
    split; [done|lia].
Qed.

Lemma enumerate_from_original {A} (l : list A) : forall i,
  0 <= i -> Forall (fun inst : Z * A => fst inst <> -1) (Py.enumerate_from i l).
Proof.
  induction l as [|x l IH]; intros i Hi; simpl; constructor.
  - simpl. lia.
  - apply IH. lia.
Qed.

Lemma snd_enumerate_from {A} (l : list A) : forall i,
  snd <$> Py.enumerate_from i l = l.
Proof. induction l as [|x l IH]; intros i; simpl; [done|]. by rewrite IH. Qed.

(** When barrier insertion returns, the instructions are all there, in
    their order, with one more entry per barrier. *)
Lemma apply_barriers_keeps_instructions line_end self instructions out :
  gen_class self = opencl_kernel_generator ->
  apply_barriers line_end self instructions = Ok out ->
  exists tagged,
    out = snd <$> tagged
    /\ snd <$> filter (fun inst : Z * string => fst inst <> -1) tagged = instructions
    /\ length out = (length instructions + length (gen_barriers self))%nat.
Proof.
  unfold apply_barriers. intros ->.
  destruct (insert_barriers _ _ _) as [tagged|] eqn:E; [|discriminate].
  simpl. intros [= <-]. exists tagged.
  apply insert_barriers_keeps in E as [Hfilter Hlen].
  split; [done|]. split.
  - rewrite Hfilter. unfold Py.enumerate.
    rewrite filter_Forall by (apply enumerate_from_original; lia).
    apply snd_enumerate_from.
  - rewrite length_fmap, Hlen. unfold Py.enumerate.
    by rewrite <- (length_fmap snd), snd_enumerate_from.
Qed.

(** C7: a barrier between kernel 1 and kernel 0 is accepted although the
    call of kernel 0 is the first instruction and nothing precedes it: the
    check reads [instructions[-1]], the last instruction, which is the
    call of kernel 1. *)
Theorem barrier_check_wraps_around :
  apply_barriers ";" (Samples.with_barriers [(1, 0, "global")]) ["a();"; "b();"]
  = Ok ["barrier(CLK_GLOBAL_MEM_FENCE);"; "a();"; "b();"].
Proof. vm_compute. reflexivity. Qed.

(** Between two adjacent calls in order, the barrier goes in between; a
    second barrier at the same place fails the assertion. *)
Example barrier_between :
  apply_barriers ";" (Samples.with_barriers [(0, 1, "global")]) ["a();"; "b();"]
  = Ok ["a();"; "barrier(CLK_GLOBAL_MEM_FENCE);"; "b();"].
Proof. vm_compute. reflexivity. Qed.

Example barrier_out_of_order :
  apply_barriers ";" (Samples.with_barriers [(0, 2, "global")]) ["a();"; "b();"; "c();"]
  = Raise AssertionError.
Proof. vm_compute. reflexivity. Qed.

(** ** Specialization *)

Section SpecializationFacts.

Variable Knl : Type.
Variable tag_inames : Knl -> string -> string -> Knl.
Variable split_iname : Knl -> string -> option Z -> string -> Knl.
Variable fix_vec_width : Knl -> option Z -> Knl.
Variable can_vectorize_lang : string -> bool.
Variable global_ind : string.

(** C8, as the code has it: a kernel that cannot be vectorized and comes
    without a fix-up function fails the assertion, in every mode, before
    any transformation; with a fix-up function and the specialization
    applied, the function is run on the kernel in place of the
    vectorization split; in a dry run the function is not run and the
    tags returned hold no split. *)
Theorem unvectorizable_kernel_needs_fixup loopy_opts inner_ind knl for_testing :
  (forall get_specialization,
      apply_specialization Knl tag_inames split_iname fix_vec_width
        can_vectorize_lang global_ind
        loopy_opts inner_ind knl for_testing None false get_specialization
      = Raise AssertionError)
  /\ (forall vecspec,
        apply_specialization Knl tag_inames split_iname fix_vec_width
        can_vectorize_lang global_ind
        loopy_opts inner_ind knl for_testing (Some vecspec) false false
        = Ok (Kernel
                (finish Knl tag_inames split_iname fix_vec_width loopy_opts inner_ind
                   (vecspec
                      (tag_global Knl tag_inames can_vectorize_lang global_ind
                                  loopy_opts knl)))))
  /\ (forall vecspec,
        apply_specialization Knl tag_inames split_iname fix_vec_width
        can_vectorize_lang global_ind
        loopy_opts inner_ind knl for_testing (Some vecspec) false true
        = Ok (Specialization
                (dry_tags can_vectorize_lang global_ind loopy_opts inner_ind))).
Proof.
  unfold apply_specialization, finish, tag_global, dry_tags,
    vec_width_of, i_tag_of, j_tag_of.
  split; [|split].
  - intros gs.
    destruct (truthy (opt_depth loopy_opts)), (truthy (opt_width loopy_opts));
      reflexivity.
  - intros vecspec.
    destruct (truthy (opt_depth loopy_opts)) eqn:Hd,
             (truthy (opt_width loopy_opts)) eqn:Hw;
      simpl; rewrite ?andb_false_r; simpl;
      destruct (can_vectorize_lang (opt_lang loopy_opts)),
               (opt_is_simd loopy_opts), (opt_unr loopy_opts),
               (opt_ilp loopy_opts);
      simpl; rewrite ?Hd, ?Hw; reflexivity.
  - intros vecspec.
    destruct (truthy (opt_depth loopy_opts)) eqn:Hd,
             (truthy (opt_width loopy_opts)) eqn:Hw;
      simpl; rewrite ?andb_false_r; simpl;
      destruct (can_vectorize_lang (opt_lang loopy_opts)),
               (opt_is_simd loopy_opts), (opt_unr loopy_opts),
               (opt_ilp loopy_opts);
      simpl; rewrite ?andb_false_r; reflexivity.
Qed.

End SpecializationFacts.

(** In a dry run of a kernel that cannot be vectorized, the fix-up
    function supplied is not run: no kernel comes back, only the tags. *)
Lemma dry_run_skips_fixup :
  Samples.specialize Samples.deep "i" [] false (Some Samples.fixup) false true
  = Ok (Specialization {[ "j" := "g.0" ]})
  /\ ~ (exists knl,
          Samples.specialize Samples.deep "i" [] false (Some Samples.fixup) false true
          = Ok (Kernel knl)
          /\ Samples.Fixup ∈ knl).
Proof.
  split; [reflexivity|].
  intros (knl & H & _). discriminate H.
Qed.

(** The same kernel with the specialization applied: the fix-up runs, and
    the kernel is not split for vectorization. *)
Example applied_run_runs_fixup :
  Samples.specialize Samples.deep "i" [] false (Some Samples.fixup) false false
  = Ok (Kernel [Samples.TagInames "j" "g.0"; Samples.Fixup;
                Samples.FixVecWidth (Some 4)]).
Proof. reflexivity. Qed.

Example vectorizable_kernel_is_split :
  Samples.specialize Samples.deep "i" [] false None true false
  = Ok (Kernel [Samples.SplitIname "i" (Some 4) "l.0"; Samples.TagInames "j" "g.0";
                Samples.FixVecWidth (Some 4)]).
Proof. reflexivity. Qed.

(** ** Argument resolution: the lists returned *)

Lemma alphabetical_filter {A} (f : A -> string) (p : A -> bool) (l : list A) :
  alphabetical (f <$> l) -> alphabetical (f <$> List.filter p l).
Proof.
  unfold alphabetical. induction l as [|x l IH]; simpl; [done|].
  intros H. apply StronglySorted_inv in H as [Hl Hx].
  destruct (p x); [|auto].
  rewrite fmap_cons. constructor; [auto|].
  rewrite Forall_fmap in *. rewrite Forall_forall in *.
  intros y Hy. apply Hx. apply list_elem_of_In in Hy.
  apply filter_In in Hy as [Hy _]. by apply list_elem_of_In.
Qed.

Lemma existsb_eq_elem_of (x : KernelArgument) l :
  existsb (fun y => bool_decide (x = y)) l = true <-> x ∈ l.
Proof.
  rewrite existsb_exists. split.
  - intros (y & Hy & Heq). apply bool_decide_eq_true in Heq. subst.
    by apply list_elem_of_In.
  - intros Hx. exists x. split; [by apply list_elem_of_In|by apply bool_decide_eq_true].
Qed.

Lemma collect_cons name same_name x args :
  collect name same_name (x :: args)
  = collect name (if decide (arg_name x = name /\ x ∉ same_name)
                  then same_name ++ [x] else same_name) args.
Proof.
  unfold collect. simpl. f_equal.
  destruct (decide _) as [[Hn Hx]|Hno].
  - rewrite bool_decide_eq_true_2 by done. simpl.
    destruct (existsb _ _) eqn:E; [|done].
    apply existsb_eq_elem_of in E. done.
  - destruct (bool_decide (arg_name x = name)) eqn:Hn; [|done]. simpl.
    destruct (existsb _ _) eqn:E; [done|].
    apply bool_decide_eq_true in Hn. exfalso. apply Hno. split; [done|].
    intros Hx. apply existsb_eq_elem_of in Hx. congruence.
Qed.

Lemma elem_of_collect name args : forall same_name x,
  x ∈ collect name same_name args
  <-> x ∈ same_name \/ (x ∈ args /\ arg_name x = name).
Proof.
  induction args as [|a args IH]; intros same_name x.
  - simpl. rewrite elem_of_nil. tauto.
  - rewrite collect_cons, IH, elem_of_cons. destruct (decide _) as [[Hn Ha]|Hno].
    + rewrite elem_of_app, list_elem_of_singleton. split.
      * intros [[?| ->]|[? ?]]; auto.
      * intros [?|[[ ->|?] ?]]; auto.
    + split; [tauto|]. intros [?|[[ ->|?] ?]]; auto.
      destruct (decide (a ∈ same_name)); [auto|]. exfalso. auto.
Qed.

Lemma NoDup_collect name args : forall same_name,
  NoDup same_name -> NoDup (collect name same_name args).
Proof.
  induction args as [|a args IH]; intros same_name Hnd; [done|].
  rewrite collect_cons. apply IH. destruct (decide _) as [[Hn Ha]|Hno]; [|done].
  apply NoDup_app. split; [done|]. split; [|apply NoDup_singleton].
  intros x Hx Hx'. apply list_elem_of_singleton in Hx'. by subst.
Qed.

Lemma elem_of_same_name_of name args x :
  x ∈ same_name_of name args <-> x ∈ args /\ arg_name x = name.
Proof.
  unfold same_name_of.
  rewrite elem_of_collect, elem_of_nil. tauto.
Qed.

Lemma NoDup_same_name_of name args : NoDup (same_name_of name args).
Proof.
  unfold same_name_of.
  apply NoDup_collect, NoDup_nil_2.
Qed.

Lemma pop_elem_of {A} (l : list A) x : pop l = Ok x -> x ∈ l.
Proof.
  unfold pop. destruct (last l) as [y|] eqn:E; [|discriminate].
  intros [= <-]. apply last_Some in E as [l' ->].
  apply elem_of_app. right. by apply list_elem_of_singleton.
Qed.

Lemma elem_of_remove_first `{EqDecision A} (x y : A) l :
  y ∈ remove_first x l -> y ∈ l.
Proof.
  induction l as [|z l IH]; simpl; [done|].
  destruct (decide (z = x)).
  - intros. by apply elem_of_cons; right.
  - rewrite !elem_of_cons. intros [->|H]; auto.
Qed.

Lemma resolve_same_name_subset self_kernels kernels same_name kernels' same_name' :
  resolve_same_name self_kernels kernels same_name = Ok (kernels', same_name') ->
  forall x, x ∈ same_name' -> x ∈ same_name.
Proof.
  unfold resolve_same_name.
  destruct (List.find _ same_name) as [atomic|]; [|discriminate].
  destruct (decide _); [discriminate|].
  destruct (List.find _ same_name) as [other|]; [|discriminate].
  destruct (negb _); [discriminate|].
  destruct (rewrite_kernels _ _ _ _) as [k|]; [|discriminate].
  simpl. intros [= <- <-] x. apply elem_of_remove_first.
Qed.

(** The canonical arguments carry the names of [nameset], in its order. *)
Lemma resolve_names_names alias self_kernels args nameset :
  forall kernels kernel_data kernels' kernel_data',
    resolve_names alias self_kernels args nameset kernels kernel_data
    = Ok (kernels', kernel_data') ->
    arg_name <$> kernel_data' = (arg_name <$> kernel_data) ++ nameset.
Proof.
  induction nameset as [|name nameset IH]; intros kernels kd kernels' kd'; simpl.
  - intros [= <- <-]. by rewrite app_nil_r.
  - destruct (decide _) as [Hlen|Hlen].
    + destruct (resolve_same_name _ _ _) as [[k sn]|] eqn:E; [|discriminate].
      simpl. destruct (pop sn) as [x|] eqn:Hpop; [|discriminate]. simpl.
      intros H. apply IH in H. rewrite H, fmap_app, <- app_assoc. simpl.
      apply pop_elem_of in Hpop.
      eapply resolve_same_name_subset in Hpop; [|exact E].
      apply elem_of_same_name_of in Hpop as [_ ->]. done.
    + simpl. destruct (pop _) as [x|] eqn:Hpop; [|discriminate]. simpl.
      intros H. apply IH in H. rewrite H, fmap_app, <- app_assoc. simpl.
      apply pop_elem_of in Hpop.
      apply elem_of_same_name_of in Hpop as [_ ->]. done.
Qed.

Lemma resolve_temps_names copy names : forall temps temps',
  resolve_temps copy names temps = Ok temps' ->
  tv_name <$> temps' = (tv_name <$> temps) ++ names.
Proof.
  induction names as [|name names IH]; intros temps temps'; simpl.
  - intros [= <-]. by rewrite app_nil_r.
  - destruct (List.filter _ copy) as [|first others] eqn:E; [discriminate|].
    destruct (_ && _); [discriminate|].
    intros H. apply IH in H. rewrite H, fmap_app, <- app_assoc. simpl.
    assert (In first (List.filter (fun x => bool_decide (tv_name x = name)) copy)) as Hin
        by (rewrite E; by left).
    apply filter_In in Hin as [_ Hin]. apply bool_decide_eq_true in Hin.
    by rewrite Hin.
Qed.

Lemma hoist_temps todo : forall local temps kernels' local' temps',
  hoist todo local temps = Ok (kernels', local', temps') ->
  alphabetical (tv_name <$> temps) -> alphabetical (tv_name <$> temps').
Proof.
  induction todo as [|knl todo IH]; intros local temps kernels' local' temps'; simpl.
  - by intros [= <- <- <-].
  - destruct (List.filter _ (temporaries knl)) as [|t ts].
    + destruct (hoist todo local temps) as [[[k l] t]|] eqn:E; [|discriminate].
      simpl. intros [= <- <- <-]. by eapply IH.
    + destruct (__migrate_locals _ _) as [knl'|]; [|discriminate]. simpl.
      destruct (hoist todo _ _) as [[[k l] t']|] eqn:E; [|discriminate].
      simpl. intros [= <- <- <-] Hs. eapply IH; [exact E|].
      by apply alphabetical_filter.
Qed.

(** ** Argument resolution: variants of one name *)

(** C2: the kernels are given in a list of their own, one with [k] and one
    with the atomic variant of [k].  The atomic variant becomes the one
    argument called [k], but the rewrite loop enumerates [self.kernels],
    where no kernel has [k]: the list given still holds the kernel that
    references the variant that is not atomic. *)
Theorem non_atomic_variant_is_left_behind :
  exists r,
    _process_args (Samples.generator c_kernel_generator [Samples.own] [])
                  (ListObject [Samples.reads_k; Samples.updates_k]) true = Ok r
    /\ r_args r = [Samples.k_atomic]
    /\ r_kernels r = [Samples.reads_k; Samples.updates_k]
    /\ Samples.k ∈ knl_args Samples.reads_k
    /\ Samples.k <> Samples.k_atomic.
Proof.
  eexists. split; [vm_compute; reflexivity|].
  simpl. repeat split; [set_solver|discriminate].
Qed.

(** The same with the defaults of the method: the kernel of a dependency
    keeps the variant that is not atomic. *)
Example dependency_keeps_non_atomic_variant :
  exists r,
    _process_args (Samples.generator c_kernel_generator
                     [Samples.updates_k] [[Samples.reads_k]])
                  (ListObject []) true = Ok r
    /\ r_args r = [Samples.k_atomic]
    /\ r_kernels r = [Samples.updates_k; Samples.reads_k].
Proof. eexists. split; [vm_compute; reflexivity|]. done. Qed.

(** When [kernels] is the list [self.kernels] itself, the kernels are
    rewritten. *)
Example own_kernels_are_rewritten :
  exists r,
    _process_args (Samples.generator c_kernel_generator
                     [Samples.reads_k; Samples.updates_k] [])
                  SelfKernels true = Ok r
    /\ r_args r = [Samples.k_atomic]
    /\ knl_args <$> r_kernels r = [[Samples.k_atomic]; [Samples.k_atomic]].
Proof. eexists. split; [vm_compute; reflexivity|]. done. Qed.

(** C3: two kernels, given in a list of their own, declare [phi] with two
    shapes, and [k] once plain and once atomic.  The name [k] comes first;
    its rewrite loop finds [k] in the third kernel of [self.kernels] and
    writes to [kernels[2]] of a list of two: [IndexError] is raised, and the
    conflict on [phi] is never reported. *)
Theorem conflict_is_preempted_by_index_error :
  _process_args (Samples.generator c_kernel_generator
                   [Samples.own; Samples.own; Samples.reads_k] [])
                (ListObject [Samples.reads_k_phi; Samples.updates_k_phi]) true
  = Raise IndexError.
Proof. vm_compute. reflexivity. Qed.

(** The same kernels as the generator's own: the conflict is reported with
    both variants. *)
Example conflict_is_reported :
  _process_args (Samples.generator c_kernel_generator
                   [Samples.reads_k_phi; Samples.updates_k_phi] [])
                SelfKernels true
  = Raise (ConflictingArguments [Samples.phi; Samples.phi_short]).
Proof. vm_compute. reflexivity. Qed.

Lemma atomify_atomic arg : is_atomic (arg_dtype arg) = true -> atomify arg = arg.
Proof. destruct arg as [c n [d|d] s]; simpl; [discriminate|done]. Qed.

Lemma atomify_is_atomic arg : is_atomic (arg_dtype (atomify arg)) = true.
Proof. done. Qed.

Lemma find_first_true {A} (p : A -> bool) x l : p x = true -> List.find p (x :: l) = Some x.
Proof. intros H. simpl. by rewrite H. Qed.

Lemma find_first_false {A} (p : A -> bool) x l :
  p x = false -> List.find p (x :: l) = List.find p l.
Proof. intros H. simpl. by rewrite H. Qed.

(** The loop body raises the conflict for variants that cannot be
    resolved, whatever the kernels are. *)
Lemma unresolvable_variants_raise self_kernels kernels same_name :
  NoDup same_name -> unresolvable same_name ->
  resolve_same_name self_kernels kernels same_name
  = Raise (ConflictingArguments same_name).
Proof.
  intros Hnd [Hlen Hpair]. unfold resolve_same_name.
  destruct (List.find _ same_name) as [atomic|] eqn:Hatomic; [|done].
  destruct (decide _) as [|Hle]; [done|].
  destruct same_name as [|x [|y [|z l]]]; simpl in Hlen, Hle; try lia.
  apply NoDup_cons in Hnd as [Hxy _]. rewrite list_elem_of_singleton in Hxy.
  assert (forall other,
             other <> atomic -> is_atomic (arg_dtype atomic) = true ->
             ([x; y] = [other; atomic] \/ [x; y] = [atomic; other]) ->
             _compare_args other atomic = false) as Hcmp.
  { intros other Hne Hat Hxy'. unfold _compare_args.
    rewrite bool_decide_eq_false_2 by done. simpl.
    apply bool_decide_eq_false. intros Heq.
    rewrite (atomify_atomic atomic Hat) in Heq.
    apply Hpair. exists other. split.
    - destruct (is_atomic (arg_dtype other)) eqn:E; [|done].
      rewrite atomify_atomic in Heq by done. done.
    - rewrite Heq. destruct Hxy' as [-> | ->]; auto. }
  simpl in Hatomic. destruct (is_atomic (arg_dtype x)) eqn:Hx.
  - injection Hatomic as <-. simpl.
    rewrite bool_decide_eq_false_2 by (intros H; by apply H).
    rewrite bool_decide_eq_true_2 by (intros ->; done).
    rewrite (Hcmp y); [done| |done|by right]. by intros ->.
  - destruct (is_atomic (arg_dtype y)) eqn:Hy; [|discriminate].
    injection Hatomic as <-. simpl.
    rewrite bool_decide_eq_true_2 by done.
    rewrite (Hcmp x); [done|done|done|by left].
Qed.

(** A pair that differs in atomicity alone never raises the conflict, and
    resolves to the atomic variant. *)
Lemma atomic_pair_resolves self_kernels kernels same_name :
  atomic_pair same_name ->
  exists arg, is_atomic (arg_dtype arg) = false
    /\ (same_name = [arg; atomify arg] \/ same_name = [atomify arg; arg])
    /\ resolve_same_name self_kernels kernels same_name
       = kernels' ← rewrite_kernels (nat_enumerate self_kernels) kernels
                                    arg (atomify arg);
         Ok (kernels', [atomify arg]).
Proof.
  intros (arg & Hna & Hsn). exists arg. split; [done|].
  assert (arg <> atomify arg) as Hne.
  { intros Heq. rewrite Heq in Hna. simpl in Hna. discriminate. }
  assert (_compare_args arg (atomify arg) = true) as Hcmp.
  { unfold _compare_args. apply orb_true_iff. right.
    apply bool_decide_eq_true. by rewrite (atomify_atomic (atomify arg)). }
  unfold resolve_same_name. destruct Hsn as [-> | ->].
  - split; [by left|].
    rewrite find_first_false, find_first_true by done.
    destruct (decide _) as [Hlen|_]; [simpl in Hlen; lia|].
    rewrite find_first_true by (by apply bool_decide_eq_true).
    rewrite Hcmp. simpl. by rewrite decide_True.
  - split; [by right|].
    rewrite find_first_true by done.
    destruct (decide _) as [Hlen|_]; [simpl in Hlen; lia|].
    rewrite find_first_false, find_first_true.
    + rewrite Hcmp. simpl. rewrite decide_False by (intros H; by apply Hne).
      by rewrite decide_True.
    + by apply bool_decide_eq_true.
    + apply bool_decide_eq_false. by intros H.
Qed.

Lemma classic_pair same_name : atomic_pair same_name \/ ~ atomic_pair same_name.
Proof.
  destruct same_name as [|x [|y [|z l]]].
  1,2,4: right; intros (arg & _ & [H|H]); discriminate H.
  destruct (decide (is_atomic (arg_dtype x) = false /\ y = atomify x)) as [[H1 H2]|H1].
  { left. exists x. subst. auto. }
  destruct (decide (is_atomic (arg_dtype y) = false /\ x = atomify y)) as [[H3 H4]|H3].
  { left. exists y. subst. auto. }
  right. intros (arg & Hna & [[= -> ->]|[= -> ->]]); auto.
Qed.

(** The errors of the loop body on distinct variants. *)
Lemma resolve_same_name_errors self_kernels kernels same_name e :
  NoDup same_name -> (2 <= length same_name)%nat ->
  resolve_same_name self_kernels kernels same_name = Raise e ->
  e = IndexError
  \/ (e = ConflictingArguments same_name /\ unresolvable same_name).
Proof.
  intros Hnd Hlen He.
  destruct (classic_pair same_name) as [Hpair|Hpair].
  - left. destruct (atomic_pair_resolves self_kernels kernels _ Hpair)
      as (arg & _ & _ & Heq).
    rewrite Heq in He. clear Heq.
    destruct (rewrite_kernels _ _ _ _) as [k|e'] eqn:Hrw; [discriminate|].
    simpl in He. injection He as <-.
    revert Hrw. generalize (nat_enumerate self_kernels) as todo. revert kernels.
    intros kernels todo. revert kernels.
    induction todo as [|[i knl] todo IH]; intros kernels; simpl; [discriminate|].
    destruct (bool_decide _); [|apply IH].
    unfold setitem. destruct (decide _); simpl; [apply IH|].
    by intros [= <-].
  - right. rewrite unresolvable_variants_raise in He by done.
    injection He as <-. done.
Qed.

Lemma pop_raises {A} (l : list A) e : pop l = Raise e -> e = IndexError.
Proof. unfold pop. destruct (last l); [discriminate|]. by intros [= <-]. Qed.

Lemma same_name_of_nonempty name args :
  name ∈ Py.sorted_set (arg_name <$> args) ->
  (1 <= length (same_name_of name args))%nat.
Proof.
  rewrite elem_of_sorted_set, list_elem_of_fmap. intros (x & -> & Hx).
  assert (x ∈ same_name_of (arg_name x) args) as Hin
      by (by apply elem_of_same_name_of).
  destruct (same_name_of _ _); [by apply elem_of_nil in Hin|simpl; lia].
Qed.

Lemma unresolvable_in_nameset name args :
  unresolvable (same_name_of name args) ->
  name ∈ Py.sorted_set (arg_name <$> args).
Proof.
  intros [Hlen _]. rewrite elem_of_sorted_set, list_elem_of_fmap.
  destruct (same_name_of name args) as [|x l] eqn:E; [simpl in Hlen; lia|].
  assert (x ∈ same_name_of name args) as Hin by (rewrite E; by left).
  apply elem_of_same_name_of in Hin as [Hin <-]. by exists x.
Qed.

(** Once a name of [nameset] has variants that cannot be resolved, the
    loop over the names raises. *)
Lemma resolve_names_never_picks alias self_kernels args nameset :
  forall kernels kernel_data n,
    n ∈ nameset -> unresolvable (same_name_of n args) ->
    (forall m, m ∈ nameset -> (1 <= length (same_name_of m args))%nat) ->
    exists e,
      resolve_names alias self_kernels args nameset kernels kernel_data = Raise e
      /\ (e = IndexError
          \/ exists m, e = ConflictingArguments (same_name_of m args)
                       /\ unresolvable (same_name_of m args)).
Proof.
  induction nameset as [|h nameset IH]; intros kernels kd n Hn Hun Hne.
  - by apply elem_of_nil in Hn.
  - simpl. pose proof (Hne h ltac:(by left)) as Hh.
    assert (forall m, m ∈ nameset -> (1 <= length (same_name_of m args))%nat) as Hne'
        by (intros m Hm; apply Hne; by right).
    destruct (decide _) as [Hlen|Hlen].
    + destruct (resolve_same_name _ _ _) as [[k sn]|e] eqn:E.
      * simpl. destruct (pop sn) as [x|e] eqn:Hpop; simpl.
        -- apply elem_of_cons in Hn as [->|Hn]; [|by eapply IH].
           rewrite unresolvable_variants_raise in E; [discriminate| |done].
           apply NoDup_same_name_of.
        -- exists e. split; [done|]. left. by eapply pop_raises.
      * simpl. exists e. split; [done|].
        apply resolve_same_name_errors in E as [->|[-> Hun']];
          [by left| |apply NoDup_same_name_of|lia].
        right. by exists h.
    + simpl. destruct (pop _) as [x|e] eqn:Hpop; simpl.
      * apply elem_of_cons in Hn as [->|Hn]; [|by eapply IH].
        destruct Hun as [Hlen' _]. exfalso. apply Hlen. lia.
      * exists e. split; [done|]. left. by eapply pop_raises.
Qed.

(** Same-named arguments that cannot be resolved are never resolved
    silently: [_process_args] raises, and unless the rewrite of an earlier
    name ran out of the list, the error lists the variants of a name that
    cannot be resolved. *)
Lemma conflicting_variants_never_resolved self kernels use_subkernels n :
  unresolvable
    (same_name_of n (gather_args self (working_kernels self kernels use_subkernels))) ->
  exists e,
    _process_args self kernels use_subkernels = Raise e
    /\ (e = IndexError
        \/ exists m,
            e = ConflictingArguments
                  (same_name_of m (gather_args self
                                     (working_kernels self kernels use_subkernels)))
            /\ unresolvable
                 (same_name_of m (gather_args self
                                    (working_kernels self kernels use_subkernels)))).
Proof.
  intros Hun. unfold _process_args.
  destruct (resolve_names_never_picks
              (aliases_self self kernels) (gen_kernels self)
              (gather_args self (working_kernels self kernels use_subkernels))
              (Py.sorted_set
                 (arg_name <$> gather_args self
                    (working_kernels self kernels use_subkernels)))
              (working_kernels self kernels use_subkernels) [] n)
    as (e & -> & He).
  - by apply unresolvable_in_nameset.
  - done.
  - intros m. apply same_name_of_nonempty.
  - exists e. split; [done|exact He].
Qed.

(** *** The generator's own kernels *)

Lemma rewrite_kernels_in_range todo : forall kernels other atomic,
  Forall (fun p : nat * LoopKernel => (fst p < length kernels)%nat) todo ->
  exists kernels',
    rewrite_kernels todo kernels other atomic = Ok kernels'
    /\ length kernels' = length kernels.
Proof.
  induction todo as [|[i knl] todo IH]; intros kernels other atomic Hall; simpl.
  - by exists kernels.
  - apply Forall_cons in Hall as [Hi Hall]. simpl in Hi.
    destruct (bool_decide _); [|by apply IH].
    unfold setitem. rewrite decide_True by done. simpl.
    destruct (IH (<[i := replace_arg other atomic knl]> kernels) other atomic)
      as (k' & -> & Hlen).
    + by rewrite length_insert.
    + exists k'. by rewrite Hlen, length_insert.
Qed.

Lemma nat_enumerate_in_range {A} (l : list A) :
  Forall (fun p : nat * A => (fst p < length l)%nat) (nat_enumerate l).
Proof.
  apply Forall_forall. intros [i x] Hin. unfold nat_enumerate in Hin.
  apply elem_of_zip_l in Hin. apply elem_of_seq in Hin. simpl. lia.
Qed.

(** When the rewrite loop cannot run out of the list, the only error of the
    loop over the names is the conflict. *)
Lemma resolve_names_own alias self_kernels args nameset :
  forall kernels kernel_data e,
    (alias = true \/ (length self_kernels <= length kernels)%nat) ->
    (forall m, m ∈ nameset -> (1 <= length (same_name_of m args))%nat) ->
    resolve_names alias self_kernels args nameset kernels kernel_data = Raise e ->
    exists m, e = ConflictingArguments (same_name_of m args)
              /\ unresolvable (same_name_of m args).
Proof.
  induction nameset as [|h nameset IH]; intros kernels kd e Hrange Hne; simpl;
    [discriminate|].
  pose proof (Hne h ltac:(by left)) as Hh.
  assert (forall m, m ∈ nameset -> (1 <= length (same_name_of m args))%nat) as Hne'
      by (intros m Hm; apply Hne; by right).
  destruct (decide _) as [Hlen|Hlen].
  - destruct (classic_pair (same_name_of h args)) as [Hpair|Hpair].
    + destruct (atomic_pair_resolves (if alias then kernels else self_kernels)
                  kernels _ Hpair) as (arg & _ & _ & ->).
      destruct (rewrite_kernels_in_range
                  (nat_enumerate (if alias then kernels else self_kernels))
                  kernels arg (atomify arg)) as (k' & -> & Hk').
      { destruct Hrange as [-> | Hle].
        - apply nat_enumerate_in_range.
        - destruct alias; [apply nat_enumerate_in_range|].
          eapply Forall_impl; [apply nat_enumerate_in_range|].
          simpl. intros; lia. }
      simpl. apply IH; [|done].
      destruct Hrange as [?|?]; [by left|right; lia].
    + rewrite unresolvable_variants_raise.
      * simpl. intros [= <-]. exists h. split; [done|]. split; [lia|done].
      * apply NoDup_same_name_of.
      * split; [lia|done].
  - simpl. destruct (same_name_of h args) as [|x [|y l]] eqn:E;
      simpl in Hh, Hlen; try lia.
    simpl. by apply IH.
Qed.

(** For the generator's own kernels, as [self.kernels] or by default,
    same-named arguments that cannot be resolved raise the error that lists
    the variants. *)
Lemma conflict_reported_for_own_kernels self kernels use_subkernels n :
  kernels = SelfKernels \/ kernels = ListObject [] ->
  unresolvable
    (same_name_of n (gather_args self (working_kernels self kernels use_subkernels))) ->
  exists m,
    _process_args self kernels use_subkernels
    = Raise (ConflictingArguments
               (same_name_of m (gather_args self
                                  (working_kernels self kernels use_subkernels))))
    /\ unresolvable
         (same_name_of m (gather_args self
                            (working_kernels self kernels use_subkernels))).
Proof.
  intros Hown Hun.
  destruct (conflicting_variants_never_resolved self kernels use_subkernels n Hun)
    as (e & He & _).
  unfold _process_args in *.
  destruct (resolve_names _ _ _ _ _ _) as [[k kd]|e'] eqn:E.
  - exfalso.
    destruct (resolve_names_never_picks
              (aliases_self self kernels) (gen_kernels self)
              (gather_args self (working_kernels self kernels use_subkernels))
              (Py.sorted_set
                 (arg_name <$> gather_args self
                    (working_kernels self kernels use_subkernels)))
              (working_kernels self kernels use_subkernels) [] n)
      as (e'' & He'' & _).
    + by apply unresolvable_in_nameset.
    + done.
    + intros m. apply same_name_of_nonempty.
    + rewrite E in He''. discriminate.
  - simpl. apply resolve_names_own in E as (m & -> & Hm).
    + by exists m.
    + unfold aliases_self, working_kernels.
      destruct Hown as [-> | ->].
      * destruct (gen_kernels self) as [|knl l] eqn:Hk.
        -- right. simpl. lia.
        -- left. by apply bool_decide_eq_true.
      * right. destruct use_subkernels; [rewrite length_app|]; lia.
    + intros m. apply same_name_of_nonempty.
Qed.

(** *** The rewrite loop on the list it enumerates *)

Lemma rewrite_kernels_suffix other atomic l : forall done,
  rewrite_kernels (zip (seq (length done) (length l)) l) (done ++ l) other atomic
  = Ok (done
        ++ ((fun knl => if bool_decide (other ∈ knl_args knl)
                        then replace_arg other atomic knl else knl) <$> l)).
Proof.
  induction l as [|knl l IH]; intros done_; simpl; [done|].
  destruct (bool_decide (other ∈ knl_args knl)) eqn:E.
  - unfold setitem. rewrite decide_True by (rewrite length_app; simpl; lia).
    simpl. rewrite insert_app_r_alt, Nat.sub_diag by done. simpl.
    specialize (IH (done_ ++ [replace_arg other atomic knl])).
    rewrite length_app, <- app_assoc in IH. simpl in IH.
    rewrite Nat.add_1_r in IH. rewrite IH. by rewrite <- app_assoc.
  - specialize (IH (done_ ++ [knl])).
    rewrite length_app, <- app_assoc in IH. simpl in IH.
    rewrite Nat.add_1_r in IH. rewrite IH. by rewrite <- app_assoc.
Qed.

(** When [kernels] is [self.kernels], the loop rewrites every kernel that
    has [other], and no kernel has it afterwards. *)
Lemma rewrite_own_kernels kernels other atomic :
  other <> atomic ->
  exists kernels',
    rewrite_kernels (nat_enumerate kernels) kernels other atomic = Ok kernels'
    /\ length kernels' = length kernels
    /\ forall knl, knl ∈ kernels' -> other ∉ knl_args knl.
Proof.
  intros Hne. eexists. split; [exact (rewrite_kernels_suffix other atomic kernels [])|].
  simpl. split; [by rewrite length_fmap|].
  intros knl Hknl. apply list_elem_of_fmap in Hknl as (knl0 & -> & _).
  destruct (bool_decide (other ∈ knl_args knl0)) eqn:E.
  - simpl. intros Hin. apply list_elem_of_fmap in Hin as (x & Hx & _).
    destruct (decide (x <> other)); congruence.
  - by apply bool_decide_eq_false in E.
Qed.

(** ** Argument resolution: a second run *)

Lemma collect_app name l1 l2 : forall same_name,
  collect name same_name (l1 ++ l2) = collect name (collect name same_name l1) l2.
Proof. intros. unfold collect. by rewrite foldl_app. Qed.

Lemma collect_absorbs name l : forall same_name,
  (forall x, x ∈ l -> arg_name x = name -> x ∈ same_name) ->
  collect name same_name l = same_name.
Proof.
  induction l as [|a l IH]; intros same_name Hin; [done|].
  rewrite collect_cons. rewrite decide_False.
  - apply IH. intros x Hx. apply Hin. by right.
  - intros [Hn Ha]. apply Ha, Hin; [by left|done].
Qed.

(** Arguments met again change nothing in the variants of a name. *)
Lemma same_name_of_repeated name l again extra :
  (forall x, x ∈ again -> x ∈ l) ->
  same_name_of name (l ++ again ++ extra) = same_name_of name (l ++ extra).
Proof.
  intros Hsub. unfold same_name_of. rewrite !collect_app. f_equal.
  apply collect_absorbs. intros x Hx Hn.
  apply elem_of_collect. right. auto.
Qed.

(** With one variant per name, the loop over the names rewrites no kernel
    and keeps the variant of each name. *)
Lemma resolve_names_resolved alias self_kernels args nameset :
  forall kernels kernel_data,
    (forall name, name ∈ nameset -> length (same_name_of name args) = 1%nat) ->
    resolve_names alias self_kernels args nameset kernels kernel_data
    = Ok (kernels, kernel_data ++ (nameset ≫= fun name => same_name_of name args)).
Proof.
  induction nameset as [|h nameset IH]; intros kernels kd Hone; simpl.
  - by rewrite app_nil_r.
  - pose proof (Hone h ltac:(by left)) as Hh.
    rewrite decide_False by (intros H; by apply H).
    destruct (same_name_of h args) as [|x [|y l]] eqn:E; simpl in Hh; try lia.
    simpl. rewrite IH by (intros m Hm; apply Hone; by right).
    by rewrite <- app_assoc.
Qed.

(** The canonical arguments of resolved arguments. *)
Lemma resolved_names_one args :
  already_resolved args ->
  forall name, name ∈ Py.sorted_set (arg_name <$> args) ->
               length (same_name_of name args) = 1%nat.
Proof.
  intros Hres name Hname. apply same_name_of_nonempty in Hname.
  specialize (Hres name). lia.
Qed.

Lemma elem_of_bind_repeated {A} (f : LoopKernel -> list A) kernels again x :
  (forall knl, knl ∈ again -> knl ∈ kernels) ->
  x ∈ again ≫= f -> x ∈ kernels ≫= f.
Proof.
  intros Hsub. rewrite !list_elem_of_bind. intros (knl & Hx & Hknl). eauto.
Qed.

Lemma gather_args_repeats self self2 kernels kernels2 name :
  gen_extra_kernel_data self2 = gen_extra_kernel_data self ->
  repeats kernels kernels2 ->
  same_name_of name (gather_args self2 kernels2)
  = same_name_of name (gather_args self kernels)
  /\ Py.sorted_set (arg_name <$> gather_args self2 kernels2)
     = Py.sorted_set (arg_name <$> gather_args self kernels).
Proof.
  intros Hextra (again & -> & Hsub). unfold gather_args, extra_arguments.
  rewrite Hextra, bind_app, <- app_assoc. split.
  - apply same_name_of_repeated. intros x. by apply elem_of_bind_repeated.
  - apply sorted_set_ext. intros x.
    rewrite !fmap_app, !elem_of_app, !list_elem_of_fmap.
    split; [|tauto]. intros [H|[(a & -> & Ha)|H]]; auto.
    left. exists a. split; [done|]. by eapply elem_of_bind_repeated.
Qed.

Lemma existsb_repeated (p : LoopKernel -> bool) kernels again :
  (forall knl, knl ∈ again -> knl ∈ kernels) ->
  existsb p (kernels ++ again) = existsb p kernels.
Proof.
  intros Hsub. rewrite existsb_app.
  destruct (existsb p kernels) eqn:E; [done|]. simpl.
  apply not_true_is_false. intros H.
  apply existsb_exists in H as (knl & Hin & Hp).
  apply list_elem_of_In, Hsub, list_elem_of_In in Hin.
  assert (existsb p kernels = true) by (apply existsb_exists; eauto). congruence.
Qed.

Lemma readonly_names_repeats kernels kernels2 :
  repeats kernels kernels2 -> readonly_names kernels2 = readonly_names kernels.
Proof.
  intros (again & -> & Hsub). unfold readonly_names.
  apply set_eq. intros name. rewrite !elem_of_list_to_set, !list_elem_of_fmap.
  assert (forall arg : KernelArgument,
             existsb (fun d => bool_decide (arg_name arg ∈ knl_written_variables d))
                     (kernels ++ again)
             = existsb (fun d => bool_decide (arg_name arg ∈ knl_written_variables d))
                       kernels) as Hex
      by (intros arg; by apply existsb_repeated).
  split; intros (arg & -> & Harg); exists arg; (split; [done|]);
    apply list_elem_of_In, filter_In in Harg as [Hin Hp];
    apply list_elem_of_In, filter_In; apply list_elem_of_In in Hin.
  - rewrite Hex in Hp. split; [|done]. apply list_elem_of_In.
    rewrite bind_app, elem_of_app in Hin. destruct Hin as [|Hin]; [done|].
    by eapply elem_of_bind_repeated.
  - rewrite Hex. split; [|done]. apply list_elem_of_In.
    rewrite bind_app, elem_of_app. by left.
Qed.

Lemma temps_check_passes (first : TemporaryVariable) others :
  bool_decide (1 < length (first :: others))%nat
  && negb (forallb (fun x => bool_decide (x = first)) others) = false
  <-> forallb (fun x => bool_decide (x = first)) others = true.
Proof.
  destruct others as [|y l].
  - simpl. split; done.
  - rewrite bool_decide_eq_true_2 by (simpl; lia).
    rewrite andb_true_l, negb_false_iff. done.
Qed.

Lemma filter_nil_subset {A} (p : A -> bool) (l1 l2 : list A) :
  (forall x, x ∈ l2 -> x ∈ l1) -> List.filter p l1 = [] -> List.filter p l2 = [].
Proof.
  intros Hsub H1. destruct (List.filter p l2) as [|y l] eqn:E; [done|].
  assert (In y (List.filter p l2)) as Hy by (rewrite E; by left).
  apply filter_In in Hy as [Hy Hp].
  apply list_elem_of_In, Hsub, list_elem_of_In in Hy.
  assert (In y (List.filter p l1)) as Hy' by (by apply filter_In).
  rewrite H1 in Hy'. destruct Hy'.
Qed.

(** Temporaries met again change nothing in the temporaries kept. *)
Lemma resolve_temps_repeated (l again extra : list TemporaryVariable) names :
  forall temps temps',
    (forall x, x ∈ again -> x ∈ l) ->
    resolve_temps (l ++ extra) names temps = Ok temps' ->
    resolve_temps (l ++ again ++ extra) names temps = Ok temps'.
Proof.
  induction names as [|name names IH]; intros temps temps' Hsub; simpl; [done|].
  rewrite !List.filter_app.
  set (p := fun x : TemporaryVariable => bool_decide (tv_name x = name)).
  destruct (List.filter p l) as [|first ps] eqn:El.
  - rewrite (filter_nil_subset p l again Hsub El). simpl.
    destruct (List.filter p extra) as [|first others]; [done|].
    destruct (_ && _); [done|]. by apply IH.
  - simpl. destruct (_ && _) eqn:Hcheck; [discriminate|].
    apply temps_check_passes in Hcheck.
    match goal with
    | |- context [if ?c then _ else _] => destruct c eqn:Hcheck2
    end; [exfalso|by apply IH].
    apply not_false_iff_true in Hcheck2. apply Hcheck2.
    apply temps_check_passes.
    rewrite forallb_app in Hcheck. apply andb_true_iff in Hcheck as [Hps Hextra].
    rewrite !forallb_app, Hps, Hextra, andb_true_r. simpl.
    apply forallb_forall. intros x Hx. apply filter_In in Hx as [Hx Hp].
    apply list_elem_of_In, Hsub, list_elem_of_In in Hx.
    assert (In x (List.filter p l)) as Hin by (by apply filter_In).
    rewrite El in Hin. destruct Hin as [<-|Hin]; [by apply bool_decide_eq_true|].
    rewrite forallb_forall in Hps. by apply Hps.
Qed.

Lemma shared_temporaries_repeats self self2 kernels kernels2 temps :
  gen_extra_kernel_data self2 = gen_extra_kernel_data self ->
  repeats kernels kernels2 ->
  resolve_temps (shared_temporaries self kernels)
                (Py.sorted_set (tv_name <$> shared_temporaries self kernels)) []
  = Ok temps ->
  resolve_temps (shared_temporaries self2 kernels2)
                (Py.sorted_set (tv_name <$> shared_temporaries self2 kernels2)) []
  = Ok temps.
Proof.
  intros Hextra (again & -> & Hsub) Hrun.
  unfold shared_temporaries, extra_temporaries in *. rewrite Hextra.
  rewrite bind_app, List.filter_app, <- app_assoc.
  assert (forall x, x ∈ List.filter shared_scope (again ≫= temporaries) ->
                    x ∈ List.filter shared_scope (kernels ≫= temporaries)) as Hsub'.
  { intros x Hx. apply list_elem_of_In, filter_In in Hx as [Hx Hp].
    apply list_elem_of_In, filter_In. split; [|done].
    apply list_elem_of_In. eapply elem_of_bind_repeated; [exact Hsub|].
    by apply list_elem_of_In. }
  match goal with
  | |- resolve_temps _ (Py.sorted_set ?n2) _ = _ =>
      match type of Hrun with
      | resolve_temps _ (Py.sorted_set ?n1) _ = _ =>
          assert (Py.sorted_set n2 = Py.sorted_set n1) as ->
      end
  end.
  { apply sorted_set_ext. intros x.
    rewrite !fmap_app, !elem_of_app, !list_elem_of_fmap.
    split; [|tauto]. intros [H|[(a & -> & Ha)|H]]; auto.
    left. exists a. auto. }
  by apply resolve_temps_repeated.
Qed.

(** [_process_args] on resolved arguments, when hoisting finds no local
    temporary: the kernels come back as they are. *)
Lemma hoist_nothing todo : forall local temps,
  Forall no_local_temporaries todo -> hoist todo local temps = Ok (todo, local, temps).
Proof.
  induction todo as [|knl todo IH]; intros local temps Hall; [done|].
  apply Forall_cons in Hall as [Hknl Hall]. cbn [hoist].
  assert (List.filter (fun x => bool_decide (tv_scope x = LOCAL)) (temporaries knl) = [])
    as ->.
  { unfold no_local_temporaries in Hknl.
    induction Hknl as [|t ts Ht _ IHt]; [done|]. simpl.
    by rewrite bool_decide_eq_false_2. }
  by rewrite IH.
Qed.

Lemma process_args_resolved self kernels use_subkernels :
  (hoist_locals self = true ->
   Forall no_local_temporaries (working_kernels self kernels use_subkernels)) ->
  already_resolved (gather_args self (working_kernels self kernels use_subkernels)) ->
  _process_args self kernels use_subkernels
  = temps ← resolve_temps
              (shared_temporaries self (working_kernels self kernels use_subkernels))
              (Py.sorted_set
                 (tv_name <$> shared_temporaries self
                    (working_kernels self kernels use_subkernels))) [];
    Ok (mkResolved
          (if aliases_self self kernels
           then working_kernels self kernels use_subkernels
           else gen_kernels self)
          (working_kernels self kernels use_subkernels)
          (List.filter (fun x => negb (is_value_arg x))
             (Py.sorted_set
                (arg_name <$> gather_args self
                   (working_kernels self kernels use_subkernels))
              ≫= fun name =>
                   same_name_of name
                     (gather_args self (working_kernels self kernels use_subkernels))))
          [] (readonly_names (working_kernels self kernels use_subkernels))
          (List.filter tv_read_only temps)
          (List.filter is_value_arg
             (Py.sorted_set
                (arg_name <$> gather_args self
                   (working_kernels self kernels use_subkernels))
              ≫= fun name =>
                   same_name_of name
                     (gather_args self (working_kernels self kernels use_subkernels))))).
Proof.
  intros Hhoist Hres. unfold _process_args.
  rewrite resolve_names_resolved by (by apply resolved_names_one).
  simpl. destruct (resolve_temps _ _ _) as [temps|]; [|reflexivity]. simpl.
  destruct (hoist_locals self); [|reflexivity].
  by rewrite hoist_nothing by (by apply Hhoist).
Qed.

Lemma repeats_refl kernels : repeats kernels kernels.
Proof. exists []. rewrite app_nil_r. split; [done|]. intros knl H. by apply elem_of_nil in H. Qed.

Lemma repeats_again kernels again :
  repeats (kernels ++ again) ((kernels ++ again) ++ again).
Proof. exists again. split; [done|]. intros knl H. apply elem_of_app. by right. Qed.

(** What a second call works on: the list of the first call, followed at
    most by the kernels of the dependencies once more. *)
Lemma after_call_repeats self kernels use_subkernels r :
  r_kernels r = working_kernels self kernels use_subkernels ->
  r_self_kernels r
  = (if aliases_self self kernels
     then working_kernels self kernels use_subkernels
     else gen_kernels self) ->
  repeats (working_kernels self kernels use_subkernels)
          (working_kernels (fst (after_call self kernels r))
                           (snd (after_call self kernels r)) use_subkernels).
Proof.
  intros Hk Hs. unfold after_call, working_kernels in *.
  destruct kernels as [|[|knl l]]; simpl in *.
  - rewrite Hs. clear Hs Hk.
    destruct (gen_kernels self) as [|knl l] eqn:Hg; simpl.
    + apply repeats_refl.
    + destruct use_subkernels; simpl.
      * apply (repeats_again (knl :: l)).
      * apply repeats_refl.
  - apply repeats_refl.
  - rewrite Hk. destruct use_subkernels; simpl.
    + apply (repeats_again (knl :: l)).
    + apply repeats_refl.
Qed.

Lemma after_call_generator self kernels r :
  gen_extra_kernel_data (fst (after_call self kernels r)) = gen_extra_kernel_data self
  /\ hoist_locals (fst (after_call self kernels r)) = hoist_locals self.
Proof. destruct kernels as [|[|knl l]]; done. Qed.

(** C9, as the code has it: for arguments that are already resolved (one
    variant per name) and kernels that hold no temporary in local memory
    when the generator hoists local temporaries, a second run of
    [_process_args] on what the first run left returns the same global
    arguments, local temporaries, read-only names, constant temporaries
    and value arguments. *)
Theorem second_run_same_partition self kernels use_subkernels r :
  (hoist_locals self = true ->
   Forall no_local_temporaries (working_kernels self kernels use_subkernels)) ->
  already_resolved (gather_args self (working_kernels self kernels use_subkernels)) ->
  _process_args self kernels use_subkernels = Ok r ->
  exists r',
    _process_args (fst (after_call self kernels r)) (snd (after_call self kernels r))
                  use_subkernels = Ok r'
    /\ same_partition r r'.
Proof.
  intros Hhoist Hres Hrun.
  rewrite process_args_resolved in Hrun by done.
  destruct (resolve_temps _ _ _) as [temps|] eqn:Htemps; [|discriminate].
  simpl in Hrun. injection Hrun as <-.
  match goal with
  | |- context [after_call self kernels ?r0] => set (r := r0)
  end.
  pose proof (after_call_repeats self kernels use_subkernels r eq_refl eq_refl) as Hrep.
  destruct (after_call_generator self kernels r) as [Hextra Hhoist2].
  destruct (after_call self kernels r) as [self2 kernels2]. simpl in *.
  assert (forall name,
             same_name_of name
               (gather_args self2 (working_kernels self2 kernels2 use_subkernels))
             = same_name_of name
                 (gather_args self (working_kernels self kernels use_subkernels))) as Hsame
      by (intros name; by apply gather_args_repeats).
  assert (Py.sorted_set
            (arg_name <$> gather_args self2
               (working_kernels self2 kernels2 use_subkernels))
          = Py.sorted_set
              (arg_name <$> gather_args self
                 (working_kernels self kernels use_subkernels))) as Hnames
      by (by apply (gather_args_repeats self self2 _ _ "")).
  rewrite process_args_resolved.
  2: { rewrite Hhoist2. intros Hh. specialize (Hhoist Hh).
       destruct Hrep as (again & -> & Hagain). apply Forall_app. split; [done|].
       rewrite Forall_forall in Hhoist. apply Forall_forall. intros knl Hknl.
       by apply Hhoist, Hagain. }
  2: { intros name. rewrite Hsame. apply Hres. }
  rewrite (shared_temporaries_repeats self self2 _ _ temps Hextra Hrep Htemps).
  simpl. eexists. split; [reflexivity|].
  unfold same_partition, r. simpl.
  rewrite Hnames, (readonly_names_repeats _ _ Hrep).
  rewrite (list_bind_ext _ (fun name =>
             same_name_of name
               (gather_args self (working_kernels self kernels use_subkernels)))
             _ _ Hsame eq_refl).
  done.
Qed.

Lemma second_run_same_partition_witness :
  exists r r',
    _process_args (Samples.generator opencl_kernel_generator
                     [Samples.own] [[Samples.updates_k]]) SelfKernels true = Ok r
    /\ _process_args
         (fst (after_call (Samples.generator opencl_kernel_generator
                             [Samples.own] [[Samples.updates_k]]) SelfKernels r))
         (snd (after_call (Samples.generator opencl_kernel_generator
                             [Samples.own] [[Samples.updates_k]]) SelfKernels r))
         true = Ok r'
    /\ r_kernels r = [Samples.own; Samples.updates_k]
    /\ r_kernels r' = [Samples.own; Samples.updates_k; Samples.updates_k]
    /\ same_partition r r'.
Proof.
  eexists. 
  assert (already_resolved
            (gather_args (Samples.generator opencl_kernel_generator
                            [Samples.own] [[Samples.updates_k]])
               (working_kernels (Samples.generator opencl_kernel_generator
                                   [Samples.own] [[Samples.updates_k]])
                                SelfKernels true))) as Hres.
  { intros name.
    destruct (decide (name = "phi")) as [->|Hphi]; [vm_compute; lia|].
    destruct (decide (name = "k")) as [->|Hk]; [vm_compute; lia|].
    unfold same_name_of, collect. simpl.
    rewrite !bool_decide_eq_false_2 by congruence. simpl. lia. }
  destruct (second_run_same_partition
              (Samples.generator opencl_kernel_generator [Samples.own]
                 [[Samples.updates_k]])
              SelfKernels true _ (fun _ => ltac:(repeat constructor)) Hres eq_refl)
    as (r' & Hrun & Hsame).
  exists r'. split; [reflexivity|]. split; [exact Hrun|].
  split; [reflexivity|]. split; [|exact Hsame].
  vm_compute in Hrun. injection Hrun as <-. reflexivity.
Defined.

(** With hoisting, a second run differs: the first run turns the local
    temporary of the kernel into an argument of the kernel, so that the
    second run finds one more argument and no local temporary. *)
Lemma second_run_differs_with_hoisting :
  exists r r',
    already_resolved
      (gather_args (Samples.generator opencl_kernel_generator
                      [Samples.uses_scratch] [])
         (working_kernels (Samples.generator opencl_kernel_generator
                             [Samples.uses_scratch] []) SelfKernels true))
    /\ _process_args (Samples.generator opencl_kernel_generator
                        [Samples.uses_scratch] []) SelfKernels true = Ok r
    /\ _process_args
         (fst (after_call (Samples.generator opencl_kernel_generator
                             [Samples.uses_scratch] []) SelfKernels r))
         (snd (after_call (Samples.generator opencl_kernel_generator
                             [Samples.uses_scratch] []) SelfKernels r))
         true = Ok r'
    /\ r_args r = [Samples.phi] /\ r_local r = [Samples.scratch]
    /\ r_args r' = [Samples.phi; __argify Samples.scratch] /\ r_local r' = []
    /\ ~ same_partition r r'.
Proof.
  eexists. eexists. split; [|split; [vm_compute; reflexivity|]].
  - intros name.
    destruct (decide (name = "phi")) as [->|Hphi]; [vm_compute; lia|].
    unfold same_name_of, collect. simpl.
    rewrite !bool_decide_eq_false_2 by congruence. simpl. lia.
  - split; [vm_compute; reflexivity|].
    repeat split. intros (Hargs & _). discriminate Hargs.
Qed.

(** ** Argument resolution: the order of declaration *)

(** The argument kept for a name: one of the arguments of that name, and
    every other argument of that name is its variant that is not atomic. *)
Lemma resolve_names_canonical alias self_kernels args nameset :
  forall kernels kernel_data kernels' kernel_data',
    (forall m, m ∈ nameset -> (1 <= length (same_name_of m args))%nat) ->
    resolve_names alias self_kernels args nameset kernels kernel_data
    = Ok (kernels', kernel_data') ->
    exists kept,
      kernel_data' = kernel_data ++ kept
      /\ Forall2 (fun name x => canonical name args x) nameset kept.
Proof.
  induction nameset as [|h nameset IH]; intros kernels kd kernels' kd' Hne; simpl.
  - intros [= <- <-]. exists []. by rewrite app_nil_r.
  - pose proof (Hne h ltac:(by left)) as Hh.
    assert (forall m, m ∈ nameset -> (1 <= length (same_name_of m args))%nat) as Hne'
        by (intros m Hm; apply Hne; by right).
    destruct (decide _) as [Hlen|Hlen].
    + destruct (classic_pair (same_name_of h args)) as [Hpair|Hpair].
      * destruct (atomic_pair_resolves (if alias then kernels else self_kernels)
                    kernels _ Hpair) as (arg & Hna & Hsn & ->).
        destruct (rewrite_kernels _ _ _ _) as [k|]; [|discriminate]. simpl.
        intros H. apply IH in H as (kept & -> & Hkept); [|done].
        exists (atomify arg :: kept). rewrite <- app_assoc. split; [done|].
        constructor; [|done].
        assert (forall y, y ∈ same_name_of h args <-> y = arg \/ y = atomify arg) as Hall.
        { intros y. destruct Hsn as [Hsn|Hsn]; rewrite Hsn;
            rewrite !elem_of_cons, elem_of_nil; tauto. }
        assert (atomify arg ∈ same_name_of h args) as Hat by (apply Hall; by right).
        apply elem_of_same_name_of in Hat as [Hat Hname].
        split; [done|]. split; [done|].
        intros y Hy Hn.
        assert (y ∈ same_name_of h args) as Hy' by (by apply elem_of_same_name_of).
        apply Hall in Hy' as [-> | ->]; [by right|by left].
      * rewrite unresolvable_variants_raise; [discriminate|apply NoDup_same_name_of|].
        split; [lia|done].
    + destruct (same_name_of h args) as [|x [|y l]] eqn:E; simpl in Hh, Hlen; try lia.
      simpl. intros H. apply IH in H as (kept & -> & Hkept); [|done].
      exists (x :: kept). rewrite <- app_assoc. split; [done|].
      constructor; [|done].
      assert (forall y, y ∈ same_name_of h args <-> y = x) as Hall
          by (intros y; rewrite E, list_elem_of_singleton; tauto).
      assert (x ∈ same_name_of h args) as Hx by (by apply Hall).
      apply elem_of_same_name_of in Hx as [Hx Hn].
      split; [done|]. split; [done|].
      intros y Hy Hny. left. apply Hall. by apply elem_of_same_name_of.
Qed.

Lemma canonical_unique name args1 args2 x1 x2 :
  (forall x, x ∈ args1 <-> x ∈ args2) ->
  canonical name args1 x1 -> canonical name args2 x2 -> x1 = x2.
Proof.
  intros Hsame (Hin1 & Hn1 & Hall1) (Hin2 & Hn2 & Hall2).
  destruct (Hall1 x2) as [?|H12]; [by apply Hsame|done|done|].
  destruct (Hall2 x1) as [?|H21]; [by apply Hsame|done|done|].
  assert (atomify x1 = x1) by (apply atomify_atomic; by rewrite H12).
  congruence.
Qed.

(** The canonical arguments depend on which arguments the kernels declare,
    not on the order in which they declare them. *)
Lemma canonical_arguments_order_free self1 kernels1 sub1 self2 kernels2 sub2 r1 r2 :
  (forall x, x ∈ gather_args self1 (working_kernels self1 kernels1 sub1)
             <-> x ∈ gather_args self2 (working_kernels self2 kernels2 sub2)) ->
  _process_args self1 kernels1 sub1 = Ok r1 ->
  _process_args self2 kernels2 sub2 = Ok r2 ->
  r_args r1 = r_args r2 /\ r_valueargs r1 = r_valueargs r2.
Proof.
  intros Hsame. unfold _process_args.
  destruct (resolve_names _ _ _ _ _ _) as [[k1 kd1]|] eqn:E1; [|discriminate].
  destruct (resolve_names _ _ (gather_args self2 _) _ _ _) as [[k2 kd2]|] eqn:E2;
    [|discriminate].
  apply resolve_names_canonical in E1 as (kept1 & -> & H1);
    [|intros m; apply same_name_of_nonempty].
  apply resolve_names_canonical in E2 as (kept2 & -> & H2);
    [|intros m; apply same_name_of_nonempty].
  assert (kept1 = kept2) as ->.
  { rewrite (sorted_set_ext _ (arg_name <$> gather_args self2
                                 (working_kernels self2 kernels2 sub2))) in H1.
    - revert kept2 H2. induction H1 as [|n x ns xs Hx _ IH]; intros kept2 H2.
      + by apply Forall2_nil_inv_l in H2.
      + apply Forall2_cons_inv_l in H2 as (x2 & xs2 & Hx2 & Hxs2 & ->).
        f_equal; [by eapply canonical_unique|by apply IH].
    - intros n. rewrite !list_elem_of_fmap. split; intros (a & -> & Ha); exists a;
        (split; [done|]); by apply Hsame. }
  simpl.
  destruct (resolve_temps _ _ _); [|discriminate].
  destruct (resolve_temps _ _ _); [|discriminate]. simpl.
  destruct (if hoist_locals self1 then _ else _) as [[[? ?] ?]|]; [|discriminate].
  destruct (if hoist_locals self2 then _ else _) as [[[? ?] ?]|]; [|discriminate].
  simpl. by intros [= <-] [= <-].
Qed.

(** * More properties of the generator *)

(** ** [_process_memory] and greedy promotion *)

Lemma greedy_promotion_nonempty self mem_limits constants type_changes :
  greedy_promotion self mem_limits constants = Ok type_changes -> type_changes <> [].
Proof.
  intros H. destruct (greedy_promotion_prefix _ _ _ _ H) as (first & taken & _ & -> & _).
  done.
Qed.

(** X1: [_process_memory] returns exactly when everything fits at the
    start, and then it returns what it was given, with no host constant:
    no call that has to promote an array ever returns. *)
Theorem process_memory_returns_iff_fits get_limits self args readonly local constants :
  (forall out, _process_memory get_limits self args readonly local constants = Ok out ->
               py_all (can_fit (get_limits self (classify args local constants)) []) = true
               /\ out = (args, constants, readonly, [],
                         get_limits self (classify args local constants)))
  /\ (py_all (can_fit (get_limits self (classify args local constants)) []) = true ->
      _process_memory get_limits self args readonly local constants
      = Ok (args, constants, readonly, [],
            get_limits self (classify args local constants))).
Proof.
  unfold _process_memory.
  destruct (py_all _) eqn:Hfit; simpl.
  - split; [|done]. by intros out [= <-].
  - split; [|discriminate]. intros out.
    destruct (greedy_promotion _ _ _) as [tc|e] eqn:Hg; simpl; [|discriminate].
    rewrite change_types_raises by (by eapply greedy_promotion_nonempty).
    discriminate.
Qed.

Lemma process_memory_returns_iff_fits_witness :
  _process_memory (Samples.constant_budget 10)
    (Samples.generator opencl_kernel_generator [] []) [Samples.x] ∅ []
    [Samples.c4; Samples.c6]
  = Ok ([Samples.x], [Samples.c4; Samples.c6], ∅, [],
        Samples.constant_budget 10 (Samples.generator opencl_kernel_generator [] [])
          (classify [Samples.x] [] [Samples.c4; Samples.c6])).
Proof.
  apply (proj2 (process_memory_returns_iff_fits (Samples.constant_budget 10)
                  (Samples.generator opencl_kernel_generator [] []) [Samples.x] ∅ []
                  [Samples.c4; Samples.c6])).
  vm_compute. reflexivity.
Defined.

Lemma promote_least self mem_limits gtemps : forall type_changes out,
  promote self mem_limits type_changes gtemps = Ok out ->
  exists k, (k <= length gtemps)%nat
    /\ out = type_changes ++ take k gtemps
    /\ py_all (can_fit mem_limits out) = true
    /\ forall j, (j < k)%nat ->
         py_all (can_fit mem_limits (type_changes ++ take j gtemps)) = false.
Proof.
  induction gtemps as [|g gtemps IH]; intros tc out; simpl.
  - destruct (py_all _) eqn:E.
    + intros [= <-]. exists 0%nat. rewrite app_nil_r.
      split; [done|]. split; [done|]. split; [done|]. lia.
    + destruct (name self); discriminate.
  - destruct (py_all _) eqn:E.
    + intros [= <-]. exists 0%nat. simpl. rewrite app_nil_r.
      split; [lia|]. split; [done|]. split; [done|]. lia.
    + intros H. apply IH in H as (k & Hk & -> & Hfit & Hleast).
      exists (S k). simpl. rewrite <- app_assoc in *. simpl in *.
      split; [lia|]. split; [done|]. split; [done|].
      intros [|j] Hj; simpl.
      * by rewrite app_nil_r.
      * specialize (Hleast j ltac:(lia)). by rewrite <- app_assoc in Hleast.
Qed.

Lemma promote_finds self mem_limits gtemps : forall type_changes k,
  (k <= length gtemps)%nat ->
  py_all (can_fit mem_limits (type_changes ++ take k gtemps)) = true ->
  exists out, promote self mem_limits type_changes gtemps = Ok out.
Proof.
  induction gtemps as [|g gtemps IH]; intros tc k Hk Hfit; simpl.
  - rewrite take_nil, app_nil_r in Hfit. rewrite Hfit. eauto.
  - destruct (py_all (can_fit mem_limits tc)) eqn:E; [eauto|].
    destruct k as [|k]; simpl in *.
    + rewrite app_nil_r in Hfit. congruence.
    + apply (IH (tc ++ [g]) k); [lia|]. by rewrite <- app_assoc.
Qed.

(** X2: greedy promotion selects the shortest non-empty run of candidates
    that fits, the candidates being taken in the order of line 1352, by
    decreasing [np.prod] of the shape as numpy computes it (in 64 bits,
    with wrap-around): it succeeds exactly when some such run fits, and no
    shorter run fits than the one it returns. *)
Theorem greedy_promotion_least_prefix self mem_limits constants :
  (forall type_changes,
      greedy_promotion self mem_limits constants = Ok type_changes ->
      exists k, (1 <= k <= length (promotion_candidates constants))%nat
        /\ type_changes = take k (promotion_candidates constants)
        /\ py_all (can_fit mem_limits type_changes) = true
        /\ forall j, (1 <= j < k)%nat ->
             py_all (can_fit mem_limits (take j (promotion_candidates constants)))
             = false)
  /\ (forall k, (1 <= k <= length (promotion_candidates constants))%nat ->
        py_all (can_fit mem_limits (take k (promotion_candidates constants))) = true ->
        exists type_changes, greedy_promotion self mem_limits constants = Ok type_changes).
Proof.
  unfold greedy_promotion.
  destruct (promotion_candidates constants) as [|g gtemps]; simpl.
  - split; [discriminate|]. intros k Hk. lia.
  - split.
    + intros tc H. apply promote_least in H as (k & Hk & -> & Hfit & Hleast).
      exists (S k). simpl. split; [lia|]. split; [done|]. split; [done|].
      intros [|j] Hj; [lia|]. simpl. apply (Hleast j). lia.
    + intros [|k] Hk Hfit; [lia|]. simpl in Hfit.
      apply (promote_finds self mem_limits gtemps [g] k); [lia|done].
Qed.

Lemma greedy_promotion_least_prefix_witness :
  exists k,
    (1 <= k <= length (promotion_candidates [Samples.c4; Samples.sparse; Samples.c6]))%nat
    /\ [Samples.c6; Samples.c4]
       = take k (promotion_candidates [Samples.c4; Samples.sparse; Samples.c6])
    /\ py_all (can_fit (Samples.constant_budget 100
                          (Samples.generator opencl_kernel_generator [] [])
                          (classify [] [] [Samples.c4; Samples.sparse; Samples.c6]))
                       [Samples.c6; Samples.c4]) = true
    /\ forall j, (1 <= j < k)%nat ->
         py_all (can_fit (Samples.constant_budget 100
                            (Samples.generator opencl_kernel_generator [] [])
                            (classify [] [] [Samples.c4; Samples.sparse; Samples.c6]))
                         (take j (promotion_candidates
                                    [Samples.c4; Samples.sparse; Samples.c6])))
         = false.
Proof.
  apply (proj1 (greedy_promotion_least_prefix
                  (Samples.generator opencl_kernel_generator [] [])
                  (Samples.constant_budget 100
                     (Samples.generator opencl_kernel_generator [] [])
                     (classify [] [] [Samples.c4; Samples.sparse; Samples.c6]))
                  [Samples.c4; Samples.sparse; Samples.c6])).
  vm_compute. reflexivity.
Defined.

(** ** [_get_working_buffer]: what is accepted *)

Lemma working_buffer_loop_accepts self args : forall n offsets out,
  working_buffer_loop self args n offsets = Ok out ->
  Forall (fun arg => packable self arg = true) args.
Proof.
  induction args as [|arg args IH]; intros n offsets out; [by constructor|].
  simpl.
  destruct (is_integral (arg_dtype arg)) eqn:Hint; [discriminate|]. simpl.
  destruct (user_specified_work_size self) eqn:Huser; simpl.
  - intros H. constructor; [|by eapply IH].
    unfold packable. by rewrite Hint, Huser.
  - destruct (List.filter _ (arg_shape arg)) as [|s [|s2 l]] eqn:E; simpl;
      try discriminate.
    destruct (bool_decide (dim_str s = w_size_name)) eqn:Hs; [|discriminate].
    intros H. constructor; [|by eapply IH].
    unfold packable. rewrite Hint, Huser. simpl.
    apply bool_decide_eq_true. rewrite E. f_equal.
    apply bool_decide_eq_true in Hs.
    assert (In s (List.filter (fun d => negb (is_int d)) (arg_shape arg))) as Hin
        by (rewrite E; by left).
    apply filter_In in Hin as [_ Hsym].
    destruct s as [m|name]; [discriminate|]. simpl in Hs. by subst.
Qed.

Lemma working_buffer_loop_returns self args : forall n offsets,
  Forall (fun arg => packable self arg = true) args ->
  exists out, working_buffer_loop self args n offsets = Ok out.
Proof.
  induction args as [|arg args IH]; intros n offsets Hall; simpl; [eauto|].
  apply Forall_cons in Hall as [Harg Hall].
  unfold packable in Harg. apply andb_true_iff in Harg as [Hfloat Hshape].
  apply negb_true_iff in Hfloat. rewrite Hfloat.
  destruct (user_specified_work_size self); simpl; [by apply IH|].
  apply bool_decide_eq_true in Hshape. rewrite Hshape. simpl. by apply IH.
Qed.

(** X3: [_get_working_buffer] returns exactly for floating-point arrays
    that have the work size as their only symbolic dimension, or for any
    floating-point arrays when the user gave the work size; an array of
    integers, or of another shape, makes it raise. *)
Theorem working_buffer_accepts_iff self args :
  is_ok (_get_working_buffer self args) = true
  <-> Forall (fun arg => packable self arg = true) args.
Proof.
  unfold _get_working_buffer. split.
  - destruct (working_buffer_loop self args 0 ∅) as [out|] eqn:E; [|discriminate].
    intros _. by eapply working_buffer_loop_accepts.
  - intros Hall.
    destruct (working_buffer_loop_returns self args 0 ∅ Hall) as [out ->]. done.
Qed.

Lemma working_buffer_accepts_iff_witness :
  is_ok (_get_working_buffer (Samples.generator opencl_kernel_generator [] [])
                             [Samples.x; Samples.y]) = true.
Proof.
  apply (proj2 (working_buffer_accepts_iff
                  (Samples.generator opencl_kernel_generator [] [])
                  [Samples.x; Samples.y])).
  repeat constructor.
Defined.

(** ** [_process_args]: what a call that returns has done *)

Lemma elem_of_List_filter {A} (p : A -> bool) (l : list A) x :
  x ∈ List.filter p l <-> x ∈ l /\ p x = true.
Proof. by rewrite !list_elem_of_In, filter_In. Qed.

(** The steps of a call that returns. *)
Lemma process_args_returns self kernels use_subkernels r :
  _process_args self kernels use_subkernels = Ok r ->
  exists kernels1 kernel_data temps kernels2 local temps2,
    resolve_names (aliases_self self kernels) (gen_kernels self)
      (gather_args self (working_kernels self kernels use_subkernels))
      (Py.sorted_set
         (arg_name <$> gather_args self (working_kernels self kernels use_subkernels)))
      (working_kernels self kernels use_subkernels) []
    = Ok (kernels1, kernel_data)
    /\ resolve_temps (shared_temporaries self kernels1)
         (Py.sorted_set (tv_name <$> shared_temporaries self kernels1)) [] = Ok temps
    /\ (if hoist_locals self then hoist kernels1 [] temps
        else Ok (kernels1, [], temps)) = Ok (kernels2, local, temps2)
    /\ r = mkResolved
             (if aliases_self self kernels then kernels2 else gen_kernels self)
             kernels2 (List.filter (fun x => negb (is_value_arg x)) kernel_data)
             local (readonly_names kernels1) (List.filter tv_read_only temps2)
             (List.filter is_value_arg kernel_data).
Proof.
  unfold _process_args.
  destruct (resolve_names _ _ _ _ _ _) as [[kernels1 kernel_data]|] eqn:Hnames;
    [|discriminate].
  simpl.
  destruct (resolve_temps _ _ _) as [temps|] eqn:Htemps; [|discriminate]. simpl.
  destruct (if hoist_locals self then _ else _) as [[[kernels2 local] temps2]|] eqn:Hh;
    [|discriminate].
  simpl. intros [= <-].
  by exists kernels1, kernel_data, temps, kernels2, local, temps2.
Qed.

Lemma elem_of_partition (kernel_data : list KernelArgument) x :
  x ∈ List.filter (fun x => negb (is_value_arg x)) kernel_data
        ++ List.filter is_value_arg kernel_data
  <-> x ∈ kernel_data.
Proof.
  rewrite elem_of_app, !elem_of_List_filter.
  destruct (is_value_arg x); simpl; intuition congruence.
Qed.

Lemma NoDup_fmap_filter {A B} (f : A -> B) (p : A -> bool) (l : list A) :
  NoDup (f <$> l) -> NoDup (f <$> List.filter p l).
Proof.
  induction l as [|a l IH]; simpl; [done|].
  rewrite !NoDup_cons. intros [Hnin Hnd].
  destruct (p a); simpl; [|by apply IH].
  rewrite NoDup_cons. split; [|by apply IH].
  intros Hin. apply Hnin. apply list_elem_of_fmap in Hin as (y & -> & Hy).
  apply elem_of_List_filter in Hy as [Hy _]. apply list_elem_of_fmap. eauto.
Qed.

Lemma NoDup_partition_names (kernel_data : list KernelArgument) :
  NoDup (arg_name <$> kernel_data) ->
  NoDup (arg_name <$> (List.filter (fun x => negb (is_value_arg x)) kernel_data
                       ++ List.filter is_value_arg kernel_data)).
Proof.
  intros Hnd. rewrite fmap_app. apply NoDup_app. split; [|split].
  - by apply NoDup_fmap_filter.
  - intros n H1 H2.
    apply list_elem_of_fmap in H1 as (x & -> & Hx).
    apply list_elem_of_fmap in H2 as (y & Hxy & Hy).
    apply elem_of_List_filter in Hx as [Hx Hpx].
    apply elem_of_List_filter in Hy as [Hy Hpy].
    assert (x = y) as ->.
    { clear Hpx Hpy. induction kernel_data as [|a l IH]; [by apply elem_of_nil in Hx|].
      simpl in Hnd. apply NoDup_cons in Hnd as [Hnin Hnd].
      apply elem_of_cons in Hx as [->|Hx]; apply elem_of_cons in Hy as [->|Hy];
        try done.
      - exfalso. apply Hnin. rewrite Hxy. apply list_elem_of_fmap. eauto.
      - exfalso. apply Hnin. rewrite <- Hxy. apply list_elem_of_fmap. eauto.
      - by apply IH. }
    rewrite Hpy in Hpx. discriminate.
  - by apply NoDup_fmap_filter.
Qed.

Lemma alphabetical_NoDup names : alphabetical names -> NoDup names.
Proof.
  induction 1 as [|n names Hs IH Hall]; constructor; [|done].
  intros Hin. rewrite Forall_forall in Hall.
  by apply (name_lt_irrefl n), Hall.
Qed.

(** X4: when [_process_args] returns, every argument name of the kernels
    and of the extra kernel data is resolved to one entry, in [args] or in
    [valueargs], and to one only; [valueargs] holds the value arguments
    and [args] the others. *)
Theorem every_name_resolved_once self kernels use_subkernels r :
  _process_args self kernels use_subkernels = Ok r ->
  (forall n, n ∈ arg_name <$> (r_args r ++ r_valueargs r)
             <-> n ∈ arg_name <$> gather_args self
                                    (working_kernels self kernels use_subkernels))
  /\ NoDup (arg_name <$> (r_args r ++ r_valueargs r))
  /\ Forall (fun x => arg_class_of x = ValueArg) (r_valueargs r)
  /\ Forall (fun x => arg_class_of x <> ValueArg) (r_args r).
Proof.
  intros H.
  apply process_args_returns in H
    as (kernels1 & kernel_data & temps & kernels2 & local & temps2
        & Hnames & _ & _ & ->).
  apply resolve_names_names in Hnames. simpl in *.
  split; [|split; [|split]].
  - intros n.
    rewrite <- (elem_of_sorted_set n
                  (arg_name <$> gather_args self
                     (working_kernels self kernels use_subkernels))), <- Hnames.
    rewrite !list_elem_of_fmap.
    split; intros (x & -> & Hx); exists x; (split; [done|]);
      by apply elem_of_partition.
  - apply NoDup_partition_names. rewrite Hnames.
    apply alphabetical_NoDup, sorted_set_sorted.
  - apply Forall_forall. intros x Hx. apply elem_of_List_filter in Hx as [_ Hx].
    by apply bool_decide_eq_true in Hx.
  - apply Forall_forall. intros x Hx. apply elem_of_List_filter in Hx as [_ Hx].
    apply negb_true_iff in Hx. by apply bool_decide_eq_false in Hx.
Qed.

Lemma every_name_resolved_once_witness :
  exists r,
    _process_args (Samples.generator c_kernel_generator
                     [Samples.own; Samples.updates_k; Samples.reads_k] [])
                  SelfKernels true = Ok r
    /\ r_args r = [Samples.k_atomic; Samples.phi]
    /\ (forall n, n ∈ arg_name <$> (r_args r ++ r_valueargs r)
                  <-> n ∈ arg_name <$> gather_args
                            (Samples.generator c_kernel_generator
                               [Samples.own; Samples.updates_k; Samples.reads_k] [])
                            (working_kernels
                               (Samples.generator c_kernel_generator
                                  [Samples.own; Samples.updates_k; Samples.reads_k] [])
                               SelfKernels true))
    /\ NoDup (arg_name <$> (r_args r ++ r_valueargs r))
    /\ Forall (fun x => arg_class_of x = ValueArg) (r_valueargs r)
    /\ Forall (fun x => arg_class_of x <> ValueArg) (r_args r).
Proof.
  eexists. split; [vm_compute; reflexivity|]. split; [reflexivity|].
  apply (every_name_resolved_once
           (Samples.generator c_kernel_generator
              [Samples.own; Samples.updates_k; Samples.reads_k] [])
           SelfKernels true).
  vm_compute. reflexivity.
Defined.

Lemma atomify_idemp arg : atomify (atomify arg) = atomify arg.
Proof. by destruct arg as [c n [d|d] s]. Qed.

(** X5: an argument that [_process_args] returns is one of the arguments
    declared by the kernels or the extra kernel data; every declared
    argument of its name differs from it in atomicity at most, and a
    declared argument of its name that is atomic is the one returned. *)
Theorem atomic_variant_is_returned self kernels use_subkernels r x :
  _process_args self kernels use_subkernels = Ok r ->
  x ∈ r_args r ++ r_valueargs r ->
  x ∈ gather_args self (working_kernels self kernels use_subkernels)
  /\ forall y, y ∈ gather_args self (working_kernels self kernels use_subkernels) ->
               arg_name y = arg_name x ->
               _compare_args y x = true
               /\ (is_atomic (arg_dtype y) = true -> y = x).
Proof.
  intros H Hx.
  apply process_args_returns in H
    as (kernels1 & kernel_data & temps & kernels2 & local & temps2
        & Hnames & _ & _ & ->).
  simpl in Hx. rewrite elem_of_partition in Hx.
  apply resolve_names_canonical in Hnames as (kept & -> & Hkept);
    [|intros m; apply same_name_of_nonempty].
  simpl in Hx.
  assert (exists n, canonical n
            (gather_args self (working_kernels self kernels use_subkernels)) x)
    as (n & Hin & Hn & Hall).
  { clear -Hkept Hx. induction Hkept as [|n y ns ys Hy _ IH].
    - by apply elem_of_nil in Hx.
    - apply elem_of_cons in Hx as [->|Hx]; [eauto|by apply IH]. }
  split; [done|]. intros y Hy Hname.
  destruct (Hall y Hy ltac:(congruence)) as [->| ->].
  - split; [|done]. unfold _compare_args. by rewrite bool_decide_eq_true_2.
  - split.
    + unfold _compare_args. rewrite atomify_idemp.
      rewrite (bool_decide_eq_true_2 (atomify y = atomify y)) by done.
      apply orb_true_r.
    + intros Hat. by rewrite atomify_atomic.
Qed.

Lemma atomic_variant_is_returned_witness :
  exists r,
    _process_args (Samples.generator c_kernel_generator
                     [Samples.own; Samples.updates_k; Samples.reads_k] [])
                  SelfKernels true = Ok r
    /\ Samples.k_atomic
       ∈ gather_args (Samples.generator c_kernel_generator
                        [Samples.own; Samples.updates_k; Samples.reads_k] [])
           (working_kernels
              (Samples.generator c_kernel_generator
                 [Samples.own; Samples.updates_k; Samples.reads_k] [])
              SelfKernels true)
    /\ forall y,
         y ∈ gather_args (Samples.generator c_kernel_generator
                            [Samples.own; Samples.updates_k; Samples.reads_k] [])
               (working_kernels
                  (Samples.generator c_kernel_generator
                     [Samples.own; Samples.updates_k; Samples.reads_k] [])
                  SelfKernels true) ->
         arg_name y = arg_name Samples.k_atomic ->
         _compare_args y Samples.k_atomic = true
         /\ (is_atomic (arg_dtype y) = true -> y = Samples.k_atomic).
Proof.
  eexists. split; [vm_compute; reflexivity|].
  eapply (atomic_variant_is_returned
            (Samples.generator c_kernel_generator
               [Samples.own; Samples.updates_k; Samples.reads_k] [])
            SelfKernels true).
  - vm_compute. reflexivity.
  - vm_compute. constructor.
Defined.

(** ** [_process_args]: temporaries and hoisting *)

Lemma resolve_temps_spec copy names : forall temps temps',
  resolve_temps copy names temps = Ok temps' ->
  (forall t1 t2, t1 ∈ copy -> t2 ∈ copy -> tv_name t1 = tv_name t2 ->
                 tv_name t1 ∈ names -> t1 = t2)
  /\ (forall t, t ∈ temps' <-> t ∈ temps \/ (t ∈ copy /\ tv_name t ∈ names)).
Proof.
  induction names as [|name names IH]; intros temps temps'; simpl.
  - intros [= <-]. split.
    + intros t1 t2 _ _ _ H. by apply elem_of_nil in H.
    + intros t. rewrite elem_of_nil. tauto.
  - destruct (List.filter _ copy) as [|first others] eqn:E; [discriminate|].
    destruct (_ && _) eqn:Hcheck; [discriminate|].
    apply temps_check_passes in Hcheck.
    assert (forall t, t ∈ copy -> tv_name t = name -> t = first) as Hfirst.
    { intros t Ht Hn.
      assert (t ∈ first :: others) as Hin
          by (rewrite <- E; apply elem_of_List_filter;
              by rewrite bool_decide_eq_true).
      apply elem_of_cons in Hin as [->|Hin]; [done|].
      rewrite forallb_forall in Hcheck.
      apply list_elem_of_In, Hcheck in Hin. by apply bool_decide_eq_true in Hin. }
    assert (first ∈ copy /\ tv_name first = name) as [Hin Hname].
    { assert (first ∈ List.filter (fun x => bool_decide (tv_name x = name)) copy)
        as H by (rewrite E; by left).
      apply elem_of_List_filter in H as [H1 H2].
      by apply bool_decide_eq_true in H2. }
    intros H. apply IH in H as [Hagree Hmem]. split.
    + intros t1 t2 H1 H2 Hn Hnames.
      apply elem_of_cons in Hnames as [Hnames|Hnames].
      * rewrite (Hfirst t1), (Hfirst t2); congruence.
      * by apply Hagree.
    + intros t. rewrite Hmem, elem_of_app, list_elem_of_singleton, elem_of_cons.
      split.
      * intros [[?| ->]|[? ?]]; [by left|right|right]; split; auto.
      * intros [?|[Ht [Hn|Hn]]]; [by left; left| |by right].
        left; right. by apply Hfirst.
Qed.

Lemma migrate_local_temporaries knl :
  __migrate_locals knl (local_temporaries knl)
  = Ok (mkKernel (knl_name knl)
          (knl_args knl ++ (__argify <$> local_temporaries knl))
          (List.filter
             (fun kv => negb (bool_decide (fst kv ∈ tv_name <$> local_temporaries knl)))
             (knl_temporary_variables knl))
          (knl_written_variables knl)).
Proof.
  unfold __migrate_locals.
  assert (forallb (fun x => bool_decide (tv_scope x = LOCAL)) (local_temporaries knl)
          = true) as ->; [|done].
  apply forallb_forall. intros x Hx. by apply filter_In in Hx as [_ Hx].
Qed.

Lemma filter_twice {A} (p q : A -> bool) (l : list A) :
  List.filter q (List.filter p l) = List.filter (fun x => p x && q x) l.
Proof.
  induction l as [|a l IH]; simpl; [done|].
  destruct (p a); simpl; [|done]. destruct (q a); by rewrite IH.
Qed.

(** The hoisting loop always succeeds: every kernel with local temporaries
    is migrated, the local temporaries are collected in kernel order, and
    they are removed from the temporaries. *)
Lemma hoist_spec todo : forall local temps,
  hoist todo local temps
  = Ok (hoisted <$> todo, local ++ (todo ≫= local_temporaries),
        List.filter (fun x => negb (bool_decide (x ∈ todo ≫= local_temporaries)))
                    temps).
Proof.
  induction todo as [|knl todo IH]; intros local temps.
  - simpl. rewrite app_nil_r. do 3 f_equal.
    induction temps as [|t temps IHt]; simpl; [done|by f_equal].
  - change (hoist (knl :: todo) local temps)
      with (match local_temporaries knl with
            | [] =>
                '(kernels', local', temps') ← hoist todo local temps;
                Ok (knl :: kernels', local', temps')
            | _ :: _ =>
                knl' ← __migrate_locals knl (local_temporaries knl);
                '(kernels', local', temps') ←
                  hoist todo (local ++ local_temporaries knl)
                    (List.filter
                       (fun x => negb (bool_decide (x ∈ local_temporaries knl)))
                       temps);
                Ok (knl' :: kernels', local', temps')
            end).
    rewrite fmap_cons, bind_cons. unfold hoisted at 1.
    rewrite migrate_local_temporaries, !IH.
    destruct (local_temporaries knl) as [|t ts] eqn:E.
    + done.
    + rewrite <- E. cbn [mbind result_bind]. rewrite <- app_assoc, filter_twice.
      do 2 f_equal.
      apply filter_ext. intros x. rewrite <- negb_orb. f_equal.
      apply eq_true_iff_eq.
      by rewrite orb_true_iff, !bool_decide_eq_true, elem_of_app.
Qed.

Lemma temporaries_hoisted knl t : t ∈ temporaries (hoisted knl) -> t ∈ temporaries knl.
Proof.
  unfold hoisted. destruct (local_temporaries knl); [done|].
  unfold temporaries. simpl. rewrite !list_elem_of_fmap.
  intros (kv & -> & Hkv). apply elem_of_List_filter in Hkv as [Hkv _]. eauto.
Qed.

Lemma shared_temporaries_hoisted self kernels t :
  t ∈ shared_temporaries self (hoisted <$> kernels) ->
  t ∈ shared_temporaries self kernels.
Proof.
  unfold shared_temporaries. rewrite !elem_of_app, !elem_of_List_filter.
  intros [[Ht Hs]|Ht]; [left|by right]. split; [|done].
  apply list_elem_of_bind in Ht as (knl' & Ht & Hknl).
  apply list_elem_of_fmap in Hknl as (knl & -> & Hknl).
  apply list_elem_of_bind. exists knl. split; [|done].
  by apply temporaries_hoisted.
Qed.

Lemma shared_temporaries_shared self kernels t :
  t ∈ shared_temporaries self kernels -> shared_scope t = true.
Proof.
  unfold shared_temporaries. rewrite elem_of_app, elem_of_List_filter.
  intros [[_ H]|H]; [done|].
  unfold extra_temporaries in H. apply list_elem_of_omap in H as (x & _ & Hx).
  destruct x as [a|t']; [discriminate|].
  destruct (shared_scope t') eqn:Hs; [|discriminate]. by injection Hx as <-.
Qed.

(** X6: when [_process_args] returns, the temporaries of one name that the
    kernels and the extra kernel data keep outside private memory are all
    equal; the constants returned are read-only and not private, and for a
    generator that does not hoist they are exactly the read-only ones
    among those temporaries. *)
Theorem shared_temporaries_agree self kernels use_subkernels r :
  _process_args self kernels use_subkernels = Ok r ->
  (forall t1 t2, t1 ∈ shared_temporaries self (r_kernels r) ->
                 t2 ∈ shared_temporaries self (r_kernels r) ->
                 tv_name t1 = tv_name t2 -> t1 = t2)
  /\ Forall (fun t => tv_read_only t = true /\ shared_scope t = true) (r_constants r)
  /\ (hoist_locals self = false ->
      r_local r = []
      /\ forall t, t ∈ r_constants r
                   <-> t ∈ shared_temporaries self (r_kernels r)
                       /\ tv_read_only t = true).
Proof.
  intros H.
  apply process_args_returns in H
    as (kernels1 & kernel_data & temps & kernels2 & local & temps2
        & _ & Htemps & Hhoist & ->).
  apply resolve_temps_spec in Htemps as [Hagree Hmem]. simpl.
  assert (forall t, t ∈ temps <-> t ∈ shared_temporaries self kernels1) as Hmem'.
  { intros t. rewrite Hmem, elem_of_nil. split.
    - by intros [[]|[? _]].
    - intros Ht. right. split; [done|].
      apply elem_of_sorted_set, list_elem_of_fmap. eauto. }
  assert (forall t1 t2, t1 ∈ shared_temporaries self kernels1 ->
                        t2 ∈ shared_temporaries self kernels1 ->
                        tv_name t1 = tv_name t2 -> t1 = t2) as Hagree'.
  { intros t1 t2 H1 H2 Hn. apply Hagree; try done.
    apply elem_of_sorted_set, list_elem_of_fmap. eauto. }
  destruct (hoist_locals self).
  - rewrite hoist_spec in Hhoist. injection Hhoist as <- <- <-.
    split; [|split; [|discriminate]].
    + intros t1 t2 H1 H2. apply Hagree'; by apply shared_temporaries_hoisted.
    + apply Forall_forall. intros t Ht.
      apply elem_of_List_filter in Ht as [Ht Hro].
      apply elem_of_List_filter in Ht as [Ht _].
      split; [done|]. eapply shared_temporaries_shared. by apply Hmem'.
  - injection Hhoist as <- <- <-.
    split; [done|]. split; [|split; [done|]].
    + apply Forall_forall. intros t Ht.
      apply elem_of_List_filter in Ht as [Ht Hro].
      split; [done|]. eapply shared_temporaries_shared. by apply Hmem'.
    + intros t. by rewrite elem_of_List_filter, Hmem'.
Qed.

Lemma shared_temporaries_agree_witness :
  exists r,
    _process_args (Samples.generator c_kernel_generator
                     [Samples.uses_scratch; Samples.uses_scratch] [])
                  SelfKernels true = Ok r
    /\ (forall t1 t2,
          t1 ∈ shared_temporaries
                 (Samples.generator c_kernel_generator
                    [Samples.uses_scratch; Samples.uses_scratch] []) (r_kernels r) ->
          t2 ∈ shared_temporaries
                 (Samples.generator c_kernel_generator
                    [Samples.uses_scratch; Samples.uses_scratch] []) (r_kernels r) ->
          tv_name t1 = tv_name t2 -> t1 = t2)
    /\ Forall (fun t => tv_read_only t = true /\ shared_scope t = true) (r_constants r)
    /\ (hoist_locals (Samples.generator c_kernel_generator
                        [Samples.uses_scratch; Samples.uses_scratch] []) = false ->
        r_local r = []
        /\ forall t, t ∈ r_constants r
                     <-> t ∈ shared_temporaries
                               (Samples.generator c_kernel_generator
                                  [Samples.uses_scratch; Samples.uses_scratch] [])
                               (r_kernels r)
                         /\ tv_read_only t = true).
Proof.
  eexists. split; [vm_compute; reflexivity|].
  apply (shared_temporaries_agree
           (Samples.generator c_kernel_generator
              [Samples.uses_scratch; Samples.uses_scratch] [])
           SelfKernels true).
  vm_compute. reflexivity.
Defined.

Lemma rewrite_kernels_Forall (P : LoopKernel -> Prop) other atomic todo :
  (forall knl, P knl -> P (replace_arg other atomic knl)) ->
  forall kernels kernels',
    Forall (fun p : nat * LoopKernel => P (snd p)) todo -> Forall P kernels ->
    rewrite_kernels todo kernels other atomic = Ok kernels' -> Forall P kernels'.
Proof.
  intros Hrep. induction todo as [|[i knl] todo IH]; intros kernels kernels'; simpl.
  - by intros _ ? [= <-].
  - intros Htodo Hk. apply Forall_cons in Htodo as [Hknl Htodo].
    destruct (bool_decide _); [|by apply IH].
    unfold setitem. destruct (decide _); [|discriminate]. simpl.
    apply IH; [done|]. apply Forall_insert; [done|]. by apply Hrep.
Qed.

Lemma nat_enumerate_Forall {A} (P : A -> Prop) (l : list A) :
  Forall P l -> Forall (fun p : nat * A => P (snd p)) (nat_enumerate l).
Proof.
  intros Hl. apply Forall_forall. intros [i x] Hin.
  apply elem_of_zip_r in Hin. rewrite Forall_forall in Hl. by apply Hl.
Qed.

Lemma resolve_names_Forall (P : LoopKernel -> Prop) alias self_kernels args nameset :
  (forall other atomic knl,
      atomic ∈ args -> P knl -> P (replace_arg other atomic knl)) ->
  Forall P self_kernels ->
  forall kernels kernel_data kernels' kernel_data',
    Forall P kernels ->
    resolve_names alias self_kernels args nameset kernels kernel_data
    = Ok (kernels', kernel_data') ->
    Forall P kernels'.
Proof.
  intros Hrep Hself.
  induction nameset as [|name nameset IH]; intros kernels kd kernels' kd' Hk; simpl.
  - by intros [= <- <-].
  - destruct (decide _) as [Hlen|Hlen].
    + destruct (resolve_same_name _ _ _) as [[k sn]|] eqn:E; [|discriminate].
      simpl. destruct (pop sn) as [x|]; [|discriminate]. simpl.
      apply IH. revert E. unfold resolve_same_name.
      destruct (List.find _ _) as [atomic|] eqn:Hfind; [|discriminate].
      apply find_some in Hfind as [Hfind _].
      apply list_elem_of_In, elem_of_same_name_of in Hfind as [Hfind _].
      destruct (decide _); [discriminate|].
      destruct (List.find _ _) as [other|]; [|discriminate].
      destruct (negb _); [discriminate|].
      destruct (rewrite_kernels _ _ _ _) as [k'|] eqn:Hrw; [|discriminate].
      simpl. intros [= <- <-].
      eapply rewrite_kernels_Forall; [intros knl; by apply Hrep| |exact Hk|exact Hrw].
      apply nat_enumerate_Forall. by destruct alias.
    + simpl. destruct (pop _) as [x|]; [|discriminate]. simpl. by apply IH.
Qed.

Lemma hoisted_no_local_temporaries knl :
  well_keyed knl -> no_local_temporaries (hoisted knl).
Proof.
  intros Hkeyed. unfold no_local_temporaries, hoisted.
  destruct (local_temporaries knl) as [|l ls] eqn:E.
  - apply Forall_forall. intros t Ht Hlocal.
    assert (t ∈ local_temporaries knl) as Hin
        by (apply elem_of_List_filter; by rewrite bool_decide_eq_true).
    rewrite E in Hin. by apply elem_of_nil in Hin.
  - rewrite <- E. apply Forall_forall. intros t Ht Hlocal.
    unfold temporaries in Ht. simpl in Ht.
    apply list_elem_of_fmap in Ht as (kv & -> & Hkv).
    apply elem_of_List_filter in Hkv as [Hkv Hout].
    apply negb_true_iff, bool_decide_eq_false in Hout. apply Hout.
    unfold well_keyed in Hkeyed. rewrite Forall_forall in Hkeyed.
    rewrite (Hkeyed kv Hkv). apply list_elem_of_fmap. exists (snd kv).
    split; [done|]. apply elem_of_List_filter.
    rewrite bool_decide_eq_true. split; [|done].
    apply list_elem_of_fmap. eauto.
Qed.

(** X7: with a generator that hoists (OpenCL), when [_process_args] returns
    no kernel it leaves behind holds a temporary in local memory, and every
    temporary of the list [local] is a local one that some kernel now
    takes as a local array argument.  The temporaries of a kernel are kept
    under their names, as loopy keeps them. *)
Theorem local_temporaries_are_hoisted self kernels use_subkernels r :
  hoist_locals self = true ->
  Forall well_keyed (gen_kernels self) ->
  Forall well_keyed (working_kernels self kernels use_subkernels) ->
  _process_args self kernels use_subkernels = Ok r ->
  Forall no_local_temporaries (r_kernels r)
  /\ Forall (fun t => tv_scope t = LOCAL
                      /\ exists knl, knl ∈ r_kernels r /\ __argify t ∈ knl_args knl)
            (r_local r).
Proof.
  intros Hh Hself Hkernels H.
  apply process_args_returns in H
    as (kernels1 & kernel_data & temps & kernels2 & local & temps2
        & Hnames & _ & Hhoist & ->).
  rewrite Hh, hoist_spec in Hhoist. injection Hhoist as <- <- <-. simpl.
  apply (resolve_names_Forall well_keyed) in Hnames; [|done|done|done].
  split.
  - apply Forall_fmap, Forall_forall. intros knl Hknl. simpl.
    apply hoisted_no_local_temporaries.
    rewrite Forall_forall in Hnames. by apply Hnames.
  - apply Forall_forall. intros t Ht.
    apply list_elem_of_bind in Ht as (knl & Ht & Hknl).
    pose proof Ht as Hlocal.
    apply elem_of_List_filter in Hlocal as [_ Hlocal].
    apply bool_decide_eq_true in Hlocal. split; [done|].
    exists (hoisted knl). split; [apply list_elem_of_fmap; eauto|].
    unfold hoisted. destruct (local_temporaries knl) as [|l ls] eqn:E;
      [by apply elem_of_nil in Ht|].
    cbn [knl_args]. apply elem_of_app. right.
    apply (list_elem_of_fmap_2 __argify). done.
Qed.

Lemma local_temporaries_are_hoisted_witness :
  exists r,
    _process_args (Samples.generator opencl_kernel_generator [Samples.uses_scratch] [])
                  SelfKernels true = Ok r
    /\ r_local r = [Samples.scratch]
    /\ Forall no_local_temporaries (r_kernels r)
    /\ Forall (fun t => tv_scope t = LOCAL
                        /\ exists knl, knl ∈ r_kernels r /\ __argify t ∈ knl_args knl)
              (r_local r).
Proof.
  eexists. split; [vm_compute; reflexivity|]. split; [reflexivity|].
  apply (local_temporaries_are_hoisted
           (Samples.generator opencl_kernel_generator [Samples.uses_scratch] [])
           SelfKernels true).
  - reflexivity.
  - repeat constructor.
  - repeat constructor.
  - vm_compute. reflexivity.
Defined.

(** ** Host constants: [_migrate_host_constants] *)

Lemma elem_of_transferred kernel host_constants key :
  key ∈ transferred kernel host_constants
  <-> key ∈ tv_name <$> host_constants
      /\ key ∈ fst <$> knl_temporary_variables kernel.
Proof.
  unfold transferred.
  by rewrite elem_of_list_to_set, elem_of_List_filter, bool_decide_eq_true.
Qed.

Lemma filter_nothing {A} (p : A -> bool) (l : list A) :
  (forall x, x ∈ l -> p x = false) -> List.filter p l = [].
Proof.
  induction l as [|a l IH]; intros H; simpl; [done|].
  rewrite (H a) by by left. apply IH. intros x Hx. apply H. by right.
Qed.

Lemma filter_everything {A} (p : A -> bool) (l : list A) :
  (forall x, x ∈ l -> p x = true) -> List.filter p l = l.
Proof.
  induction l as [|a l IH]; intros H; simpl; [done|].
  rewrite (H a) by by left. f_equal. apply IH. intros x Hx. apply H. by right.
Qed.

(** The two branches of the function give the same kernel: with nothing
    to transfer the filters keep every temporary and add no argument. *)
Lemma migrate_host_constants_eq kernel host_constants :
  _migrate_host_constants kernel host_constants
  = mkKernel (knl_name kernel)
      (knl_args kernel
       ++ (global_arg_of
           <$> List.filter
                 (fun item => bool_decide (fst item ∈ transferred kernel host_constants))
                 (knl_temporary_variables kernel)))
      (List.filter
         (fun item => negb (bool_decide (fst item ∈ transferred kernel host_constants)))
         (knl_temporary_variables kernel))
      (knl_written_variables kernel).
Proof.
  unfold _migrate_host_constants.
  destruct (bool_decide (transferred kernel host_constants <> ∅)) eqn:E; [done|].
  apply bool_decide_eq_false in E.
  assert (transferred kernel host_constants = ∅) as -> by (by apply dec_stable).
  rewrite filter_nothing, filter_everything, app_nil_r; [by destruct kernel| |].
  - intros x _. by rewrite bool_decide_eq_false_2 by apply not_elem_of_empty.
  - intros x _. by rewrite bool_decide_eq_false_2 by apply not_elem_of_empty.
Qed.

Lemma filter_split_perm {A} (p : A -> bool) (l : list A) :
  List.filter p l ++ List.filter (fun x => negb (p x)) l ≡ₚ l.
Proof.
  induction l as [|a l IH]; simpl; [done|].
  destruct (p a); simpl; [by f_equiv|].
  by rewrite <- Permutation_middle, IH.
Qed.

(** X8: [_migrate_host_constants] keeps the name and the arguments of the
    kernel and turns the temporaries that are host constants into global
    arguments of the same name, type and shape, after the arguments the
    kernel has: no temporary is lost or duplicated, no host constant is
    left among the temporaries, and a second migration changes nothing. *)
Theorem host_constants_become_arguments kernel host_constants :
  exists new_args,
    knl_name (_migrate_host_constants kernel host_constants) = knl_name kernel
    /\ knl_args (_migrate_host_constants kernel host_constants)
       = knl_args kernel ++ new_args
    /\ Forall (fun a => arg_class_of a = GlobalArg
                        /\ exists t, (arg_name a, t) ∈ knl_temporary_variables kernel
                                     /\ arg_name a ∈ tv_name <$> host_constants
                                     /\ arg_dtype a = tv_dtype t
                                     /\ arg_shape a = DInt <$> tv_shape t)
              new_args
    /\ (arg_name <$> new_args)
       ++ (fst <$> knl_temporary_variables
                     (_migrate_host_constants kernel host_constants))
       ≡ₚ fst <$> knl_temporary_variables kernel
    /\ (forall key,
          key ∈ fst <$> knl_temporary_variables
                          (_migrate_host_constants kernel host_constants) ->
          key ∉ tv_name <$> host_constants)
    /\ _migrate_host_constants (_migrate_host_constants kernel host_constants)
                               host_constants
       = _migrate_host_constants kernel host_constants.
Proof.
  assert (forall key,
            key ∈ fst <$> knl_temporary_variables
                            (_migrate_host_constants kernel host_constants) ->
            key ∉ tv_name <$> host_constants) as Hout.
  { rewrite migrate_host_constants_eq. cbn [knl_temporary_variables].
    intros key Hkey Hhost. apply list_elem_of_fmap in Hkey as (item & -> & Hitem).
    apply elem_of_List_filter in Hitem as [Hitem Hnot].
    apply negb_true_iff, bool_decide_eq_false in Hnot. apply Hnot.
    apply elem_of_transferred. split; [done|]. by apply list_elem_of_fmap_2. }
  eexists. split; [|split; [|split; [|split; [|split; [exact Hout|]]]]].
  - by rewrite migrate_host_constants_eq.
  - rewrite migrate_host_constants_eq. reflexivity.
  - apply Forall_fmap, Forall_forall. intros [key t] Hitem.
    apply elem_of_List_filter in Hitem as [Hitem Hin].
    apply bool_decide_eq_true, elem_of_transferred in Hin as [Hhost _].
    simpl. split; [done|]. by exists t.
  - rewrite migrate_host_constants_eq. cbn [knl_temporary_variables].
    rewrite <- list_fmap_compose, <- fmap_app.
    apply fmap_Permutation.
    apply (filter_split_perm
             (fun item => bool_decide (fst item ∈ transferred kernel host_constants))).
  - set (migrated := _migrate_host_constants kernel host_constants) in *.
    unfold _migrate_host_constants at 1.
    rewrite bool_decide_eq_false_2; [done|].
    intros Hne. apply Hne. apply set_eq. intros key.
    rewrite elem_of_transferred. split; [|by intros ?%not_elem_of_empty].
    intros [Hhost Hkey]. by apply Hout in Hkey.
Qed.

(** ** Lists without repetition: [make_kernel], [_set_sort] *)

Lemma dedup_kernel_data_snoc `{EqDecision A} (data : list A) (k : A) :
  dedup_kernel_data (data ++ [k])
  = if bool_decide (k ∈ dedup_kernel_data data) then dedup_kernel_data data
    else dedup_kernel_data data ++ [k].
Proof. unfold dedup_kernel_data. by rewrite foldl_snoc. Qed.

Lemma elem_of_dedup_kernel_data `{EqDecision A} (data : list A) (x : A) :
  x ∈ dedup_kernel_data data <-> x ∈ data.
Proof.
  induction data as [|k data IH] using rev_ind; [done|].
  rewrite dedup_kernel_data_snoc, elem_of_app, list_elem_of_singleton.
  destruct (bool_decide _) eqn:E.
  - apply bool_decide_eq_true in E. rewrite IH. split; [tauto|].
    intros [?| ->]; [done|]. by apply IH.
  - by rewrite elem_of_app, list_elem_of_singleton, IH.
Qed.

Lemma NoDup_dedup_kernel_data `{EqDecision A} (data : list A) :
  NoDup (dedup_kernel_data data).
Proof.
  induction data as [|k data IH] using rev_ind; [constructor|].
  rewrite dedup_kernel_data_snoc. destruct (bool_decide _) eqn:E; [done|].
  apply bool_decide_eq_false in E. apply NoDup_app. split; [done|]. split.
  - intros x Hx ->%list_elem_of_singleton. done.
  - apply NoDup_singleton.
Qed.

Lemma dedup_kernel_data_NoDup `{EqDecision A} (data : list A) :
  NoDup data -> dedup_kernel_data data = data.
Proof.
  induction data as [|k data IH] using rev_ind; [done|].
  intros Hnd. apply NoDup_app in Hnd as (Hnd & Hk & _).
  rewrite dedup_kernel_data_snoc, IH by done.
  rewrite bool_decide_eq_false_2; [done|].
  intros Hin. apply (Hk k Hin). by left.
Qed.

(** X9: the check for duplicate kernel data of [make_kernel] returns every
    entry once: the result has no repetition, holds the entries of the
    list and no other, is left alone by a second pass, and a list without
    repetition is returned as it is. *)
Theorem kernel_data_without_duplicates `{EqDecision A} (data : list A) :
  NoDup (dedup_kernel_data data)
  /\ (forall x, x ∈ dedup_kernel_data data <-> x ∈ data)
  /\ dedup_kernel_data (dedup_kernel_data data) = dedup_kernel_data data
  /\ (NoDup data -> dedup_kernel_data data = data).
Proof.
  split; [apply NoDup_dedup_kernel_data|].
  split; [apply elem_of_dedup_kernel_data|].
  split; [|apply dedup_kernel_data_NoDup].
  apply dedup_kernel_data_NoDup, NoDup_dedup_kernel_data.
Qed.

Lemma index_of_spec (x : string) (arr : list string) :
  x ∈ arr ->
  arr !! index_of x arr = Some x
  /\ forall j, (j < index_of x arr)%nat -> arr !! j <> Some x.
Proof.
  intros Hin. unfold index_of.
  destruct (list_find_elem_of (fun y => y = x) arr x Hin eq_refl) as [[i y] Hfind].
  rewrite Hfind. simpl.
  apply list_find_Some in Hfind as (Hi & -> & Hfirst).
  split; [done|]. intros j Hj Hjx. by apply (Hfirst j x).
Qed.

Lemma index_of_inj (x y : string) (arr : list string) :
  x ∈ arr -> y ∈ arr -> index_of x arr = index_of y arr -> x = y.
Proof.
  intros Hx Hy Heq.
  apply index_of_spec in Hx as [Hx _]. apply index_of_spec in Hy as [Hy _].
  congruence.
Qed.

Lemma index_of_prefix (x : string) (l rest : list string) :
  x ∈ l -> (index_of x (l ++ rest) < length l)%nat.
Proof.
  intros Hin.
  assert (x ∈ l ++ rest) as Hin' by (apply elem_of_app; by left).
  apply index_of_spec in Hin' as [_ Hfirst].
  apply list_elem_of_lookup in Hin as [i Hi].
  pose proof (lookup_lt_Some _ _ _ Hi) as Hlt.
  destruct (decide (index_of x (l ++ rest) <= i)%nat) as [?|Hgt]; [lia|].
  exfalso. apply (Hfirst i); [lia|]. by rewrite lookup_app_l.
Qed.

Lemma index_of_suffix (x : string) (l rest : list string) :
  x ∉ l -> x ∈ rest -> (length l <= index_of x (l ++ rest))%nat.
Proof.
  intros Hnin Hin.
  assert (x ∈ l ++ rest) as Hin' by (apply elem_of_app; by right).
  apply index_of_spec in Hin' as [Hat _].
  destruct (decide (length l <= index_of x (l ++ rest))%nat) as [?|Hlt]; [done|].
  exfalso. apply Hnin. rewrite lookup_app_l in Hat by lia.
  by eapply list_elem_of_lookup_2.
Qed.

(** The entries that [make_kernel]'s loop keeps are in the order of their
    first position in the list. *)
Lemma dedup_kernel_data_sorted (l : list string) : forall rest,
  StronglySorted
    (fun x y => (index_of x (l ++ rest) <= index_of y (l ++ rest))%nat)
    (dedup_kernel_data l).
Proof.
  induction l as [|k l IH] using rev_ind; intros rest; [constructor|].
  rewrite dedup_kernel_data_snoc. rewrite <- app_assoc.
  destruct (bool_decide _) eqn:E; [apply IH|].
  apply bool_decide_eq_false in E. rewrite elem_of_dedup_kernel_data in E.
  apply StronglySorted_app_2; [|apply IH|repeat constructor].
  intros x y Hx ->%list_elem_of_singleton.
  rewrite elem_of_dedup_kernel_data in Hx.
  pose proof (index_of_prefix x l ([k] ++ rest) Hx).
  pose proof (index_of_suffix k l ([k] ++ rest) E ltac:(by left)). lia.
Qed.

(** X10: [_set_sort], which sorts the set of the entries by their first
    position, and the loop of [make_kernel], which appends an entry unless
    it is there, give the same list: both keep the first occurrence of
    every entry, in the order of the list. *)
Theorem set_sort_keeps_first_occurrences (arr : list string) :
  _set_sort arr = dedup_kernel_data arr
  /\ NoDup (_set_sort arr)
  /\ (forall x, x ∈ _set_sort arr <-> x ∈ arr)
  /\ forall i j x y, _set_sort arr !! i = Some x -> _set_sort arr !! j = Some y ->
                     (i < j)%nat -> (index_of x arr < index_of y arr)%nat.
Proof.
  assert (_set_sort arr = dedup_kernel_data arr) as Heq.
  { unfold _set_sort.
    apply (StronglySorted_unique_strong
             (fun x y => (index_of x arr <= index_of y arr)%nat)).
    - intros x y Hx Hy H1 H2.
      rewrite elem_of_sorted, elem_of_elements, elem_of_list_to_set in Hx.
      rewrite elem_of_dedup_kernel_data in Hy.
      apply (index_of_inj x y arr Hx Hy). lia.
    - eapply StronglySorted_impl; [|apply sorted_StronglySorted].
      + intros x y H. by apply bool_decide_eq_true in H.
      + intros x y. rewrite !bool_decide_eq_true. lia.
      + intros x y z H1 H2. apply bool_decide_eq_true in H1, H2.
        apply bool_decide_eq_true. lia.
    - pose proof (dedup_kernel_data_sorted arr []) as H.
      by rewrite app_nil_r in H.
    - rewrite sorted_perm. apply NoDup_Permutation.
      + apply NoDup_elements.
      + apply NoDup_dedup_kernel_data.
      + intros x.
        by rewrite elem_of_elements, elem_of_list_to_set, elem_of_dedup_kernel_data. }
  split; [done|]. rewrite Heq.
  split; [apply NoDup_dedup_kernel_data|].
  split; [apply elem_of_dedup_kernel_data|].
  intros i j x y Hi Hj Hlt.
  pose proof (dedup_kernel_data_sorted arr []) as Hs. rewrite app_nil_r in Hs.
  pose proof (NoDup_dedup_kernel_data arr) as Hnd.
  assert (index_of x arr <= index_of y arr)%nat as Hle.
  { rewrite <- (take_drop_middle _ _ _ Hj) in Hs.
    apply (StronglySorted_app_1_elem_of _ _ _ x y) in Hs; [done| |by left].
    apply list_elem_of_lookup. exists i. rewrite lookup_take_lt by done. done. }
  destruct (decide (index_of x arr = index_of y arr)) as [Hxy|]; [|lia].
  apply index_of_inj in Hxy.
  - subst y. pose proof (NoDup_lookup _ _ _ _ Hnd Hi Hj). lia.
  - apply (proj1 (elem_of_dedup_kernel_data arr x)). by eapply list_elem_of_lookup_2.
  - apply (proj1 (elem_of_dedup_kernel_data arr y)). by eapply list_elem_of_lookup_2.
Qed.

(** ** Barrier insertion: where the barriers go *)

Section BarrierPlacement.

Variable line_end : string.

Lemma barriers_before_app done more i :
  barriers_before line_end (done ++ more) i
  = barriers_before line_end done i ++ barriers_before line_end more i.
Proof. unfold barriers_before. apply bind_app. Qed.

Lemma barriers_before_absent done i :
  i ∉ (fun barrier : Z * Z * string => snd (fst barrier)) <$> done ->
  barriers_before line_end done i = [].
Proof.
  induction done as [|b done IH]; intros Hnin; [done|].
  rewrite fmap_cons, not_elem_of_cons in Hnin. destruct Hnin as [Hne Hnin].
  unfold barriers_before. rewrite bind_cons.
  destruct (decide _) as [Heq|_]; [by rewrite Heq in Hne|].
  by apply IH.
Qed.

Lemma barriers_before_one b template :
  barrier_templates (snd b) = Some template ->
  barriers_before line_end [b] (snd (fst b)) = [template +:+ line_end].
Proof.
  intros Ht. unfold barriers_before. rewrite bind_cons.
  destruct (decide _) as [_|Hne]; [|done]. by rewrite Ht.
Qed.

Lemma tagged_barriers_before_other done b inst :
  snd (fst b) <> fst inst ->
  tagged_barriers_before line_end (done ++ [b]) inst
  = tagged_barriers_before line_end done inst.
Proof.
  intros Hne. unfold tagged_barriers_before. rewrite barriers_before_app.
  unfold barriers_before at 2. rewrite bind_cons.
  destruct (decide _) as [Heq|_]; [done|]. simpl. by rewrite app_nil_r.
Qed.

Lemma enumerate_from_ge {A} (l : list A) : forall i,
  Forall (fun inst : Z * A => i <= fst inst) (Py.enumerate_from i l).
Proof.
  induction l as [|x l IH]; intros i; simpl; constructor; [simpl; lia|].
  eapply Forall_impl; [apply IH|]. simpl. intros. lia.
Qed.

(** Where the loop finds the instruction a barrier goes in front of, and
    what the instructions are once the barrier is there. *)
Lemma barrier_position done b template l : forall i,
  0 <= i -> i <= snd (fst b) < i + Z.of_nat (length l) ->
  snd (fst b) ∉ (fun barrier : Z * Z * string => snd (fst barrier)) <$> done ->
  barrier_templates (snd b) = Some template ->
  exists P s Q,
    Py.enumerate_from i l ≫= tagged_barriers_before line_end done
    = P ++ (snd (fst b), s) :: Q
    /\ Forall (fun inst => fst inst <> snd (fst b)) P
    /\ (i = snd (fst b) -> P = [])
    /\ (i < snd (fst b) -> exists P' s', P = P' ++ [(snd (fst b) - 1, s')])
    /\ Py.enumerate_from i l ≫= tagged_barriers_before line_end (done ++ [b])
       = P ++ (-1, template +:+ line_end) :: (snd (fst b), s) :: Q.
Proof.
  induction l as [|x l IH]; intros i Hi Hrange Hnin Ht; [simpl in Hrange; lia|].
  cbn [Py.enumerate_from]. rewrite !bind_cons.
  destruct (decide (i = snd (fst b))) as [->|Hne].
  - exists [], x, (Py.enumerate_from (snd (fst b) + 1) l
                   ≫= tagged_barriers_before line_end done).
    split; [|split; [done|split; [done|split; [lia|]]]].
    + unfold tagged_barriers_before at 1. cbn [fst].
      by rewrite barriers_before_absent.
    + unfold tagged_barriers_before at 1. cbn [fst].
      rewrite barriers_before_app, barriers_before_absent by done.
      rewrite (barriers_before_one b template Ht). simpl. do 2 f_equal.
      apply Forall_bind_ext.
      eapply Forall_impl; [apply enumerate_from_ge|].
      intros inst Hge. simpl in Hge. apply tagged_barriers_before_other. lia.
  - destruct (IH (i + 1)) as (P & s & Q & Heq & Hall & Hnil & Hlast & Heq');
      [lia|simpl in Hrange; lia|done|done|].
    exists (tagged_barriers_before line_end done (i, x) ++ P), s, Q.
    split; [by rewrite Heq, app_assoc|].
    split; [|split; [done|split]].
    + apply Forall_app. split; [|done].
      unfold tagged_barriers_before. apply Forall_app. split.
      * apply Forall_fmap, Forall_forall. intros text _. simpl. lia.
      * constructor; [simpl; lia|constructor].
    + intros Hlt. destruct (decide (i + 1 = snd (fst b))) as [Hnext|Hfar].
      * rewrite (Hnil Hnext), app_nil_r. unfold tagged_barriers_before.
        eexists _, x. do 2 f_equal. cbn [fst]. f_equal. lia.
      * destruct Hlast as (P' & s' & ->); [lia|].
        exists (tagged_barriers_before line_end done (i, x) ++ P'), s'.
        by rewrite app_assoc.
    + rewrite Heq', tagged_barriers_before_other by (simpl; lia).
      by rewrite app_assoc.
Qed.

Lemma insert_barrier_step done b rest instructions :
  well_placed (length instructions) b ->
  snd (fst b) ∉ (fun barrier : Z * Z * string => snd (fst barrier)) <$> done ->
  insert_barriers line_end (b :: rest)
    (Py.enumerate instructions ≫= tagged_barriers_before line_end done)
  = insert_barriers line_end rest
      (Py.enumerate instructions ≫= tagged_barriers_before line_end (done ++ [b])).
Proof.
  intros (Hrange & Hbefore & [template Ht]) Hnin.
  destruct (barrier_position done b template instructions 0)
    as (P & s & Q & Heq & Hall & _ & Hlast & Heq'); [lia|lia|done|done|].
  destruct Hlast as (P' & s' & ->); [lia|].
  unfold Py.enumerate. rewrite Heq, Heq'. clear Heq Heq'.
  destruct b as [[b0 b1] kind]. cbn [fst snd] in *. cbn [insert_barriers].
  match goal with
  | |- context [list_find ?p ?l] =>
      assert (list_find p l = Some (length (P' ++ [(b1 - 1, s')]), (b1, s))) as ->
  end.
  { apply list_find_Some. split; [by apply list_lookup_middle|]. split; [done|].
    intros j y Hj Hlt. rewrite lookup_app_l in Hj by done.
    rewrite Forall_forall in Hall. apply Hall. by eapply list_elem_of_lookup_2. }
  unfold Py.getitem. rewrite length_app. cbn [length].
  destruct (decide (0 <= Z.of_nat (length P' + 1) - 1)) as [_|?]; [|lia].
  replace (Z.to_nat (Z.of_nat (length P' + 1) - 1)) with (length P') by lia.
  rewrite <- app_assoc. cbn [app].
  rewrite list_lookup_middle by done. cbn [fst].
  rewrite bool_decide_eq_true_2 by done. rewrite Ht.
  unfold Py.insert_at.
  replace (length P' + 1)%nat with (length (P' ++ [(b1 - 1, s')]))
    by (rewrite length_app; simpl; lia).
  change (P' ++ (b1 - 1, s') :: (b1, s) :: Q)
    with (P' ++ [(b1 - 1, s')] ++ (b1, s) :: Q).
  rewrite (app_assoc P' [(b1 - 1, s')] ((b1, s) :: Q)).
  by rewrite take_app_length, drop_app_length.
Qed.

Lemma insert_barriers_places rest : forall done instructions,
  NoDup ((fun barrier : Z * Z * string => snd (fst barrier)) <$> (done ++ rest)) ->
  Forall (well_placed (length instructions)) rest ->
  insert_barriers line_end rest
    (Py.enumerate instructions ≫= tagged_barriers_before line_end done)
  = Ok (Py.enumerate instructions
        ≫= tagged_barriers_before line_end (done ++ rest)).
Proof.
  induction rest as [|b rest IH]; intros done instructions Hnd Hall.
  - by rewrite app_nil_r.
  - apply Forall_cons in Hall as [Hb Hall].
    rewrite insert_barrier_step; [| done |].
    + rewrite IH; [|by rewrite <- app_assoc|done]. by rewrite <- app_assoc.
    + rewrite fmap_app, fmap_cons in Hnd. apply NoDup_app in Hnd as (_ & Hnd & _).
      intros Hin. apply (Hnd _ Hin). by left.
Qed.

Lemma snd_tagged_barriers_before barriers (l : list (Z * string)) :
  snd <$> (l ≫= tagged_barriers_before line_end barriers)
  = l ≫= fun inst => barriers_before line_end barriers (fst inst) ++ [snd inst].
Proof.
  induction l as [|inst l IH]; [done|].
  rewrite !bind_cons, fmap_app, IH. f_equal.
  unfold tagged_barriers_before. rewrite fmap_app, <- list_fmap_compose. simpl.
  f_equal. by rewrite list_fmap_id.
Qed.

(** X11: for the OpenCL generator, when every barrier names two kernel
    calls that follow each other and a known kind of barrier, and no two
    barriers go in front of the same call, [apply_barriers] returns the
    instructions with each barrier statement right in front of the call
    it goes before, and every call in its place. *)
Theorem barriers_go_between_calls self instructions :
  gen_class self = opencl_kernel_generator ->
  NoDup ((fun barrier : Z * Z * string => snd (fst barrier)) <$> gen_barriers self) ->
  Forall (well_placed (length instructions)) (gen_barriers self) ->
  apply_barriers line_end self instructions
  = Ok (with_barriers_before line_end (gen_barriers self) instructions).
Proof.
  intros Hclass Hnd Hall. unfold apply_barriers. rewrite Hclass.
  assert (Py.enumerate instructions
          = Py.enumerate instructions ≫= tagged_barriers_before line_end []) as Hstart.
  { generalize (Py.enumerate instructions). intros l.
    induction l as [|inst l IH]; [done|]. rewrite bind_cons. simpl. by f_equal. }
  rewrite Hstart at 1. rewrite insert_barriers_places by done.
  cbn [mbind result_bind app]. f_equal. apply snd_tagged_barriers_before.
Qed.


End BarrierPlacement.

Lemma barriers_go_between_calls_witness :
  apply_barriers ";" (Samples.with_barriers [(1, 2, "local"); (0, 1, "global")])
                 ["a();"; "b();"; "c();"]
  = Ok ["a();"; "barrier(CLK_GLOBAL_MEM_FENCE);"; "b();";
        "barrier(CLK_LOCAL_MEM_FENCE);"; "c();"].
Proof.
  rewrite (barriers_go_between_calls ";"
             (Samples.with_barriers [(1, 2, "local"); (0, 1, "global")])
             ["a();"; "b();"; "c();"]).
  - reflexivity.
  - reflexivity.
  - simpl. repeat constructor; rewrite ?elem_of_cons, ?elem_of_nil; intuition lia.
  - repeat constructor; simpl; try lia; by eexists.
Defined.

(** ** Barrier insertion: the first barrier that cannot be placed *)

Section BarrierErrors.

Variable line_end : string.

Lemma insert_barriers_app done rest : forall instructions,
  insert_barriers line_end (done ++ rest) instructions
  = tagged ← insert_barriers line_end done instructions;
    insert_barriers line_end rest tagged.
Proof.
  induction done as [|[[b0 b1] kind] done IH]; intros instructions; [done|].
  cbn [app insert_barriers].
  destruct (list_find _ _) as [[index inst]|]; [|done].
  destruct (Py.getitem _ _) as [before|]; [|done].
  destruct (bool_decide _); [|done].
  destruct (barrier_templates kind); [|done].
  apply IH.
Qed.

Lemma tagged_barriers_in_range done (l : list string) : forall i,
  0 <= i ->
  Forall (fun inst : Z * string =>
            fst inst = -1 \/ i <= fst inst < i + Z.of_nat (length l))
         (Py.enumerate_from i l ≫= tagged_barriers_before line_end done).
Proof.
  induction l as [|x l IH]; intros i Hi; [constructor|].
  cbn [Py.enumerate_from]. rewrite bind_cons. apply Forall_app. split.
  - unfold tagged_barriers_before. apply Forall_app. split.
    + apply Forall_fmap, Forall_forall. intros text _. by left.
    + constructor; [|constructor]. right. simpl. lia.
  - eapply Forall_impl; [apply (IH (i + 1)); lia|].
    intros inst [?|?]; [by left|right]. simpl. lia.
Qed.

(** X12: for the OpenCL generator, the first barrier that is not between
    two calls that follow each other stops [apply_barriers]: a barrier in
    front of a call that does not exist raises StopIteration, a barrier
    whose first kernel is not the call before raises a fatal assertion,
    and a barrier of an unknown kind raises KeyError.  The barriers before
    it are placed as they should be, and the barrier does not go in front
    of the first call, whose check looks at the last instruction, or of
    the index [-1], which is the mark of a barrier statement. *)
Theorem misplaced_barrier_raises self instructions done b rest :
  gen_class self = opencl_kernel_generator ->
  gen_barriers self = done ++ b :: rest ->
  NoDup ((fun barrier : Z * Z * string => snd (fst barrier)) <$> (done ++ [b])) ->
  Forall (well_placed (length instructions)) done ->
  ~ well_placed (length instructions) b ->
  snd (fst b) < -1 \/ 1 <= snd (fst b) ->
  apply_barriers line_end self instructions
  = Raise (if decide (snd (fst b) < Z.of_nat (length instructions))
           then if decide (1 <= snd (fst b))
                then if decide (fst (fst b) = snd (fst b) - 1)
                     then KeyError else AssertionError
                else StopIteration
           else StopIteration).
Proof.
  intros Hclass Hbarriers Hnd Hdone Hbad Hside.
  unfold apply_barriers. rewrite Hclass, Hbarriers, insert_barriers_app.
  assert (Py.enumerate instructions
          = Py.enumerate instructions ≫= tagged_barriers_before line_end []) as Hstart.
  { generalize (Py.enumerate instructions). intros l.
    induction l as [|inst l IH]; [done|]. rewrite bind_cons. simpl. by f_equal. }
  rewrite Hstart at 1.
  assert (NoDup ((fun barrier : Z * Z * string => snd (fst barrier)) <$> done))
    as Hnd_done by (rewrite fmap_app in Hnd; by apply NoDup_app in Hnd as (? & _ & _)).
  rewrite insert_barriers_places by done.
  cbn [mbind result_bind app].
  assert (snd (fst b)
          ∉ (fun barrier : Z * Z * string => snd (fst barrier)) <$> done) as Hnin.
  { rewrite fmap_app in Hnd. apply NoDup_app in Hnd as (_ & Hnd & _).
    intros Hin. apply (Hnd _ Hin). by left. }
  destruct b as [[b0 b1] kind]. cbn [fst snd] in *.
  assert (forall A (r : result (list (Z * string))) (e : exn) (k : _ -> result A),
            r = Raise e -> (r ≫= k) = Raise e) as Hraise
      by (by intros A r e k ->).
  apply Hraise. cbn [insert_barriers].
  destruct (decide (b1 < Z.of_nat (length instructions))) as [Hlt|Hge];
    [destruct (decide (1 <= b1)) as [Hpos|Hneg]|].
  - destruct (barrier_position line_end done (b0, b1, "global")
                "barrier(CLK_GLOBAL_MEM_FENCE)" instructions 0)
      as (P & s & Q & Heq & Hall & _ & Hlast & _);
      [lia|simpl; lia|done|done|].
    cbn [fst snd] in *.
    destruct Hlast as (P' & s' & ->); [lia|].
    unfold Py.enumerate. rewrite Heq. clear Heq.
    match goal with
    | |- context [list_find ?p ?l] =>
        assert (list_find p l = Some (length (P' ++ [(b1 - 1, s')]), (b1, s))) as ->
    end.
    { apply list_find_Some. split; [by apply list_lookup_middle|]. split; [done|].
      intros j y Hj Hltj. rewrite lookup_app_l in Hj by done.
      rewrite Forall_forall in Hall. apply Hall. by eapply list_elem_of_lookup_2. }
    unfold Py.getitem. rewrite length_app. cbn [length].
    destruct (decide (0 <= Z.of_nat (length P' + 1) - 1)) as [_|?]; [|lia].
    replace (Z.to_nat (Z.of_nat (length P' + 1) - 1)) with (length P') by lia.
    rewrite <- app_assoc. cbn [app].
    rewrite list_lookup_middle by done. cbn [fst].
    destruct (decide (b0 = b1 - 1)) as [Hb0|Hb0].
    + rewrite bool_decide_eq_true_2 by done.
      destruct (barrier_templates kind) as [template|] eqn:Ht; [|done].
      exfalso. apply Hbad. split; [simpl; lia|]. split; [done|]. simpl. eauto.
    + by rewrite bool_decide_eq_false_2.
  - rewrite (proj2 (list_find_None _ _)); [done|].
    eapply Forall_impl; [apply (tagged_barriers_in_range done instructions 0); lia|].
    intros inst [?|?]; simpl; lia.
  - rewrite (proj2 (list_find_None _ _)); [done|].
    eapply Forall_impl; [apply (tagged_barriers_in_range done instructions 0); lia|].
    intros inst [?|?]; simpl; lia.
Qed.


End BarrierErrors.

Lemma misplaced_barrier_raises_witness :
  apply_barriers ";" (Samples.with_barriers [(0, 1, "global"); (0, 2, "global")])
                 ["a();"; "b();"; "c();"]
  = Raise AssertionError.
Proof.
  rewrite (misplaced_barrier_raises ";"
             (Samples.with_barriers [(0, 1, "global"); (0, 2, "global")])
             ["a();"; "b();"; "c();"] [(0, 1, "global")] (0, 2, "global") []).
  - reflexivity.
  - reflexivity.
  - reflexivity.
  - simpl. repeat constructor; rewrite ?elem_of_cons, ?elem_of_nil; intuition lia.
  - repeat constructor; simpl; try lia; by eexists.
  - intros (_ & Hbefore & _). simpl in Hbefore. lia.
  - right. simpl. lia.
Defined.

(** ** Vectorization: the dry run and the applied run *)

Lemma tags_of_tag_inames knl iname tag :
  tags_of (Samples.tag_inames knl iname tag) = <[iname := tag]> (tags_of knl).
Proof. unfold tags_of, Samples.tag_inames. by rewrite foldl_snoc. Qed.

Lemma tags_of_split_iname knl iname length tag :
  tags_of (Samples.split_iname knl iname length tag)
  = <[iname +:+ "_inner" := tag]> (tags_of knl).
Proof. unfold tags_of, Samples.split_iname. by rewrite foldl_snoc. Qed.

Lemma tags_of_fix_vec_width knl vec_width :
  tags_of (Samples.fix_vec_width knl vec_width) = tags_of knl.
Proof. unfold tags_of, Samples.fix_vec_width. by rewrite foldl_snoc. Qed.

(** X13: the dry run of [apply_specialization] returns the tags that the
    applied run sets: for the same options, the mapping of a dry run holds
    the tag of every [tag_inames] of the applied run and, for every split
    with an inner tag, that tag under the name of the inner iname.  The
    kernel can be vectorized or brings a fix-up function, and the fix-up
    function sets no tag. *)
Theorem dry_run_records_applied_tags (can_vectorize_lang : string -> bool)
    (global_ind : string) loopy_opts inner_ind for_testing
    (vecspec : option (Samples.traced -> Samples.traced)) can_vectorize :
  can_vectorize = true \/ is_Some vecspec ->
  (forall f knl, vecspec = Some f -> tags_of (f knl) = tags_of knl) ->
  exists knl,
    apply_specialization Samples.traced Samples.tag_inames Samples.split_iname
      Samples.fix_vec_width can_vectorize_lang global_ind
      loopy_opts inner_ind [] for_testing vecspec can_vectorize false
    = Ok (Kernel knl)
    /\ apply_specialization Samples.traced Samples.tag_inames Samples.split_iname
         Samples.fix_vec_width can_vectorize_lang global_ind
         loopy_opts inner_ind [] for_testing vecspec can_vectorize true
       = Ok (Specialization (tags_of knl)).
Proof.
  intros Hcan Hfix. unfold apply_specialization.
  assert (negb can_vectorize && negb (bool_decide (is_Some vecspec)) = false) as ->.
  { destruct Hcan as [->|Hsome]; [done|].
    rewrite (bool_decide_eq_true_2 _ Hsome). apply andb_false_r. }
  assert (tags_of [] = ∅) as Hnil by done.
  destruct (truthy (opt_depth loopy_opts)) eqn:Hd;
    [|destruct (truthy (opt_width loopy_opts)) eqn:Hw];
    cbn [negb andb orb]; cbv beta iota zeta; rewrite ?Hd, ?Hw;
    repeat match goal with
           | |- context [if ?c then _ else _] =>
               lazymatch c with
               | context [if _ then _ else _] => fail
               | _ => destruct c
               end; cbn [negb andb orb]; cbv beta iota zeta; rewrite ?Hd, ?Hw
           | |- context [match ?o with Some _ => _ | None => _ end] =>
               is_var o; destruct o; cbn [negb andb orb]; cbv beta iota zeta
           | |- context [match opt_unr loopy_opts with Some _ => _ | None => _ end] =>
               destruct (opt_unr loopy_opts); cbn [negb andb orb]; cbv beta iota zeta
           end;
    (eexists; split; [reflexivity|]);
    rewrite ?tags_of_split_iname, ?tags_of_tag_inames, ?tags_of_fix_vec_width;
    repeat match goal with
           | H : forall f knl, Some ?g = Some f -> _ |- _ =>
               rewrite (H g _ eq_refl)
           end;
    rewrite ?tags_of_split_iname, ?tags_of_tag_inames, ?tags_of_fix_vec_width, ?Hnil;
    reflexivity.
Qed.

Lemma dry_run_records_applied_tags_witness :
  exists knl,
    Samples.specialize Samples.deep "i" [] false None true false = Ok (Kernel knl)
    /\ Samples.specialize Samples.deep "i" [] false None true true
       = Ok (Specialization (tags_of knl)).
Proof.
  apply (dry_run_records_applied_tags (fun _ => true) "j" Samples.deep "i" false
           None true).
  - by left.
  - intros f knl H. discriminate H.
Defined.

(** ** The vector width and the loop domains *)

(** X14: the vector width is computed in three places, and they agree:
    what [_merge_kernels] hands to the wrapper kernel is the [vec_width]
    of the generator, and [apply_specialization] uses a vector width
    exactly when [vec_width] is not zero, and then the same one. *)
Theorem vector_width_is_consistent self :
  merged_vec_width self = Some (vec_width self)
  /\ truthy (vec_width_of (gen_loopy_opts self)) = bool_decide (vec_width self <> 0)
  /\ vec_width_of (gen_loopy_opts self)
     = (if bool_decide (vec_width self <> 0) then Some (vec_width self) else None).
Proof.
  unfold merged_vec_width, vec_width, vec_width_of.
  destruct (opt_depth (gen_loopy_opts self)) as [d|],
    (opt_width (gen_loopy_opts self)) as [w|]; simpl;
    repeat case_bool_decide; simpl; repeat case_bool_decide; try done; try lia.
Qed.
Lemma vec_width_truthy self :
  bool_decide (vec_width self <> 0)
  = truthy (opt_depth (gen_loopy_opts self)) || truthy (opt_width (gen_loopy_opts self)).
Proof.
  unfold vec_width.
  destruct (opt_depth (gen_loopy_opts self)) as [d|],
    (opt_width (gen_loopy_opts self)) as [w|]; simpl;
    repeat case_bool_decide; simpl; repeat case_bool_decide; try done; try lia.
Qed.

(** X15: [get_inames] gives one domain for every iname it declares, and
    the transformations of [apply_specialization] stay within the inames
    of the kernel: every iname it tags or splits is the inner index of the
    kernel, an iname declared by [get_inames], or a part of a split made
    before.  Depth and width are not both set, the kernel can be
    vectorized, and the index names are not empty. *)
Theorem specialization_stays_in_scope (can_vectorize_lang : string -> bool)
    self for_testing global_ind test_size inner_ind :
  truthy (opt_depth (gen_loopy_opts self)) = false
  \/ truthy (opt_width (gen_loopy_opts self)) = false ->
  inner_ind <> "" -> global_ind <> "" ->
  dom_iname <$> snd (get_inames self for_testing global_ind test_size)
  = fst (get_inames self for_testing global_ind test_size)
  /\ exists knl,
      apply_specialization Samples.traced Samples.tag_inames Samples.split_iname
        Samples.fix_vec_width can_vectorize_lang global_ind
        (gen_loopy_opts self) inner_ind [] for_testing None true false
      = Ok (Kernel knl)
      /\ well_scoped
           (inner_ind :: fst (get_inames self for_testing global_ind test_size)) knl
         = true.
Proof.
  intros Hnot Hinner Hglobal. unfold get_inames, apply_specialization.
  rewrite vec_width_truthy.
  destruct (truthy (opt_depth (gen_loopy_opts self))) eqn:Hd,
    (truthy (opt_width (gen_loopy_opts self))) eqn:Hw;
    [destruct Hnot; discriminate|..];
    destruct for_testing;
    cbn [negb andb orb fst snd]; cbv beta iota zeta; rewrite ?Hd, ?Hw;
    rewrite ?(bool_decide_eq_true_2 (inner_ind <> "")),
      ?(bool_decide_eq_true_2 (global_ind <> "")) by done;
    cbn [negb andb orb]; cbv beta iota zeta;
    (split; [reflexivity|]);
    repeat match goal with
           | |- context [if ?c then _ else _] =>
               lazymatch c with
               | context [if _ then _ else _] => fail
               | _ => destruct c
               end; cbn [negb andb orb]; cbv beta iota zeta; rewrite ?Hd, ?Hw
           | |- context [match opt_unr (gen_loopy_opts self) with
                         | Some _ => _ | None => _ end] =>
               destruct (opt_unr (gen_loopy_opts self));
               cbn [negb andb orb]; cbv beta iota zeta
           end;
    (eexists; split; [reflexivity|]);
    cbn [well_scoped Samples.tag_inames Samples.split_iname Samples.fix_vec_width app];
    repeat (apply andb_true_intro; split);
    try reflexivity;
    apply bool_decide_eq_true; cbn [app]; rewrite !elem_of_cons; auto 10.
Qed.

Lemma specialization_stays_in_scope_witness :
  get_inames MoreSamples.wide_generator false "j" (SizeInt 1024)
  = (["j_outer"; "j_inner"],
     [mkDomain "j_outer" (SizeName "work_size"); mkDomain "j_inner" (SizeInt 8)])
  /\ dom_iname <$> snd (get_inames MoreSamples.wide_generator false "j" (SizeInt 1024))
     = fst (get_inames MoreSamples.wide_generator false "j" (SizeInt 1024))
  /\ exists knl,
      Samples.specialize MoreSamples.wide "i" [] false None true false = Ok (Kernel knl)
      /\ well_scoped
           ("i" :: fst (get_inames MoreSamples.wide_generator false "j" (SizeInt 1024)))
           knl
         = true.
Proof.
  split; [reflexivity|].
  apply (specialization_stays_in_scope (fun _ => true) MoreSamples.wide_generator
           false "j" (SizeInt 1024) "i").
  - by left.
  - discriminate.
  - discriminate.
Defined.

(** With depth and width both set the vector lanes are taken from the
    inner index, which the fake split of [get_inames] does not provide. *)
Example both_widths_leave_scope :
  exists knl,
    Samples.specialize MoreSamples.both "i" [] false None true false = Ok (Kernel knl)
    /\ well_scoped
         ("i" :: fst (get_inames MoreSamples.both_generator false "j" (SizeInt 1024)))
         knl
       = false.
Proof. eexists. split; vm_compute; reflexivity. Qed.

(** ** The working buffer of a driver kernel *)

Lemma append_missing_spec (kargs kernel_data : list KernelArgument) :
  exists more,
    foldl (fun kargs arg => if bool_decide (arg ∈ kargs) then kargs else kargs ++ [arg])
          kargs kernel_data
    = kargs ++ more
    /\ NoDup more
    /\ forall arg, arg ∈ more <-> arg ∈ kernel_data /\ arg ∉ kargs.
Proof.
  induction kernel_data as [|a kernel_data IH] using rev_ind.
  - exists []. rewrite app_nil_r. split; [done|]. split; [constructor|].
    intros arg. rewrite elem_of_nil. tauto.
  - destruct IH as (more & Heq & Hnd & Hmore). rewrite foldl_snoc, Heq.
    destruct (bool_decide _) eqn:E.
    + apply bool_decide_eq_true in E. exists more. split; [done|]. split; [done|].
      intros arg. rewrite Hmore, elem_of_app, list_elem_of_singleton. split.
      * tauto.
      * intros [[?| ->] Hnot]; [done|].
        apply elem_of_app in E as [?|E]; [done|]. by apply Hmore in E.
    + apply bool_decide_eq_false in E. exists (more ++ [a]).
      rewrite app_assoc. split; [done|].
      rewrite not_elem_of_app in E. destruct E as [Hk Hm]. split.
      * apply NoDup_app. split; [done|]. split; [|apply NoDup_singleton].
        by intros x Hx ->%list_elem_of_singleton.
      * intros arg. rewrite !elem_of_app, list_elem_of_singleton, Hmore. split.
        -- intros [[? ?]| ->]; tauto.
        -- intros [[?| ->] ?]; tauto.
Qed.

Lemma append_missing_absorbs (kargs kernel_data : list KernelArgument) :
  (forall arg, arg ∈ kernel_data -> arg ∈ kargs) ->
  foldl (fun kargs arg => if bool_decide (arg ∈ kargs) then kargs else kargs ++ [arg])
        kargs kernel_data
  = kargs.
Proof.
  induction kernel_data as [|a kernel_data IH] using rev_ind; intros Hall; [done|].
  rewrite foldl_snoc, IH.
  - rewrite bool_decide_eq_true_2; [done|]. apply Hall, elem_of_app. right. by left.
  - intros arg Harg. apply Hall, elem_of_app. by left.
Qed.

Lemma add_working_buffer_first kernel_data pre knl post :
  Forall (fun k => endswith (knl_name k) "driver" = false) pre ->
  endswith (knl_name knl) "driver" = true ->
  add_working_buffer kernel_data (pre ++ knl :: post)
  = pre ++ with_kernel_data kernel_data knl :: post.
Proof.
  intros Hpre Hknl. induction Hpre as [|k pre Hk _ IH]; simpl.
  - by rewrite Hknl.
  - by rewrite Hk, IH.
Qed.

(** Without a kernel whose name ends in [driver] the loop changes
    nothing. *)
Lemma add_working_buffer_no_driver kernel_data kernels :
  Forall (fun k => endswith (knl_name k) "driver" = false) kernels ->
  add_working_buffer kernel_data kernels = kernels.
Proof.
  induction 1 as [|k kernels Hk _ IH]; simpl; [done|]. by rewrite Hk, IH.
Qed.

(** X16: when [_merge_kernels] merges for a driver, the first kernel whose
    name ends in [driver] gets the entries of the kernel data it does not
    have yet, once each, after its own arguments; the kernels before and
    after it are left as they are, and doing it again changes nothing. *)
Theorem working_buffer_goes_to_first_driver kernel_data pre knl post :
  Forall (fun k => endswith (knl_name k) "driver" = false) pre ->
  endswith (knl_name knl) "driver" = true ->
  exists more,
    add_working_buffer kernel_data (pre ++ knl :: post)
    = pre ++ mkKernel (knl_name knl) (knl_args knl ++ more)
               (knl_temporary_variables knl) (knl_written_variables knl) :: post
    /\ NoDup more
    /\ (forall arg, arg ∈ more <-> arg ∈ kernel_data /\ arg ∉ knl_args knl)
    /\ add_working_buffer kernel_data
         (add_working_buffer kernel_data (pre ++ knl :: post))
       = add_working_buffer kernel_data (pre ++ knl :: post).
Proof.
  intros Hpre Hknl.
  destruct (append_missing_spec (knl_args knl) kernel_data) as (more & Heq & Hnd & Hmore).
  exists more. rewrite add_working_buffer_first by done.
  unfold with_kernel_data at 1 2 3. rewrite Heq.
  split; [done|]. split; [done|]. split; [done|].
  rewrite add_working_buffer_first by done.
  unfold with_kernel_data. cbn [knl_name knl_args knl_temporary_variables
                                  knl_written_variables].
  rewrite append_missing_absorbs; [done|].
  intros arg Harg. apply elem_of_app.
  destruct (decide (arg ∈ knl_args knl)); [by left|right]. by apply Hmore.
Qed.

Lemma working_buffer_goes_to_first_driver_witness :
  exists more,
    add_working_buffer [Samples.phi; Samples.x]
      ([Samples.own] ++ MoreSamples.jacobian_driver
                     :: [MoreSamples.species_rates_driver])
    = [Samples.own]
      ++ mkKernel "jacobian_driver" ([Samples.phi] ++ more) [] []
      :: [MoreSamples.species_rates_driver]
    /\ NoDup more
    /\ (forall arg, arg ∈ more
                    <-> arg ∈ [Samples.phi; Samples.x] /\ arg ∉ [Samples.phi])
    /\ add_working_buffer [Samples.phi; Samples.x]
         (add_working_buffer [Samples.phi; Samples.x]
            ([Samples.own] ++ MoreSamples.jacobian_driver
                           :: [MoreSamples.species_rates_driver]))
       = add_working_buffer [Samples.phi; Samples.x]
           ([Samples.own] ++ MoreSamples.jacobian_driver
                          :: [MoreSamples.species_rates_driver]).
Proof.
  apply (working_buffer_goes_to_first_driver [Samples.phi; Samples.x] [Samples.own]
           MoreSamples.jacobian_driver [MoreSamples.species_rates_driver]).
  - repeat constructor.
  - reflexivity.
Defined.

(** The working buffer is added to the first driver only. *)
Example first_driver_gets_working_buffer :
  add_working_buffer [Samples.phi; Samples.x]
    [Samples.own; MoreSamples.jacobian_driver; MoreSamples.species_rates_driver]
  = [Samples.own; mkKernel "jacobian_driver" [Samples.phi; Samples.x] [] [];
     MoreSamples.species_rates_driver].
Proof. reflexivity. Qed.

(** ** [_process_args]: the read-only names *)

Lemma Forall2_canonical_lookup args nameset kept n :
  Forall2 (fun name x => canonical name args x) nameset kept ->
  n ∈ nameset -> exists x, x ∈ kept /\ canonical n args x.
Proof.
  induction 1 as [|m x ms xs Hx _ IH]; intros Hn; [by apply elem_of_nil in Hn|].
  apply elem_of_cons in Hn as [->|Hn].
  - exists x. split; [by left|done].
  - destruct (IH Hn) as (y & Hy & Hc). exists y. split; [by right|done].
Qed.

Lemma atomify_class arg : arg_class_of (atomify arg) = arg_class_of arg.
Proof. done. Qed.

Lemma working_kernels_own self kernels use_subkernels :
  kernels = SelfKernels \/ kernels = ListObject [] ->
  forall knl, knl ∈ gen_kernels self ->
              knl ∈ working_kernels self kernels use_subkernels.
Proof.
  intros Hown knl Hknl. unfold working_kernels.
  assert (knl ∈ match match kernels with
                      | SelfKernels => gen_kernels self
                      | ListObject l => l
                      end with
                | [] => gen_kernels self
                | _ :: _ => match kernels with
                            | SelfKernels => gen_kernels self
                            | ListObject l => l
                            end
                end) as Hin.
  { destruct Hown as [-> | ->]; [|done]. by destruct (gen_kernels self). }
  destruct use_subkernels; [|done]. apply elem_of_app. by left.
Qed.

(** X17: when [_process_args] works on the kernels of the generator itself
    (it is given [self.kernels] or no list), every name of the read-only
    set it returns is the name of one of the arguments it returns, and no
    kernel it leaves behind writes to that name. *)
Theorem readonly_names_are_arguments self kernels use_subkernels r n :
  kernels = SelfKernels \/ kernels = ListObject [] ->
  _process_args self kernels use_subkernels = Ok r ->
  n ∈ r_readonly r ->
  n ∈ arg_name <$> r_args r
  /\ forall knl, knl ∈ r_kernels r -> n ∉ knl_written_variables knl.
Proof.
  intros Hown H Hn.
  apply process_args_returns in H
    as (kernels1 & kernel_data & temps & kernels2 & local & temps2
        & Hnames & _ & Hhoist & ->).
  simpl in *.
  set (args := gather_args self (working_kernels self kernels use_subkernels)) in *.
  set (declared := fun knl : LoopKernel =>
         forall a, a ∈ knl_args knl ->
                   exists a0, a0 ∈ args /\ arg_name a0 = arg_name a
                              /\ arg_class_of a0 = arg_class_of a).
  assert (Forall declared (working_kernels self kernels use_subkernels)) as Hwork.
  { apply Forall_forall. intros knl Hknl a Ha. exists a. split; [|done].
    apply elem_of_app. left. apply list_elem_of_bind. eauto. }
  assert (Forall declared (gen_kernels self)) as Hself.
  { apply Forall_forall. intros knl Hknl. rewrite Forall_forall in Hwork.
    by apply Hwork, working_kernels_own. }
  pose proof Hnames as Hdeclared.
  apply (resolve_names_Forall declared) in Hdeclared; [| |done|done].
  2:{ intros other atomic knl Hat Hknl a Ha. simpl in Ha.
      apply list_elem_of_fmap in Ha as (x & -> & Hx).
      destruct (decide (x <> other)); [by apply Hknl|]. by exists atomic. }
  apply resolve_names_canonical in Hnames as (kept & -> & Hkept);
    [|intros m; apply same_name_of_nonempty].
  unfold readonly_names in Hn.
  apply elem_of_list_to_set, list_elem_of_fmap in Hn as (arg & -> & Harg).
  apply elem_of_List_filter in Harg as [Harg Hcheck].
  apply andb_true_iff in Hcheck as [Hwritten Hvalue].
  split.
  - apply list_elem_of_bind in Harg as (knl & Harg & Hknl).
    rewrite Forall_forall in Hdeclared.
    destruct (Hdeclared knl Hknl arg Harg) as (a0 & Ha0 & Hname & Hclass).
    destruct (Forall2_canonical_lookup _ _ _ (arg_name arg) Hkept)
      as (x & Hx & _ & Hxname & Hall).
    { apply elem_of_sorted_set, list_elem_of_fmap. eauto. }
    apply list_elem_of_fmap. exists x. split; [done|].
    apply elem_of_List_filter. split; [done|].
    assert (arg_class_of x = arg_class_of arg) as Hxclass.
    { destruct (Hall a0 Ha0 Hname) as [<- | ->]; [done|].
      by rewrite atomify_class. }
    unfold is_value_arg in *. by rewrite Hxclass.
  - assert (forall knl, knl ∈ kernels1 -> arg_name arg ∉ knl_written_variables knl)
      as Hnot.
    { intros knl Hknl Hin. apply negb_true_iff in Hwritten.
      apply not_true_iff_false in Hwritten. apply Hwritten.
      apply existsb_exists. exists knl. split; [by apply list_elem_of_In|].
      by apply bool_decide_eq_true. }
    destruct (hoist_locals self).
    + rewrite hoist_spec in Hhoist. injection Hhoist as <- <- <-.
      intros knl' Hknl'. apply list_elem_of_fmap in Hknl' as (knl & -> & Hknl).
      specialize (Hnot knl Hknl). unfold hoisted.
      by destruct (local_temporaries knl).
    + injection Hhoist as <- <- <-. exact Hnot.
Qed.

Lemma readonly_names_are_arguments_witness :
  exists r,
    _process_args (Samples.generator c_kernel_generator
                     [Samples.reads_k_phi; Samples.reads_k] []) SelfKernels true = Ok r
    /\ r_readonly r = {[ "phi"; "k" ]}
    /\ "k" ∈ arg_name <$> r_args r
    /\ forall knl, knl ∈ r_kernels r -> "k" ∉ knl_written_variables knl.
Proof.
  eexists. split; [vm_compute; reflexivity|]. split; [vm_compute; reflexivity|].
  apply (readonly_names_are_arguments
           (Samples.generator c_kernel_generator
              [Samples.reads_k_phi; Samples.reads_k] []) SelfKernels true).
  - by left.
  - vm_compute. reflexivity.
  - vm_compute. reflexivity.
Defined.

(** With a list of its own the rewrite loop can put a kernel of
    [self.kernels] into the list, and the read-only set then holds a name
    that is not among the arguments returned. *)
Example readonly_name_without_argument :
  exists r,
    _process_args (Samples.generator c_kernel_generator [MoreSamples.reads_k_x] [])
                  (ListObject [Samples.reads_k; Samples.updates_k]) true = Ok r
    /\ r_args r = [Samples.k_atomic]
    /\ "x" ∈ r_readonly r.
Proof.
  eexists. split; [vm_compute; reflexivity|]. split; [reflexivity|].
  vm_compute. reflexivity.
Qed.

(** ** Fake calls: which kernels match *)

Lemma append_cons (a : ascii) (s t : string) :
  String a s +:+ t = String a (s +:+ t).
Proof. done. Qed.

Lemma prefix_spec (needle hay : string) :
  String.prefix needle hay = true <-> exists post, hay = needle +:+ post.
Proof.
  revert hay. induction needle as [|a needle IH]; intros hay.
  - split; [intros _; by exists hay|intros _; by destruct hay].
  - destruct hay as [|b hay]; simpl.
    + split; [done|]. by intros [post ?].
    + destruct (Ascii.ascii_dec a b) as [->|Hne].
      * rewrite IH. split; intros [post Hpost]; exists post;
          rewrite append_cons in *; congruence.
      * split; [done|]. intros [post Hpost]. rewrite append_cons in Hpost.
        congruence.
Qed.

(** [needle in hay] holds exactly when [needle] occurs in [hay]. *)
Lemma contains_spec (needle hay : string) :
  Py.contains needle hay = true
  <-> exists pre post, hay = pre +:+ needle +:+ post.
Proof.
  induction hay as [|b hay IH].
  - change (Py.contains needle "") with (String.prefix needle "" || false).
    rewrite orb_false_r, prefix_spec. split.
    + intros [post ->]. by exists "", post.
    + intros ([|c pre] & post & H); [by exists post|].
      rewrite append_cons in H. discriminate.
  - change (Py.contains needle (String b hay))
      with (String.prefix needle (String b hay) || Py.contains needle hay).
    rewrite orb_true_iff, prefix_spec, IH. split.
    + intros [[post ->]|(pre & post & ->)].
      * by exists "", post.
      * by exists (String b pre), post.
    + intros ([|c pre] & post & H).
      * left. by exists post.
      * right. exists pre, post. rewrite append_cons in H. congruence.
Qed.

(** X18: [FakeCall.match] is a test on names by containment: outside a
    driver a kernel matches exactly when its name occurs in the name of
    the kernel to replace in, so that kernel matches itself and so does
    every kernel named by a part of its name; for a driver both names
    have to occur in the instructions. *)
Theorem fake_call_matches_by_containment replace_in_name kernel_name insns :
  (FakeCall_match replace_in_name kernel_name insns false = true
   <-> exists pre post, replace_in_name = pre +:+ kernel_name +:+ post)
  /\ (FakeCall_match replace_in_name kernel_name insns true = true
      <-> (exists pre post, insns = pre +:+ kernel_name +:+ post)
          /\ (exists pre post, insns = pre +:+ replace_in_name +:+ post))
  /\ FakeCall_match replace_in_name replace_in_name insns false = true.
Proof.
  unfold FakeCall_match. split; [apply contains_spec|]. split.
  - by rewrite andb_true_iff, !contains_spec.
  - apply contains_spec. exists "", "".
    change ("" +:+ replace_in_name +:+ "") with (replace_in_name +:+ "").
    induction replace_in_name as [|a s IH]; [done|].
    rewrite append_cons. by f_equal.
Qed.

(** ** [_process_args]: temporaries that differ *)

Lemma resolve_temps_conflict copy names : forall temps,
  (forall n, n ∈ names -> exists t, t ∈ copy /\ tv_name t = n) ->
  (exists t1 t2, t1 ∈ copy /\ t2 ∈ copy /\ tv_name t1 = tv_name t2
                 /\ tv_name t1 ∈ names /\ t1 <> t2) ->
  exists name,
    resolve_temps copy names temps
    = Raise (ConflictingTemporaries
               (List.filter (fun x => bool_decide (tv_name x = name)) copy))
    /\ exists u1 u2, u1 ∈ copy /\ u2 ∈ copy /\ tv_name u1 = name
                     /\ tv_name u2 = name /\ u1 <> u2.
Proof.
  induction names as [|name names IH]; intros temps Hnames Hconflict.
  - destruct Hconflict as (t1 & t2 & _ & _ & _ & Hin & _).
    by apply elem_of_nil in Hin.
  - cbn [resolve_temps].
    destruct (List.filter (fun x => bool_decide (tv_name x = name)) copy)
      as [|first others] eqn:E.
    { destruct (Hnames name ltac:(by left)) as (t & Ht & Hn).
      assert (t ∈ List.filter (fun x => bool_decide (tv_name x = name)) copy) as Hin
          by (apply elem_of_List_filter; by rewrite bool_decide_eq_true).
      rewrite E in Hin. by apply elem_of_nil in Hin. }
    assert (forall t, t ∈ first :: others <-> t ∈ copy /\ tv_name t = name) as Hsame.
    { intros t. by rewrite <- E, elem_of_List_filter, bool_decide_eq_true. }
    destruct (_ && _) eqn:Hcheck.
    + exists name. rewrite E. split; [done|].
      apply andb_true_iff in Hcheck as [_ Hcheck].
      apply negb_true_iff in Hcheck.
      assert (exists u, u ∈ others /\ u <> first) as (u & Hu & Hne).
      { clear -Hcheck. induction others as [|o others IH]; [discriminate|].
        simpl in Hcheck. destruct (bool_decide (o = first)) eqn:Ho.
        - destruct (IH Hcheck) as (u & Hu & Hne). exists u. split; [by right|done].
        - apply bool_decide_eq_false in Ho. exists o. split; [by left|done]. }
      assert (first ∈ first :: others) as Hf by (by left).
      assert (u ∈ first :: others) as Hu' by (by right).
      apply Hsame in Hf as [? ?]. apply Hsame in Hu' as [? ?].
      exists first, u. auto.
    + apply temps_check_passes in Hcheck. rewrite forallb_forall in Hcheck.
      assert (forall t, t ∈ copy -> tv_name t = name -> t = first) as Hfirst.
      { intros t Ht Hn.
        assert (t ∈ first :: others) as Hin by (by apply Hsame).
        apply elem_of_cons in Hin as [->|Hin]; [done|].
        apply list_elem_of_In, Hcheck in Hin. by apply bool_decide_eq_true in Hin. }
      apply IH.
      * intros n Hn. apply Hnames. by right.
      * destruct Hconflict as (t1 & t2 & H1 & H2 & Hn & Hin & Hne).
        exists t1, t2. repeat split; try done.
        apply elem_of_cons in Hin as [Hin|Hin]; [|done].
        exfalso. apply Hne. rewrite (Hfirst t1), (Hfirst t2); congruence.
Qed.

(** X19: when the arguments need no resolution and two temporaries of one
    name that are kept outside private memory differ, [_process_args]
    raises the conflict error for temporaries, with the temporaries of a
    name that has two different ones. *)
Theorem conflicting_temporaries_are_reported self kernels use_subkernels t1 t2 :
  already_resolved (gather_args self (working_kernels self kernels use_subkernels)) ->
  t1 ∈ shared_temporaries self (working_kernels self kernels use_subkernels) ->
  t2 ∈ shared_temporaries self (working_kernels self kernels use_subkernels) ->
  tv_name t1 = tv_name t2 -> t1 <> t2 ->
  exists name,
    _process_args self kernels use_subkernels
    = Raise (ConflictingTemporaries
               (List.filter (fun x => bool_decide (tv_name x = name))
                  (shared_temporaries self
                     (working_kernels self kernels use_subkernels))))
    /\ exists u1 u2,
        u1 ∈ shared_temporaries self (working_kernels self kernels use_subkernels)
        /\ u2 ∈ shared_temporaries self (working_kernels self kernels use_subkernels)
        /\ tv_name u1 = name /\ tv_name u2 = name /\ u1 <> u2.
Proof.
  intros Hres H1 H2 Hname Hne.
  destruct (resolve_temps_conflict
              (shared_temporaries self (working_kernels self kernels use_subkernels))
              (Py.sorted_set
                 (tv_name <$> shared_temporaries self
                    (working_kernels self kernels use_subkernels))) [])
    as (name & Hraise & Hvariants).
  - intros n Hn. apply elem_of_sorted_set, list_elem_of_fmap in Hn as (t & -> & Ht).
    eauto.
  - exists t1, t2. repeat split; try done.
    apply elem_of_sorted_set, list_elem_of_fmap. eauto.
  - exists name. split; [|done].
    unfold _process_args.
    rewrite resolve_names_resolved by (by apply resolved_names_one).
    cbn [mbind result_bind partition]. by rewrite Hraise.
Qed.

Lemma conflicting_temporaries_are_reported_witness :
  exists name,
    _process_args MoreSamples.two_scratches SelfKernels true
    = Raise (ConflictingTemporaries
               (List.filter (fun x => bool_decide (tv_name x = name))
                  (shared_temporaries MoreSamples.two_scratches
                     (working_kernels MoreSamples.two_scratches SelfKernels true))))
    /\ exists u1 u2,
        u1 ∈ shared_temporaries MoreSamples.two_scratches
               (working_kernels MoreSamples.two_scratches SelfKernels true)
        /\ u2 ∈ shared_temporaries MoreSamples.two_scratches
                  (working_kernels MoreSamples.two_scratches SelfKernels true)
        /\ tv_name u1 = name /\ tv_name u2 = name /\ u1 <> u2.
Proof.
  apply (conflicting_temporaries_are_reported MoreSamples.two_scratches
           SelfKernels true Samples.scratch MoreSamples.scratch16).
  - intros name.
    destruct (decide (name = "phi")) as [->|Hphi]; [vm_compute; lia|].
    unfold same_name_of, collect. simpl.
    rewrite !bool_decide_eq_false_2 by congruence. simpl. lia.
  - vm_compute. constructor.
  - vm_compute. constructor. constructor.
  - reflexivity.
  - discriminate.
Defined.

(** The two temporaries called [scratch] are reported. *)
Example scratch_conflict_is_reported :
  _process_args MoreSamples.two_scratches SelfKernels true
  = Raise (ConflictingTemporaries [Samples.scratch; MoreSamples.scratch16]).
Proof. vm_compute. reflexivity. Qed.

(** ** [_process_args] on [self.kernels]: the kernels left behind *)

(** One name of the loop over [nameset], when the list worked on is
    [self.kernels] itself: the kernels keep arguments that are declared,
    the arguments of the name are the one kept, and the arguments of
    other names are those the kernels had. *)
Lemma resolve_name_alias args name kernels kernels1 same_name1 x :
  (forall knl a, knl ∈ kernels -> a ∈ knl_args knl -> a ∈ args) ->
  (1 <= length (same_name_of name args))%nat ->
  (if decide (length (same_name_of name args) <> 1)%nat
   then resolve_same_name kernels kernels (same_name_of name args)
   else Ok (kernels, same_name_of name args)) = Ok (kernels1, same_name1) ->
  pop same_name1 = Ok x ->
  forall knl a, knl ∈ kernels1 -> a ∈ knl_args knl ->
    a ∈ args
    /\ (arg_name a = name -> a = x)
    /\ (arg_name a <> name -> exists knl0, knl0 ∈ kernels /\ a ∈ knl_args knl0).
Proof.
  intros Hdecl Hlen Hstep Hpop.
  destruct (decide _) as [Hne|Hone].
  - destruct (classic_pair (same_name_of name args)) as [Hpair|Hpair].
    + destruct (atomic_pair_resolves kernels kernels _ Hpair)
        as (arg & Hna & Hsn & Heq).
      rewrite Heq in Hstep. clear Heq.
      pose proof (rewrite_kernels_suffix arg (atomify arg) kernels []) as Hrw.
      cbn [app length] in Hrw. unfold nat_enumerate in Hstep.
      rewrite Hrw in Hstep. cbn [mbind result_bind] in Hstep.
      injection Hstep as <- <-. injection Hpop as <-.
      assert (forall y, y ∈ same_name_of name args <-> y = arg \/ y = atomify arg)
        as Hall.
      { intros y. destruct Hsn as [Hsn|Hsn]; rewrite Hsn;
          rewrite !elem_of_cons, elem_of_nil; tauto. }
      assert (atomify arg ∈ args /\ arg_name (atomify arg) = name) as [Hat Hatn]
          by (apply elem_of_same_name_of, Hall; by right).
      assert (arg <> atomify arg) as Hdiff.
      { intros Heq. rewrite Heq, atomify_is_atomic in Hna. discriminate. }
      intros knl' a Hknl' Ha.
      apply list_elem_of_fmap in Hknl' as (knl & -> & Hknl).
      assert (a ∈ knl_args knl /\ a <> arg \/ a = atomify arg) as Hcases.
      { destruct (bool_decide (arg ∈ knl_args knl)) eqn:Hhas.
        - simpl in Ha. apply list_elem_of_fmap in Ha as (x0 & -> & Hx0).
          destruct (decide (x0 <> arg)); [by left|by right].
        - apply bool_decide_eq_false in Hhas. left. split; [done|].
          by intros ->. }
      destruct Hcases as [[Hin Hnot]| ->].
      * split; [by eapply Hdecl|]. split.
        -- intros Hn.
           assert (a ∈ same_name_of name args) as Hs.
           { apply elem_of_same_name_of. split; [by eapply Hdecl|done]. }
           by apply Hall in Hs as [?|?].
        -- intros _. eauto.
      * split; [done|]. split; [done|]. by intros [].
    + rewrite unresolvable_variants_raise in Hstep;
        [discriminate|apply NoDup_same_name_of|].
      split; [lia|done].
  - injection Hstep as <- <-.
    destruct (same_name_of name args) as [|x0 [|y l]] eqn:E; simpl in Hlen, Hone;
      try lia.
    injection Hpop as <-.
    intros knl a Hknl Ha. split; [by eapply Hdecl|]. split; [|eauto].
    intros Hn.
    assert (a ∈ same_name_of name args) as Hs.
    { apply elem_of_same_name_of. split; [by eapply Hdecl|done]. }
    rewrite E in Hs. by apply list_elem_of_singleton in Hs.
Qed.

Lemma resolve_names_alias self_kernels args nameset :
  forall kernels kernel_data kernels' kernel_data',
    (forall knl a, knl ∈ kernels -> a ∈ knl_args knl -> a ∈ args) ->
    (forall m, m ∈ nameset -> (1 <= length (same_name_of m args))%nat) ->
    resolve_names true self_kernels args nameset kernels kernel_data
    = Ok (kernels', kernel_data') ->
    forall knl a, knl ∈ kernels' -> a ∈ knl_args knl ->
      a ∈ args
      /\ (arg_name a ∈ nameset -> a ∈ kernel_data')
      /\ (arg_name a ∉ nameset -> exists knl0, knl0 ∈ kernels /\ a ∈ knl_args knl0).
Proof.
  induction nameset as [|name nameset IH];
    intros kernels kd kernels' kd' Hdecl Hne Hrun.
  - injection Hrun as <- <-. intros knl a Hknl Ha.
    split; [by eapply Hdecl|]. split; [by intros ?%elem_of_nil|eauto].
  - cbn [resolve_names] in Hrun.
    destruct (if decide (length (same_name_of name args) <> 1)%nat
              then _ else _) as [[kernels1 same_name1]|] eqn:Hstep; [|discriminate].
    cbn [mbind result_bind] in Hrun.
    destruct (pop same_name1) as [x|] eqn:Hpop; [|discriminate].
    cbn [mbind result_bind] in Hrun.
    pose proof (resolve_name_alias args name kernels kernels1 same_name1 x Hdecl
                  (Hne name ltac:(by left)) Hstep Hpop) as Hone.
    pose proof Hrun as Hkept.
    apply resolve_names_canonical in Hkept as (kept & -> & _);
      [|intros m Hm; apply Hne; by right].
    intros knl a Hknl Ha.
    destruct (IH kernels1 (kd ++ [x]) kernels' _
                (fun knl a Hknl Ha => proj1 (Hone knl a Hknl Ha))
                (fun m Hm => Hne m ltac:(by right)) Hrun knl a Hknl Ha)
      as (Hin & Hnames & Hrest).
    split; [done|]. split.
    + intros Hn. destruct (decide (arg_name a ∈ nameset)) as [?|Hnot]; [by apply Hnames|].
      apply elem_of_cons in Hn as [Hn|?]; [|done].
      destruct (Hrest Hnot) as (knl1 & Hknl1 & Ha1).
      destruct (Hone knl1 a Hknl1 Ha1) as (_ & Hx & _).
      rewrite (Hx Hn). apply elem_of_app. left. apply elem_of_app. right. by left.
    + intros Hnot. apply not_elem_of_cons in Hnot as [Hn Hnot].
      destruct (Hrest Hnot) as (knl1 & Hknl1 & Ha1).
      by destruct (Hone knl1 a Hknl1 Ha1) as (_ & _ & Hold); apply Hold.
Qed.

(** X20: when [_process_args] is given the list [self.kernels] itself,
    the kernels it leaves behind, which are then the kernels of the
    generator, use only arguments that it returns: every argument of every
    kernel is in the returned [args] or [valueargs], or is the local array
    argument of a temporary in the returned list [local]. *)
Theorem own_kernels_use_returned_arguments self use_subkernels r :
  gen_kernels self <> [] ->
  _process_args self SelfKernels use_subkernels = Ok r ->
  r_self_kernels r = r_kernels r
  /\ forall knl a, knl ∈ r_kernels r -> a ∈ knl_args knl ->
       a ∈ r_args r ++ r_valueargs r \/ a ∈ __argify <$> r_local r.
Proof.
  intros Hown H.
  apply process_args_returns in H
    as (kernels1 & kernel_data & temps & kernels2 & local & temps2
        & Hnames & _ & Hhoist & ->).
  assert (aliases_self self SelfKernels = true) as Halias
      by (by apply bool_decide_eq_true).
  rewrite Halias in *. cbn [r_self_kernels r_kernels r_args r_valueargs r_local].
  split; [done|].
  pose proof (resolve_names_alias _ _ _ _ _ _ _
                (fun knl a Hknl Ha =>
                   proj2 (elem_of_app _ _ a)
                     (or_introl (proj2 (list_elem_of_bind _ _ _)
                                   (ex_intro _ knl (conj Ha Hknl)))))
                (fun m => same_name_of_nonempty m _) Hnames) as Hkept.
  assert (forall knl a, knl ∈ kernels1 -> a ∈ knl_args knl ->
            a ∈ List.filter (fun x => negb (is_value_arg x)) kernel_data
                  ++ List.filter is_value_arg kernel_data) as Hreturned.
  { intros knl a Hknl Ha. rewrite elem_of_partition.
    destruct (Hkept knl a Hknl Ha) as (Hin & Hdata & _). apply Hdata.
    apply elem_of_sorted_set, list_elem_of_fmap. eauto. }
  destruct (hoist_locals self).
  - rewrite hoist_spec in Hhoist. injection Hhoist as <- <- <-.
    intros knl' a Hknl' Ha.
    apply list_elem_of_fmap in Hknl' as (knl & -> & Hknl).
    unfold hoisted in Ha.
    destruct (local_temporaries knl) as [|t ts] eqn:E; [left; by eapply Hreturned|].
    cbn [knl_args] in Ha. apply elem_of_app in Ha as [Ha|Ha];
      [left; by eapply Hreturned|right].
    apply list_elem_of_fmap in Ha as (t' & -> & Ht').
    apply list_elem_of_fmap_2. cbn [app]. apply list_elem_of_bind.
    exists knl. by rewrite E.
  - injection Hhoist as <- <- <-. intros knl a Hknl Ha. left. by eapply Hreturned.
Qed.

Lemma own_kernels_use_returned_arguments_witness :
  exists r,
    _process_args (Samples.generator c_kernel_generator
                     [Samples.reads_k; Samples.updates_k] []) SelfKernels true = Ok r
    /\ r_args r = [Samples.k_atomic]
    /\ r_self_kernels r = r_kernels r
    /\ forall knl a, knl ∈ r_kernels r -> a ∈ knl_args knl ->
         a ∈ r_args r ++ r_valueargs r \/ a ∈ __argify <$> r_local r.
Proof.
  eexists. split; [vm_compute; reflexivity|]. split; [reflexivity|].
  apply (own_kernels_use_returned_arguments
           (Samples.generator c_kernel_generator
              [Samples.reads_k; Samples.updates_k] []) true).
  - discriminate.
  - vm_compute. reflexivity.
Defined.

(** ** [_process_args] on [self.kernels]: what becomes of the list *)

Lemma resolve_names_alias_names self_kernels args nameset :
  forall kernels kernel_data kernels' kernel_data',
    resolve_names true self_kernels args nameset kernels kernel_data
    = Ok (kernels', kernel_data') ->
    (fun knl => (knl_name knl, knl_written_variables knl)) <$> kernels'
    = (fun knl => (knl_name knl, knl_written_variables knl)) <$> kernels.
Proof.
  induction nameset as [|name nameset IH]; intros kernels kd kernels' kd' Hrun.
  - by injection Hrun as <- <-.
  - cbn [resolve_names] in Hrun.
    destruct (decide _) as [Hne|Hone].
    + unfold resolve_same_name in Hrun.
      destruct (List.find _ _) as [atomic|]; [|discriminate].
      destruct (decide _); [discriminate|].
      destruct (List.find _ _) as [other|]; [|discriminate].
      destruct (negb _); [discriminate|].
      pose proof (rewrite_kernels_suffix other atomic kernels []) as Hrw.
      cbn [app length] in Hrw. unfold nat_enumerate in Hrun.
      rewrite Hrw in Hrun. cbn [mbind result_bind] in Hrun.
      destruct (pop _) as [x|]; [|discriminate]. cbn [mbind result_bind] in Hrun.
      apply IH in Hrun. rewrite Hrun, <- list_fmap_compose.
      apply list_fmap_ext. intros i knl _. simpl.
      by destruct (bool_decide (other ∈ knl_args knl)).
    + cbn [mbind result_bind] in Hrun.
      destruct (pop _) as [x|]; [|discriminate]. cbn [mbind result_bind] in Hrun.
      by apply IH in Hrun.
Qed.

(** X21: when [_process_args] is given the list [self.kernels] itself, the
    list is changed in place: after the call it holds the kernels it had,
    followed by the kernels of the dependencies when [use_subkernels] is
    set, each under its name and with the variables it writes, in the same
    order. *)
Theorem own_kernel_list_is_extended self use_subkernels r :
  gen_kernels self <> [] ->
  _process_args self SelfKernels use_subkernels = Ok r ->
  knl_name <$> r_self_kernels r
  = knl_name <$> (gen_kernels self
                  ++ if use_subkernels then concat (gen_depends_on self) else [])
  /\ knl_written_variables <$> r_self_kernels r
     = knl_written_variables
         <$> (gen_kernels self
              ++ if use_subkernels then concat (gen_depends_on self) else []).
Proof.
  intros Hown H.
  apply process_args_returns in H
    as (kernels1 & kernel_data & temps & kernels2 & local & temps2
        & Hnames & _ & Hhoist & ->).
  assert (aliases_self self SelfKernels = true) as Halias
      by (by apply bool_decide_eq_true).
  rewrite Halias in *. cbn [r_self_kernels].
  apply resolve_names_alias_names in Hnames.
  assert (working_kernels self SelfKernels use_subkernels
          = gen_kernels self
            ++ if use_subkernels then concat (gen_depends_on self) else []) as Hwork.
  { unfold working_kernels. destruct (gen_kernels self) eqn:E; [done|].
    destruct use_subkernels; [done|by rewrite app_nil_r]. }
  rewrite Hwork in Hnames.
  assert ((fun knl => (knl_name knl, knl_written_variables knl)) <$> kernels2
          = (fun knl => (knl_name knl, knl_written_variables knl)) <$> kernels1)
    as Hframe.
  { destruct (hoist_locals self).
    - rewrite hoist_spec in Hhoist. injection Hhoist as <- <- <-.
      rewrite <- list_fmap_compose. apply list_fmap_ext. intros i knl _. simpl.
      unfold hoisted. by destruct (local_temporaries knl).
    - by injection Hhoist as <- <- <-. }
  rewrite Hnames in Hframe.
  split.
  - apply (f_equal (fmap fst)) in Hframe.
    by rewrite <- !list_fmap_compose in Hframe.
  - apply (f_equal (fmap snd)) in Hframe.
    by rewrite <- !list_fmap_compose in Hframe.
Qed.

Lemma own_kernel_list_is_extended_witness :
  exists r,
    _process_args (Samples.generator c_kernel_generator
                     [Samples.own] [[Samples.updates_k]]) SelfKernels true = Ok r
    /\ knl_name <$> r_self_kernels r = ["own"; "updates_k"]
    /\ knl_written_variables <$> r_self_kernels r = [["phi"]; ["k"]].
Proof.
  eexists. split; [vm_compute; reflexivity|].
  apply (own_kernel_list_is_extended
           (Samples.generator c_kernel_generator [Samples.own] [[Samples.updates_k]])
           true).
  - discriminate.
  - vm_compute. reflexivity.
Defined.

(** ** [_process_args]: the lists returned, their content and their order *)

Lemma nat_enumerate_lookup {A} (l : list A) i x :
  (i, x) ∈ nat_enumerate l -> l !! i = Some x.
Proof.
  unfold nat_enumerate. intros H.
  apply list_elem_of_lookup in H as [j Hj].
  apply lookup_zip_with_Some in Hj as (a & b & [= -> ->] & Ha & Hb).
  apply lookup_seq in Ha as [-> _]. done.
Qed.

(** The rewrite loop leaves the temporaries at every position as they are,
    when the kernels it enumerates have the temporaries of the kernels at
    their positions in the list it writes to. *)
Lemma rewrite_kernels_temporaries other atomic tvs todo : forall kernels kernels',
  Forall (fun p : nat * LoopKernel =>
            tvs !! fst p = Some (knl_temporary_variables (snd p))) todo ->
  knl_temporary_variables <$> kernels = tvs ->
  rewrite_kernels todo kernels other atomic = Ok kernels' ->
  knl_temporary_variables <$> kernels' = tvs.
Proof.
  induction todo as [|[i knl] todo IH]; intros kernels kernels'; simpl.
  - by intros _ ? [= <-].
  - intros Htodo Hk. apply Forall_cons in Htodo as [Hknl Htodo]. simpl in Hknl.
    destruct (bool_decide _); [|by apply IH].
    unfold setitem. destruct (decide _); [|discriminate]. simpl.
    apply IH; [done|].
    rewrite list_fmap_insert, Hk. by apply list_insert_id.
Qed.

Lemma resolve_names_temporaries alias self_kernels args nameset tvs :
  (alias = false ->
   Forall (fun p : nat * LoopKernel =>
             tvs !! fst p = Some (knl_temporary_variables (snd p)))
          (nat_enumerate self_kernels)) ->
  forall kernels kernel_data kernels' kernel_data',
    knl_temporary_variables <$> kernels = tvs ->
    resolve_names alias self_kernels args nameset kernels kernel_data
    = Ok (kernels', kernel_data') ->
    knl_temporary_variables <$> kernels' = tvs.
Proof.
  intros Hself.
  induction nameset as [|name nameset IH]; intros kernels kd kernels' kd' Hk; simpl.
  - by intros [= <- <-].
  - destruct (decide _) as [Hlen|Hlen].
    + destruct (resolve_same_name _ _ _) as [[k sn]|] eqn:E; [|discriminate].
      simpl. destruct (pop sn) as [x|]; [|discriminate]. simpl.
      apply IH. revert E. unfold resolve_same_name.
      destruct (List.find _ _) as [atomic|]; [|discriminate].
      destruct (decide _); [discriminate|].
      destruct (List.find _ _) as [other|]; [|discriminate].
      destruct (negb _); [discriminate|].
      destruct (rewrite_kernels _ _ _ _) as [k'|] eqn:Hrw; [|discriminate].
      simpl. intros [= <- <-].
      eapply rewrite_kernels_temporaries; [|exact Hk|exact Hrw].
      destruct alias; [|by apply Hself].
      apply Forall_forall. intros [i knl] Hin. simpl.
      apply nat_enumerate_lookup in Hin.
      by rewrite <- Hk, list_lookup_fmap, Hin.
    + simpl. destruct (pop _) as [x|]; [|discriminate]. simpl. by apply IH.
Qed.

(** The temporaries gathered from kernels depend on the temporaries of the
    kernels only. *)
Lemma temporaries_of_kernels kernels1 : forall kernels2,
  knl_temporary_variables <$> kernels1 = knl_temporary_variables <$> kernels2 ->
  kernels1 ≫= temporaries = kernels2 ≫= temporaries
  /\ kernels1 ≫= local_temporaries = kernels2 ≫= local_temporaries.
Proof.
  induction kernels1 as [|k1 kernels1 IH]; intros [|k2 kernels2]; try discriminate.
  - done.
  - rewrite !fmap_cons. intros [= Hk Hrest]. apply IH in Hrest as [H1 H2].
    rewrite !bind_cons, H1, H2. unfold local_temporaries, temporaries.
    by rewrite Hk.
Qed.

Lemma own_working_kernels self kernels use_subkernels :
  own_kernels kernels ->
  working_kernels self kernels use_subkernels
  = if use_subkernels then gen_kernels self ++ concat (gen_depends_on self)
    else gen_kernels self.
Proof.
  intros [-> | ->]; unfold working_kernels; [|done].
  by destruct (gen_kernels self).
Qed.

(** A call on the generator's own kernels leaves the temporaries of the
    kernels as they are when the nameset loop is over. *)
Lemma own_kernels_temporaries self kernels use_subkernels nameset kernels1 kernel_data :
  own_kernels kernels ->
  resolve_names (aliases_self self kernels) (gen_kernels self)
    (gather_args self (working_kernels self kernels use_subkernels)) nameset
    (working_kernels self kernels use_subkernels) [] = Ok (kernels1, kernel_data) ->
  knl_temporary_variables <$> kernels1
  = knl_temporary_variables <$> working_kernels self kernels use_subkernels.
Proof.
  intros Hown. apply resolve_names_temporaries; [|done].
  intros _. apply Forall_forall. intros [i knl] Hin. simpl.
  apply nat_enumerate_lookup in Hin.
  rewrite own_working_kernels by done. rewrite list_lookup_fmap.
  destruct use_subkernels; [rewrite lookup_app_l|]; rewrite ?Hin; try done.
  by eapply lookup_lt_Some.
Qed.

(** Two lists in strictly increasing order of the names that hold the same
    temporaries are the same list. *)
Lemma alphabetical_unique (l1 : list TemporaryVariable) : forall l2,
  alphabetical (tv_name <$> l1) -> alphabetical (tv_name <$> l2) ->
  (forall t, t ∈ l1 <-> t ∈ l2) -> l1 = l2.
Proof.
  assert (forall (t : TemporaryVariable) l,
             alphabetical (tv_name <$> t :: l) ->
             alphabetical (tv_name <$> l)
             /\ forall u, u ∈ l -> name_lt (tv_name t) (tv_name u)) as Hinv.
  { intros t l H. rewrite fmap_cons in H. apply StronglySorted_inv in H as [Hs Hall].
    split; [done|]. intros u Hu. rewrite Forall_forall in Hall.
    apply Hall, list_elem_of_fmap. eauto. }
  assert (forall a b, name_lt a b -> name_lt b a -> False) as Hasym.
  { intros a b. unfold name_lt, String.ltb.
    destruct (String.compare a b) eqn:Hab; try discriminate.
    destruct (String.compare b a) eqn:Hba; try discriminate. intros _ _.
    apply String_as_OT.cmp_lt in Hab, Hba.
    by apply (String_as_OT.lt_not_eq _ _ (String_as_OT.lt_trans _ _ _ Hab Hba)). }
  induction l1 as [|t1 l1 IH]; intros [|t2 l2] H1 H2 Hsame.
  - done.
  - exfalso. apply (elem_of_nil t2), Hsame. by left.
  - exfalso. apply (elem_of_nil t1), Hsame. by left.
  - apply Hinv in H1 as [H1 Hlt1]. apply Hinv in H2 as [H2 Hlt2].
    assert (t1 = t2) as ->.
    { assert (t1 ∈ t2 :: l2) as Ht1 by (apply Hsame; by left).
      assert (t2 ∈ t1 :: l1) as Ht2 by (apply Hsame; by left).
      apply elem_of_cons in Ht1 as [?|Ht1]; [done|].
      apply elem_of_cons in Ht2 as [?|Ht2]; [done|].
      exfalso. eapply Hasym; [by apply Hlt1|by apply Hlt2]. }
    f_equal. apply IH; [done|done|].
    intros t. split; intros Ht.
    + assert (t ∈ t2 :: l2) as Hin by (apply Hsame; by right).
      apply elem_of_cons in Hin as [->|Hin]; [|done].
      exfalso. eapply name_lt_irrefl. by apply Hlt1.
    + assert (t ∈ t2 :: l1) as Hin by (apply Hsame; by right).
      apply elem_of_cons in Hin as [->|Hin]; [|done].
      exfalso. eapply name_lt_irrefl. by apply Hlt2.
Qed.

(** The names of the lists returned are in strictly increasing order. *)
Lemma returned_lists_sorted self kernels use_subkernels r :
  _process_args self kernels use_subkernels = Ok r ->
  alphabetical (arg_name <$> r_args r)
  /\ alphabetical (arg_name <$> r_valueargs r)
  /\ alphabetical (tv_name <$> r_constants r).
Proof.
  intros H.
  apply process_args_returns in H
    as (kernels1 & kernel_data & temps & kernels2 & local & temps2
        & Hnames & Htemps & Hhoist & ->).
  apply resolve_names_names in Hnames. simpl in Hnames.
  apply resolve_temps_names in Htemps. simpl in Htemps.
  assert (alphabetical (arg_name <$> kernel_data)) as Hkd
      by (rewrite Hnames; apply sorted_set_sorted).
  assert (alphabetical (tv_name <$> temps)) as Htm
      by (rewrite Htemps; apply sorted_set_sorted).
  simpl. repeat split; try by apply alphabetical_filter.
  apply alphabetical_filter.
  destruct (hoist_locals self).
  - by eapply hoist_temps.
  - by injection Hhoist as <- <- <-.
Qed.

(** The constants returned are the read-only ones among the temporaries
    that the kernels hold when the nameset loop is over, less the local
    temporaries that were hoisted. *)
Lemma returned_constants self kernels use_subkernels r :
  _process_args self kernels use_subkernels = Ok r ->
  exists kernels1 kernel_data,
    resolve_names (aliases_self self kernels) (gen_kernels self)
      (gather_args self (working_kernels self kernels use_subkernels))
      (Py.sorted_set
         (arg_name <$> gather_args self (working_kernels self kernels use_subkernels)))
      (working_kernels self kernels use_subkernels) []
    = Ok (kernels1, kernel_data)
    /\ r_kernels r = (if hoist_locals self then hoisted <$> kernels1 else kernels1)
    /\ r_local r = (if hoist_locals self then kernels1 ≫= local_temporaries else [])
    /\ forall t, t ∈ r_constants r
                 <-> t ∈ shared_temporaries self kernels1 /\ tv_read_only t = true
                     /\ t ∉ r_local r.
Proof.
  intros H.
  apply process_args_returns in H
    as (kernels1 & kernel_data & temps & kernels2 & local & temps2
        & Hnames & Htemps & Hhoist & ->).
  exists kernels1, kernel_data. split; [done|].
  apply resolve_temps_spec in Htemps as [_ Hmem]. simpl.
  assert (forall t, t ∈ temps <-> t ∈ shared_temporaries self kernels1) as Hmem'.
  { intros t. rewrite Hmem, elem_of_nil. split.
    - by intros [[]|[? _]].
    - intros Ht. right. split; [done|].
      apply elem_of_sorted_set, list_elem_of_fmap. eauto. }
  destruct (hoist_locals self).
  - rewrite hoist_spec in Hhoist. injection Hhoist as <- <- <-.
    split; [done|]. split; [done|]. intros t. simpl.
    rewrite !elem_of_List_filter, Hmem', negb_true_iff, bool_decide_eq_false. tauto.
  - injection Hhoist as <- <- <-.
    split; [done|]. split; [done|]. intros t.
    rewrite elem_of_List_filter, Hmem', elem_of_nil. tauto.
Qed.

(** On the generator's own kernels, the constants returned are given by the
    temporaries of the kernels the call starts from. *)
Lemma own_kernels_constants self kernels use_subkernels r :
  own_kernels kernels ->
  _process_args self kernels use_subkernels = Ok r ->
  forall t, t ∈ r_constants r
            <-> t ∈ shared_temporaries self
                      (working_kernels self kernels use_subkernels)
                /\ tv_read_only t = true
                /\ (hoist_locals self = true ->
                    t ∉ (working_kernels self kernels use_subkernels
                           ≫= local_temporaries)).
Proof.
  intros Hown H.
  apply returned_constants in H as (kernels1 & kernel_data & Hnames & _ & Hlocal & Hc).
  apply own_kernels_temporaries in Hnames; [|done].
  apply temporaries_of_kernels in Hnames as [Ht Hl].
  intros t. rewrite Hc, Hlocal. unfold shared_temporaries. rewrite Ht, Hl.
  destruct (hoist_locals self).
  - split; intros (? & ? & ?); auto.
  - rewrite elem_of_nil. split; intros (? & ? & ?); repeat split; auto. discriminate.
Qed.

(** C10: the argument list, the value arguments and the constant
    temporaries that [_process_args] returns are in strictly increasing
    alphabetical order of their names, and they are the deduplicated
    lists: the names of the arguments and value arguments are the names
    that the kernels and the extra kernel data declare; every read-only
    temporary outside private memory that a kernel or the extra kernel
    data still holds and that was not hoisted is a constant, and every
    constant is such a temporary of the kernels at hand; on the
    generator's own kernels the constants are exactly the read-only
    shared temporaries of these kernels, less the hoisted ones.  The lists
    do not depend on the order of declaration: a call on kernels that
    declare the same arguments returns the same arguments and value
    arguments, and a call on own kernels that hold the same temporaries
    returns the same constants. *)
Theorem resolved_lists_are_alphabetical self kernels use_subkernels r :
  _process_args self kernels use_subkernels = Ok r ->
  (alphabetical (arg_name <$> r_args r)
   /\ alphabetical (arg_name <$> r_valueargs r)
   /\ alphabetical (tv_name <$> r_constants r))
  /\ (forall n, n ∈ arg_name <$> (r_args r ++ r_valueargs r)
                <-> n ∈ arg_name <$> gather_args self
                                       (working_kernels self kernels use_subkernels))
  /\ (forall t, t ∈ shared_temporaries self (r_kernels r) ->
                tv_read_only t = true -> t ∉ r_local r -> t ∈ r_constants r)
  /\ (forall t, t ∈ r_constants r ->
                tv_read_only t = true /\ (t ∉ r_local r)
                /\ t ∈ shared_temporaries self
                         (working_kernels self kernels use_subkernels
                          ++ gen_kernels self))
  /\ (own_kernels kernels ->
      forall t, t ∈ r_constants r
                <-> t ∈ shared_temporaries self
                          (working_kernels self kernels use_subkernels)
                    /\ tv_read_only t = true
                    /\ (hoist_locals self = true ->
                        t ∉ (working_kernels self kernels use_subkernels
                               ≫= local_temporaries)))
  /\ (forall self' kernels' use_subkernels' r',
        _process_args self' kernels' use_subkernels' = Ok r' ->
        (forall x, x ∈ gather_args self'
                         (working_kernels self' kernels' use_subkernels')
                   <-> x ∈ gather_args self
                             (working_kernels self kernels use_subkernels)) ->
        r_args r' = r_args r /\ r_valueargs r' = r_valueargs r)
  /\ (forall self' kernels' use_subkernels' r',
        _process_args self' kernels' use_subkernels' = Ok r' ->
        own_kernels kernels -> own_kernels kernels' ->
        hoist_locals self' = hoist_locals self ->
        (forall t, t ∈ shared_temporaries self'
                         (working_kernels self' kernels' use_subkernels')
                   <-> t ∈ shared_temporaries self
                             (working_kernels self kernels use_subkernels)) ->
        (forall t, t ∈ (working_kernels self' kernels' use_subkernels'
                          ≫= local_temporaries)
                   <-> t ∈ (working_kernels self kernels use_subkernels
                            ≫= local_temporaries)) ->
        r_constants r' = r_constants r).
Proof.
  intros Hrun.
  pose proof (returned_lists_sorted _ _ _ _ Hrun) as Hsorted.
  split; [exact Hsorted|].
  split; [|split; [|split; [|split; [|split]]]].
  - pose proof Hrun as H.
    apply process_args_returns in H
      as (kernels1 & kernel_data & temps & kernels2 & local & temps2
          & Hnames & _ & _ & ->).
    apply resolve_names_names in Hnames. simpl in *.
    intros n.
    rewrite <- (elem_of_sorted_set n
                  (arg_name <$> gather_args self
                     (working_kernels self kernels use_subkernels))), <- Hnames.
    rewrite !list_elem_of_fmap.
    split; intros (x & -> & Hx); exists x; (split; [done|]);
      by apply elem_of_partition.
  - destruct (returned_constants _ _ _ _ Hrun)
      as (kernels1 & kernel_data & _ & Hk & _ & Hc).
    intros t Ht Hro Hl. apply Hc. split; [|done].
    rewrite Hk in Ht. destruct (hoist_locals self); [|done].
    by apply shared_temporaries_hoisted.
  - destruct (returned_constants _ _ _ _ Hrun)
      as (kernels1 & kernel_data & Hnames & _ & _ & Hc).
    intros t Ht. apply Hc in Ht as (Ht & Hro & Hl). split; [done|]. split; [done|].
    apply (resolve_names_Forall
             (fun knl => exists knl0,
                  knl0 ∈ working_kernels self kernels use_subkernels
                         ++ gen_kernels self
                  /\ knl_temporary_variables knl = knl_temporary_variables knl0))
      in Hnames.
    + unfold shared_temporaries in *. rewrite elem_of_app in *.
      destruct Ht as [Ht|Ht]; [left|by right].
      apply elem_of_List_filter in Ht as [Ht Hs]. apply elem_of_List_filter.
      split; [|done].
      apply list_elem_of_bind in Ht as (knl & Ht & Hknl).
      rewrite Forall_forall in Hnames.
      destruct (Hnames knl Hknl) as (knl0 & Hknl0 & Heq).
      apply list_elem_of_bind. exists knl0. split; [|done].
      unfold temporaries in *. by rewrite <- Heq.
    + intros other atomic knl _ (knl0 & ? & ?). by exists knl0.
    + apply Forall_forall. intros knl Hknl. exists knl. split; [|done].
      apply elem_of_app. by right.
    + apply Forall_forall. intros knl Hknl. exists knl. split; [|done].
      apply elem_of_app. by left.
  - intros Hown. by apply own_kernels_constants.
  - intros self' kernels' use_subkernels' r' Hrun' Hsame.
    by apply (canonical_arguments_order_free
                self' kernels' use_subkernels' self kernels use_subkernels).
  - intros self' kernels' use_subkernels' r' Hrun' Hown Hown' Hh Hshared Hlocal.
    apply alphabetical_unique.
    + by apply (returned_lists_sorted _ _ _ _ Hrun').
    + apply Hsorted.
    + intros t.
      rewrite (own_kernels_constants _ _ _ _ Hown' Hrun' t),
              (own_kernels_constants _ _ _ _ Hown Hrun t).
      rewrite Hh, Hshared, Hlocal. done.
Qed.

Lemma resolved_lists_are_alphabetical_witness :
  exists r r',
    _process_args (Samples.generator opencl_kernel_generator
                     [MoreSamples.tabulated; Samples.uses_scratch; Samples.updates_k] [])
                  SelfKernels true = Ok r
    /\ _process_args (Samples.generator opencl_kernel_generator
                        [Samples.updates_k; Samples.uses_scratch;
                         MoreSamples.tabulated_reordered] [])
                     (ListObject []) true = Ok r'
    /\ r_args r = [Samples.k_atomic; Samples.phi]
    /\ r_valueargs r = [MoreSamples.problem_size]
    /\ r_constants r = [Samples.c4; Samples.c6]
    /\ r_local r = [Samples.scratch]
    /\ (alphabetical (arg_name <$> r_args r)
        /\ alphabetical (arg_name <$> r_valueargs r)
        /\ alphabetical (tv_name <$> r_constants r))
    /\ (forall t, t ∈ shared_temporaries
                        (Samples.generator opencl_kernel_generator
                           [MoreSamples.tabulated; Samples.uses_scratch;
                            Samples.updates_k] []) (r_kernels r) ->
                  tv_read_only t = true -> t ∉ r_local r -> t ∈ r_constants r)
    /\ (r_args r' = r_args r /\ r_valueargs r' = r_valueargs r)
    /\ r_constants r' = r_constants r.
Proof.
  eexists. eexists.
  split; [vm_compute; reflexivity|]. split; [vm_compute; reflexivity|].
  do 4 (split; [reflexivity|]).
  destruct (resolved_lists_are_alphabetical
              (Samples.generator opencl_kernel_generator
                 [MoreSamples.tabulated; Samples.uses_scratch; Samples.updates_k] [])
              SelfKernels true _ ltac:(vm_compute; reflexivity))
    as (Hsorted & _ & Hkept & _ & _ & Hargs & Hconstants).
  split; [exact Hsorted|]. split; [exact Hkept|]. split.
  - apply (Hargs (Samples.generator opencl_kernel_generator
                    [Samples.updates_k; Samples.uses_scratch;
                     MoreSamples.tabulated_reordered] [])
                 (ListObject []) true); [vm_compute; reflexivity|].
    intros x. clear. vm_compute gather_args.
    rewrite !elem_of_cons, !elem_of_nil. tauto.
  - apply (Hconstants (Samples.generator opencl_kernel_generator
                         [Samples.updates_k; Samples.uses_scratch;
                          MoreSamples.tabulated_reordered] [])
                      (ListObject []) true).
    + vm_compute; reflexivity.
    + by left.
    + by right.
    + reflexivity.
    + intros t. clear. vm_compute shared_temporaries.
      rewrite !elem_of_cons, !elem_of_nil. tauto.
    + intros t. clear. vm_compute mbind.
      rewrite !elem_of_cons, !elem_of_nil. tauto.
Defined.
